(** * mxj/xml.go: XML <-> map[string]interface{} codec

    A shallow embedding of [xml.go] (decoder [xmlToMapParser], caster [cast],
    encoder [marshalMapToXmlIndent] with its entry points [Map.Xml] and
    [Map.XmlIndent]) together with the properties of its specification.

    Conventions.
    - A Go [string] is a Rocq [string] (a sequence of bytes); [len] is
      [String.length] and [<=] on strings is the bytewise lexicographic order.
    - A Go [map[string]interface{}] is a list of entries with pairwise distinct
      keys.  [range] over a Go map visits the entries in an unspecified order;
      the list order stands for that order, and the ordering theorems quantify
      over every permutation of it.
    - The package-level policy variables are collected in [Config].
    - What [xml.go] takes from other packages and other files of the
      repository ([strconv.ParseFloat], [fmt], [encoding/xml], [escapeChars])
      is collected in the class [Externals]. *)

From Stdlib Require Import String Ascii List ZArith Lia Bool Arith.
From Stdlib Require Import Permutation Sorted.
Import ListNotations.
Local Open Scope string_scope.

(* ================================================================== *)
(** ** Go strings *)

Module GoStrings.

Definition len (s : string) : nat := String.length s.

(** [s[:n]] and [s[n:]], for [n <= len s]. *)
Definition take (n : nat) (s : string) : string := substring 0 n s.
Definition drop (n : nat) (s : string) : string := substring n (len s - n) s.

Definition byte_in (c : ascii) (set : string) : bool :=
  existsb (Ascii.eqb c) (list_ascii_of_string set).

(** Every byte of [s] is below [utf8.RuneSelf]. *)
Definition isASCII (s : string) : bool :=
  forallb (fun c => (nat_of_ascii c <? 128)%nat) (list_ascii_of_string s).

(** What [strings.ToLower] does on a string of ASCII bytes: +32 on the bytes
    'A' to 'Z'. *)
Definition lower_byte (c : ascii) : ascii :=
  let n := nat_of_ascii c in
  if (65 <=? n)%nat && (n <=? 90)%nat then ascii_of_nat (n + 32) else c.

Fixpoint lowerASCII (s : string) : string :=
  match s with
  | EmptyString => EmptyString
  | String c r => String (lower_byte c) (lowerASCII r)
  end.

(** [strings.Replace(s, "-", "_", -1)]. *)
Fixpoint dash_to_underscore (s : string) : string :=
  match s with
  | EmptyString => EmptyString
  | String c r =>
      String (if Ascii.eqb c "-"%char then "_"%char else c) (dash_to_underscore r)
  end.

Fixpoint TrimLeft (s cutset : string) : string :=
  match s with
  | EmptyString => EmptyString
  | String c r => if byte_in c cutset then TrimLeft r cutset else s
  end.

Fixpoint TrimRight (s cutset : string) : string :=
  match s with
  | EmptyString => EmptyString
  | String c r =>
      match TrimRight r cutset with
      | EmptyString => if byte_in c cutset then EmptyString else String c EmptyString
      | r' => String c r'
      end
  end.

(** [strings.Trim(s, cutset)] for an ASCII [cutset]. *)
Definition Trim (s cutset : string) : string := TrimRight (TrimLeft s cutset) cutset.

End GoStrings.

(* ================================================================== *)
(** ** strconv *)

Module Strconv.

(** [strconv.ParseBool]; [None] is a non-nil error. *)
Definition ParseBool (s : string) : option bool :=
  if existsb (String.eqb s) ["1"; "t"; "T"; "TRUE"; "true"; "True"] then Some true
  else if existsb (String.eqb s) ["0"; "f"; "F"; "FALSE"; "false"; "False"] then Some false
  else None.

Definition digit_val (c : ascii) : option Z :=
  let n := nat_of_ascii c in
  if (48 <=? n)%nat && (n <=? 57)%nat then Some (Z.of_nat (n - 48)) else None.

(** The value of a string of decimal digits, read left to right. *)
Fixpoint digits (acc : Z) (s : string) : option Z :=
  match s with
  | EmptyString => Some acc
  | String c r =>
      match digit_val c with
      | Some d => digits (10 * acc + d) r
      | None => None
      end
  end.

(** [strconv.ParseUint(s, 10, 64)]: a non-empty string of decimal digits
    whose value fits 64 bits. *)
Definition ParseUint (s : string) : option Z :=
  match s with
  | EmptyString => None
  | _ => match digits 0 s with
         | Some n => if (n <? 2 ^ 64)%Z then Some n else None
         | None => None
         end
  end.

(** [strconv.ParseInt(s, 10, 64)]: an optional sign, then digits; the
    magnitude is cut off at [1 << 63]. *)
Definition ParseInt (s : string) : option Z :=
  match s with
  | EmptyString => None
  | String c r =>
      let neg := Ascii.eqb c "-"%char in
      let body := if Ascii.eqb c "+"%char || neg then r else s in
      match body with
      | EmptyString => None
      | _ => match digits 0 body with
             | Some un =>
                 if negb neg && (2 ^ 63 <=? un)%Z then None
                 else if neg && (2 ^ 63 <? un)%Z then None
                 else Some (if neg then (- un)%Z else un)
             | None => None
             end
      end
  end.

(** [fmt]'s [%v] / [%d] of an integer. *)
Definition digit_char (d : Z) : ascii := ascii_of_nat (48 + Z.to_nat d).

Fixpoint utoa_aux (fuel : nat) (n : Z) (acc : string) : string :=
  match fuel with
  | O => acc
  | S f =>
      let acc' := String (digit_char (n mod 10)) acc in
      if (n <? 10)%Z then acc' else utoa_aux f (n / 10) acc'
  end.

Definition itoa (z : Z) : string :=
  let u := Z.abs z in
  let body := utoa_aux (S (Z.to_nat (Z.log2 u))) u EmptyString in
  if (z <? 0)%Z then String "-"%char body else body.

End Strconv.

(* ================================================================== *)
(** ** Values *)

Section Values.
Variable float64 : Type.

(** The dynamic types [xml.go] tells apart in its type switches.  A map of
    another type than [map[string]interface{}] ([mxj.Map],
    [map[string]string], [map[int]interface{}], ...) is a [VMapOf]: it comes
    with the copy into a [map[string]interface{}] that the encoder makes of
    it, the keys as [fmt.Sprint] gives them. *)
#[warnings="-register-all"]
Inductive value : Type :=
| VNil                                   (* nil *)
| VString (s : string)                   (* string *)
| VBytes (s : string)                    (* []byte *)
| VBool (b : bool)                       (* bool *)
| VInt (z : Z)                           (* int *)
| VInt64 (z : Z)                         (* int64 *)
| VUint64 (z : Z)                        (* uint64 *)
| VFloat64 (f : float64)                 (* float64 *)
| VNumber (text : string)                (* int32, float32, json.Number; with its %v text *)
| VMap (m : list (string * value))       (* map[string]interface{} *)
| VList (l : list value)                 (* []interface{} *)
| VStrings (l : list string)             (* []string *)
| VSlice (marshal : option string) (marshalIndent : string -> string -> option string)
    (* the other slice types of the encoder's list: []float64, []bool, ...;
       with the results of xml.Marshal and xml.MarshalIndent, None for an
       error *)
| VStruct (marshal : string + string)
    (* a struct; with the result of xml.Marshal, the text or the error *)
| VOther (sprint : string)          (* anything else; with its fmt.Sprint text *)
| VMapOf (copy : list (string * value)). (* a map of another type *)

End Values.

Arguments VNil {float64}.
Arguments VString {float64} s.
Arguments VBytes {float64} s.
Arguments VBool {float64} b.
Arguments VInt {float64} z.
Arguments VInt64 {float64} z.
Arguments VUint64 {float64} z.
Arguments VFloat64 {float64} f.
Arguments VNumber {float64} text.
Arguments VMap {float64} m.
Arguments VList {float64} l.
Arguments VStrings {float64} l.
Arguments VSlice {float64} marshal marshalIndent.
Arguments VStruct {float64} marshal.
Arguments VOther {float64} sprint.
Arguments VMapOf {float64} copy.

(* ================================================================== *)
(** ** What xml.go takes from elsewhere *)

(** [float64] values are kept abstract: they enter through
    [strconv.ParseFloat] and leave through [fmt]'s [%v]; [fmtOther] is [%v] on
    the values that are not scalars and [fmtType] is [%T].  [escapeChars] is
    declared in another file of the repository.  [xmlTokens b] is the outcome
    of calling [Token] of a fresh [encoding/xml] decoder on the bytes [b]
    until it fails: [None] when the failure is [io.EOF], [Some e] for any
    other error, [e] its text.  [mapToLower] is [strings.Map(unicode.ToLower, s)],
    which [strings.ToLower] calls for a string with a byte that is not ASCII;
    it maps every rune to a rune and so leaves no string empty. *)
Class Externals := {
  float64 : Type;
  ParseFloat : string -> option float64;
  fmtFloat : float64 -> string;
  fmtOther : value float64 -> string;
  fmtType : value float64 -> string;
  escapeChars : string -> string;
  xmlTokens : string -> option string;
  mapToLower : string -> string;
  mapToLower_nonempty : forall s, mapToLower s = "" -> s = "";
}.

(** [strings.ToLower]: "optimize for ASCII-only strings", and the mapping
    of the runes for the others. *)
Definition ToLower {E : Externals} (s : string) : string :=
  if GoStrings.isASCII s then GoStrings.lowerASCII s else mapToLower s.

(** [interface{}] *)
Definition any {E : Externals} : Type := value float64.
Definition gomap {E : Externals} : Type := list (string * any).

(** A Go [error]: [io.EOF]; an error with the given text; the encoder's
    "invalid attribute value for: k:<T>", [T] the type of [v]. *)
Inductive error {E : Externals} :=
| EOF
| ErrorString (msg : string)
| InvalidAttribute (k : string) (v : any).

(** [err.Error()] *)
Definition Error {E : Externals} (err : error) : string :=
  match err with
  | EOF => "EOF"
  | ErrorString msg => msg
  | InvalidAttribute k v => "invalid attribute value for: " ++ k ++ ":<" ++ fmtType v ++ ">"
  end.

(** The package-level variables of xml.go (and the two switches of the escape
    mechanism, declared next to [escapeChars]). *)
Record Config := {
  textK : string;
  attrPrefix : string;
  includeTagSeqNum : bool;
  lowerCase : bool;
  trimRunes : string;
  snakeCaseKeys : bool;
  castToInt : bool;
  handleXMPPStreamTag : bool;
  decodeSimpleValuesAsMap : bool;
  castNanInf : bool;
  castToFloat : bool;
  castToBool : bool;
  checkTagToSkip : option (string -> bool);
  useGoXmlEmptyElemSyntax : bool;
  xmlCheckIsValid : bool;
  xmlEscapeChars : bool;
  xmlEscapeCharsDecoder : bool;
}.

Definition lenAttrPrefix (c : Config) : nat := GoStrings.len (attrPrefix c).

(** "\t\r\b\n " *)
Definition defaultTrimRunes : string :=
  String (ascii_of_nat 9) (String (ascii_of_nat 13) (String (ascii_of_nat 8)
    (String (ascii_of_nat 10) " "))).

(** The initial values of the variables. *)
Definition defaults : Config := {|
  textK := "$";
  attrPrefix := "-";
  includeTagSeqNum := false;
  lowerCase := false;
  trimRunes := defaultTrimRunes;
  snakeCaseKeys := false;
  castToInt := false;
  handleXMPPStreamTag := false;
  decodeSimpleValuesAsMap := false;
  castNanInf := false;
  castToFloat := true;
  castToBool := true;
  checkTagToSkip := None;
  useGoXmlEmptyElemSyntax := false;
  xmlCheckIsValid := false;
  xmlEscapeChars := false;
  xmlEscapeCharsDecoder := false;
|}.

Definition DefaultRootTag : string := "doc".

(* ================================================================== *)
(** ** cast *)

Section Cast.
Context {E : Externals}.
Variable c : Config.

Definition skipTag (t : string) : bool :=
  match checkTagToSkip c with
  | Some f => negb (t =? "") && f t
  | None => false
  end.

Definition isNanInf (s : string) : bool :=
  existsb (String.eqb (ToLower s)) ["nan"; "inf"; "-inf"].

(** [s[:1]] is one of "t", "T", "f", "F". *)
Definition boolScreen (s : string) : bool :=
  existsb (String.eqb (GoStrings.take 1 s)) ["t"; "T"; "f"; "F"].

Definition castBool (s : string) : any :=
  if castToBool c then
    if (0 <? GoStrings.len s)%nat && (GoStrings.len s <? 6)%nat then
      if boolScreen s then
        match Strconv.ParseBool s with
        | Some b => VBool b
        | None => VString s
        end
      else VString s
    else VString s
  else VString s.

Definition castFloat (s : string) : any :=
  match (if castToFloat c then ParseFloat s else None) with
  | Some f => VFloat64 f
  | None => castBool s
  end.

Definition castNumeric (s : string) : any :=
  if castToInt c then
    match Strconv.ParseInt s with
    | Some f => VInt64 f
    | None =>
        match Strconv.ParseUint s with
        | Some f => VUint64 f
        | None => castFloat s
        end
    end
  else castFloat s.

Definition cast (s : string) (r : bool) (t : string) : any :=
  if skipTag t then VString s
  else if r then
    if negb (castNanInf c) && isNanInf s then VString s
    else castNumeric s
  else VString s.

End Cast.

(* ================================================================== *)
(** ** Maps *)

Section Maps.
Context {E : Externals}.

(** [m[k]] with its "comma ok". *)
Fixpoint mapGet (k : string) (m : gomap) : option any :=
  match m with
  | [] => None
  | (k', v) :: rest => if k' =? k then Some v else mapGet k rest
  end.

(** [m[k] = v] on an allocated map. *)
Fixpoint mapSet (k : string) (v : any) (m : gomap) : gomap :=
  match m with
  | [] => [(k, v)]
  | (k', v') :: rest =>
      if k' =? k then (k, v) :: rest else (k', v') :: mapSet k v rest
  end.

Definition keys (m : gomap) : list string := map fst m.

(** A map variable is [None] while it is nil.  Reading a nil map finds
    nothing; assigning into it panics ([assign] gives [None]). *)
Definition mlen (m : option gomap) : nat :=
  match m with Some l => length l | None => 0 end.

Definition mget (m : option gomap) (k : string) : option any :=
  match m with Some l => mapGet k l | None => None end.

Definition assign (m : option gomap) (k : string) (v : any) : option gomap :=
  option_map (mapSet k v) m.

End Maps.

(* ================================================================== *)
(** ** The token stream *)

(** [xml.Attr], of which only [Name.Local] and [Value] are read. *)
Record Attr := { attrLocal : string; attrValue : string }.

(** [xml.Token]: the three kinds the parser acts on, and the rest
    (comments, processing instructions, directives). *)
Inductive Token :=
| StartElement (local : string) (attr : list Attr)
| EndElement (local : string)
| CharData (data : string)
| OtherToken.

(** [*xml.Decoder], as the tokens it will still deliver and the error it
    reports after them: [None] for [io.EOF], [Some e] for any other error,
    [e] its [Error()] text. *)
Record Decoder := { pending : list Token; failure : option string }.

(** [p.Token()] *)
Definition nextToken (p : Decoder) : (Token * Decoder) + option string :=
  match pending p with
  | t :: rest => inl (t, {| pending := rest; failure := failure p |})
  | [] => inr (failure p)
  end.

(* ================================================================== *)
(** ** xmlToMapParser *)

Section Decoder.
Context {E : Externals}.
Variable c : Config.

(** How a call ends: it returns its two results and leaves the decoder
    advanced, or it panics.  [OutOfFuel] belongs to the bound on the
    recursion and is never the outcome of [xmlToMap] ([xmlToMap_ends]). *)
Inductive outcome :=
| Returns (m : option gomap) (err : option error) (p : Decoder)
| Panics
| OutOfFuel.

Definition normKey (skey : string) : string :=
  let skey := if lowerCase c then ToLower skey else skey in
  if snakeCaseKeys c then GoStrings.dash_to_underscore skey else skey.

Definition attrKey (v : Attr) : string :=
  let local := if snakeCaseKeys c then GoStrings.dash_to_underscore (attrLocal v)
               else attrLocal v in
  let key := attrPrefix c ++ local in
  if lowerCase c then ToLower key else key.

Definition attrVal (v : Attr) : string :=
  if xmlEscapeCharsDecoder c then escapeChars (attrValue v) else attrValue v.

(** The loop over the attributes [a]. *)
Definition loadAttrs (a : list Attr) (r : bool) (na : gomap) : gomap :=
  fold_left (fun na v => mapSet (attrKey v) (cast c (attrVal v) r (attrKey v)) na) a na.

(** [for key, val = range nn { break }] *)
Definition firstEntry (nn : option gomap) : string * any :=
  match nn with
  | Some ((key, val) :: _) => (key, val)
  | _ => ("", VNil)
  end.

(** The [includeTagSeqNum] switch; gives the new [val] and [seq]. *)
Definition tagSeq (val : any) (seq : Z) : any * Z :=
  if includeTagSeqNum c then
    match val with
    | VList _ => (val, seq)
    | VMap m => (VMap (mapSet "_seq" (VInt seq) m), (seq + 1)%Z)
    | VNil => (val, seq)
    | _ => (VMap (mapSet "_seq" (VInt seq) [(textK c, val)]), (seq + 1)%Z)
    end
  else (val, seq).

(** "See if 'key' already exists. If 'key' exists, then this is a list,
    if not just add key:val to na." *)
Definition addChild (na : option gomap) (key : string) (val : any) : option gomap :=
  match mget na key with
  | Some v =>
      let a := match v with
               | VList a => a
               | _ => [v]
               end in
      assign na key (VList (a ++ [val]))
  | None => assign na key val
  end.

(** The [xml.EndElement] case, up to its [return n, nil]. *)
Definition endElement (skey : string) (n na : option gomap) : option gomap :=
  if (mlen n =? 0)%nat then
    if (0 <? mlen na)%nat then assign n skey (VMap (match na with Some l => l | None => [] end))
    else assign n skey (VString "")
  else if (mlen n =? 1)%nat && (0 <? mlen na)%nat then
    match assign na (textK c) (snd (firstEntry n)) with
    | Some na' => assign n skey (VMap na')
    | None => None
    end
  else n.

Definition charData (data : string) : string :=
  let tt := GoStrings.Trim data (trimRunes c) in
  if xmlEscapeCharsDecoder c then escapeChars tt else tt.

(** What the parser returns for the error [err] of [p.Token()]. *)
Definition tokenError (err : option string) : error :=
  match err with
  | None => EOF
  | Some e => ErrorString ("xml.Decoder.Token() - " ++ e)
  end.

Fixpoint xmlToMapParser (fuel : nat) (skey : string) (a : list Attr) (p : Decoder) (r : bool)
  {struct fuel} : outcome :=
  match fuel with
  | O => OutOfFuel
  | S fuel =>
      let skey := normKey skey in
      let n : option gomap := if skey =? "" then None else Some [] in
      let na : option gomap := if skey =? "" then None else Some (loadAttrs a r []) in
      if handleXMPPStreamTag c && (skey =? "stream") then
        match assign n skey (VMap (match na with Some l => l | None => [] end)) with
        | Some n' => Returns (Some n') None p
        | None => Panics
        end
      else parseTokens fuel skey n na 0%Z p r
  end

(** The [for] loop, one token per turn. *)
with parseTokens (fuel : nat) (skey : string) (n na : option gomap) (seq : Z)
       (p : Decoder) (r : bool) {struct fuel} : outcome :=
  match fuel with
  | O => OutOfFuel
  | S fuel =>
      match nextToken p with
      | inr err => Returns None (Some (tokenError err)) p
      | inl (StartElement local attr, p) =>
          if skey =? "" then xmlToMapParser fuel local attr p r
          else
            match xmlToMapParser fuel local attr p r with
            | Returns nn (Some err) p => Returns None (Some err) p
            | Returns nn None p =>
                let (key, val) := firstEntry nn in
                let (val, seq) := tagSeq val seq in
                match addChild na key val with
                | Some na' => parseTokens fuel skey n (Some na') seq p r
                | None => Panics
                end
            | Panics => Panics
            | OutOfFuel => OutOfFuel
            end
      | inl (EndElement _, p) =>
          match endElement skey n na with
          | Some n' => Returns (Some n') None p
          | None => Panics
          end
      | inl (CharData data, p) =>
          let tt := charData data in
          if (0 <? GoStrings.len tt)%nat then
            if (0 <? mlen na)%nat || decodeSimpleValuesAsMap c then
              match assign na (textK c) (cast c tt r (textK c)) with
              | Some na' => parseTokens fuel skey n (Some na') seq p r
              | None => Panics
              end
            else if negb (skey =? "") then
              match assign n skey (cast c tt r skey) with
              | Some n' => parseTokens fuel skey (Some n') na seq p r
              | None => Panics
              end
            else parseTokens fuel skey n na seq p r
          else parseTokens fuel skey n na seq p r
      | inl (OtherToken, p) => parseTokens fuel skey n na seq p r
      end
  end.

(** Enough fuel for any run on [p]: two units per pending token. *)
Definition fuelFor (p : Decoder) : nat := 2 * length (pending p) + 2.

(** [xmlToMap] / [xmlReaderToMap] on the decoder [p]: what [NewMapXml] and
    [NewMapXmlReader] return. *)
Definition xmlToMap (p : Decoder) (r : bool) : outcome :=
  xmlToMapParser (fuelFor p) "" [] p r.

End Decoder.

(* ================================================================== *)
(** ** The output buffer *)

(** The double quote and the line feed, as strings. *)
Definition dquote : string := String (ascii_of_nat 34) EmptyString.
Definition newline : string := String (ascii_of_nat 10) EmptyString.

(** Code that appends to the [*bytes.Buffer] and may stop with an error:
    from the buffer before, the buffer after and the error, [None] for nil.
    ([WriteString] itself never fails.) *)
Definition Emit {E : Externals} : Type := string -> string * option error.

Section Emit.
Context {E : Externals}.

Definition skip : Emit := fun b => (b, None).
Definition write (s : string) : Emit := fun b => (b ++ s, None).
Definition fail (e : error) : Emit := fun b => (b, Some e).

(** [m] and then, unless [m] returned an error, [k]. *)
Definition andThen (m k : Emit) : Emit :=
  fun b => match m b with
           | (b', None) => k b'
           | (b', Some e) => (b', Some e)
           end.

Definition when (cond : bool) (m : Emit) : Emit := if cond then m else skip.

End Emit.

Notation "m ;; k" := (andThen m k) (at level 61, right associativity).

(* ================================================================== *)
(** ** sort.Sort *)

(** [sort.Sort] with the given [Less], as an insertion sort.  The lists the
    encoder sorts have pairwise distinct keys, for which every sorting
    algorithm gives the same list (see [sorted_perm_unique]). *)
Section Sort.
Context {A : Type}.
Variable less : A -> A -> bool.

Fixpoint insertSorted (x : A) (l : list A) : list A :=
  match l with
  | [] => [x]
  | y :: rest => if less x y then x :: l else y :: insertSorted x rest
  end.

Fixpoint sortBy (l : list A) : list A :=
  match l with
  | [] => []
  | x :: rest => insertSorted x (sortBy rest)
  end.
End Sort.

(** [a <= b] on strings. *)
Definition stringLe (a b : string) : bool := String.leb a b.

(** [attrList.Less] *)
Definition attrLess (a b : string * string) : bool := stringLe (fst a) (fst b).

(** [elemList.Less] *)
Definition elemLess {V : Type} (a b : string * V) : bool := stringLe (fst a) (fst b).

(* ================================================================== *)
(** ** pretty *)

Record pretty := {
  indent : string;
  cnt : nat;
  padding : string;
  mapDepth : Z;
  start : nat;
}.

Definition Indent (p : pretty) : pretty :=
  {| indent := indent p; cnt := S (cnt p); padding := padding p ++ indent p;
     mapDepth := mapDepth p; start := start p |}.

Definition Outdent (p : pretty) : pretty :=
  if (0 <? cnt p)%nat then
    {| indent := indent p; cnt := cnt p - 1;
       padding := GoStrings.take (GoStrings.len (padding p) - GoStrings.len (indent p)) (padding p);
       mapDepth := mapDepth p; start := start p |}
  else p.

Definition deeper (d : Z) (p : pretty) : pretty :=
  {| indent := indent p; cnt := cnt p; padding := padding p;
     mapDepth := (mapDepth p + d)%Z; start := start p |}.

(** [new(pretty)] with [indent] and [padding] set. *)
Definition newPretty (prefix ind : string) : pretty :=
  {| indent := ind; cnt := 0; padding := prefix; mapDepth := 0; start := 0 |}.

(* ================================================================== *)
(** ** marshalMapToXmlIndent *)

Section Encoder.
Context {E : Externals}.
Variable c : Config.

(** [lenAttrPrefix > 0 && lenAttrPrefix < len(k) && k[:lenAttrPrefix] == attrPrefix] *)
Definition isAttrKey (k : string) : bool :=
  (0 <? lenAttrPrefix c)%nat && (lenAttrPrefix c <? GoStrings.len k)%nat
  && (GoStrings.take (lenAttrPrefix c) k =? attrPrefix c).

(** [k[lenAttrPrefix:]] *)
Definition attrName (k : string) : string := GoStrings.drop (lenAttrPrefix c) k.

Definition escaped (s : string) : string :=
  if xmlEscapeChars c then escapeChars s else s.

(** [fmt.Sprintf("%v", v)] *)
Definition fmtV (v : any) : string :=
  match v with
  | VNil => "<nil>"
  | VString s => s
  | VBool b => if b then "true" else "false"
  | VInt z | VInt64 z | VUint64 z => Strconv.itoa z
  | VFloat64 f => fmtFloat f
  | VNumber t => t
  | _ => fmtOther v
  end.

(** The value of one attribute, by the type switch on [v]. *)
Definition attrValueOf (k : string) (v : any) : string + error :=
  match v with
  | VString s => inl (escaped s)
  | VFloat64 _ | VBool _ | VInt _ | VInt64 _ | VNumber _ => inl (fmtV v)
  | VBytes s => inl (escaped s)
  | _ => inr (InvalidAttribute k v)
  end.

(** "scan out attributes": the pairs of [attrlist] in the order of the
    [range], or the error of the first attribute with a wrong type. *)
Fixpoint scanAttrs (vv : gomap) : list (string * string) + error :=
  match vv with
  | [] => inl []
  | (k, v) :: rest =>
      if isAttrKey k then
        match attrValueOf k v with
        | inl ss =>
            match scanAttrs rest with
            | inl l => inl ((attrName k, ss) :: l)
            | inr e => inr e
            end
        | inr e => inr e
        end
      else scanAttrs rest
  end.

Definition writeAttrs (attrlist : list (string * string)) : Emit :=
  fold_right (fun v k => write (" " ++ fst v ++ "=" ++ dquote ++ snd v ++ dquote) ;; k)
    skip attrlist.

(** The text of the [textK] entry. *)
Definition textOf (v : any) : string :=
  match v with
  | VString s => escaped s
  | VBytes s => escaped s
  | _ => fmtV v
  end.

(** "extract the map k:v pairs and sort on key"; [V] is what is kept of
    each value. *)
Definition isElemKey (k : string) : bool :=
  negb (k =? textK c) && negb (isAttrKey k).

Definition scanElems {V : Type} (vv : list (string * V)) : list (string * V) :=
  filter (fun kv => isElemKey (fst kv)) vv.

Definition isList (v : any) : bool :=
  match v with VList _ => true | _ => false end.

(** The end of the function, from [if endTag]. *)
Definition closeTag (doIndent : bool) (key : string) (p : pretty)
  (endTag isSimple : bool) (elen : nat) : Emit :=
  when endTag
    (when (doIndent && negb isSimple) (write (padding p)) ;;
     if (0 <? elen)%nat || useGoXmlEmptyElemSyntax c then
       when (elen =? 0)%nat (write ">") ;; write ("</" ++ key ++ ">")
     else write "/>") ;;
  when (doIndent && (start p <? cnt p)%nat) (write newline).

(** The switch that settles the types to encode: [nil] becomes [""], a
    struct its [xml.Marshal] text, any other type its [fmt.Sprint] text. *)
Definition settle (value : any) : any + error :=
  match value with
  | VNil => inl (VString "")
  | VStruct (inl v) => inl (VString v)
  | VStruct (inr e) => inr (ErrorString e)
  | VUint64 z => inl (VString (Strconv.itoa z))
  | VOther s => inl (VString s)
  | _ => inl value
  end.

(** "start the XML tag with required indentaton and padding" *)
Definition openTag (doIndent : bool) (key : string) (value : any) (p : pretty) : Emit :=
  when doIndent
    (match value with
     | VList _ | VStrings _ => skip
     | _ => write (padding p)
     end) ;;
  match value with
  | VList _ => skip
  | _ => write ("<" ++ key)
  end.

(** The [default] case of the main switch: a value that is neither a map
    nor a list.  ([settle] has replaced the types of the last line, and
    [case nil] of the source is never taken for the same reason.) *)
Definition marshalSimple (doIndent : bool) (key : string) (value : any) (p : pretty) : Emit :=
  match value with
  | VString s | VBytes s =>
      let v := escaped s in
      let elen := GoStrings.len v in
      when (0 <? elen)%nat (write (">" ++ v)) ;;
      closeTag doIndent key p true true elen
  | VFloat64 _ | VBool _ | VInt _ | VInt64 _ | VNumber _ =>
      let v := fmtV value in
      write (">" ++ v) ;;
      closeTag doIndent key p true true (GoStrings.len v)
  | VSlice m mi =>
      write ">" ;;
      match (if doIndent then mi (padding p) (indent p) else m) with
      | None => write ">UNKNOWN" ;; closeTag doIndent key p true true 0
      | Some v =>
          when (0 <? GoStrings.len v)%nat (write v) ;;
          closeTag doIndent key p true true (GoStrings.len v)
      end
  | _ => closeTag doIndent key p true true 0
  end.

(** The loops over the members of a list: each member is written under
    [key] by [each], indented by one step. *)
Fixpoint eachMember (doIndent : bool) (each : list (pretty -> Emit)) (p : pretty) : Emit :=
  match each with
  | [] => skip
  | m :: rest =>
      let p1 := if doIndent then Indent p else p in
      m p1 ;;
      eachMember doIndent rest (if doIndent then Outdent p1 else p1)
  end.

(** The loop over [elemlist]; [i] is 0 at the head of every turn.  The
    callee copies [pp], so the caller's [p] changes by [Indent] and
    [Outdent] only, and is after the loop what it was before it
    ([Outdent_Indent]). *)
Fixpoint eachElem (doIndent : bool) (elemlist : list (string * (any * (string -> pretty -> Emit))))
  (p : pretty) : Emit :=
  match elemlist with
  | [] => skip
  | (k, (v, m)) :: rest =>
      let step := negb (isList v) && doIndent in
      let p1 := if step then Indent p else p in
      m k p1 ;;
      eachElem doIndent rest (if step then Outdent p1 else p1)
  end.

(** An empty [[]interface{}] or [[]string]. *)
Definition emptyList (doIndent : bool) (key : string) (p : pretty) : Emit :=
  when doIndent (write (padding p ++ indent p)) ;;
  write ("<" ++ key) ;;
  closeTag doIndent key p true false 0.

Fixpoint marshalMapToXmlIndent (doIndent : bool) (value : any) {struct value}
  : string -> pretty -> Emit :=
  fun key p =>
  match value with
  | VMap vv | VMapOf vv =>
      (* [VMapOf]: "try and coerce maps to map[string]interface{}" *)
      let lenvv := length vv in
      openTag doIndent key value p ;;
      match scanAttrs vv with
      | inr e => fail e
      | inl attrlist =>
          let n := length attrlist in
          when (0 <? n)%nat (writeAttrs (sortBy attrLess attrlist)) ;;
          if (n =? lenvv)%nat then
            (* only attributes *)
            (if useGoXmlEmptyElemSyntax c then write ("</" ++ key ++ ">") else write "/>") ;;
            closeTag doIndent key p false false 0
          else
            let children :=
              eachElem doIndent
                (sortBy elemLess
                   (scanElems
                      (map (fun kv =>
                              (fst kv, (snd kv, marshalMapToXmlIndent doIndent (snd kv))))
                         vv)))
                (deeper 1 p) in
            let complex (isComplex : bool) :=
              when (negb isComplex) (write ">") ;;
              when doIndent (write newline) ;;
              children ;;
              closeTag doIndent key p true false 1 in
            match mapGet (textK c) vv with
            | Some v =>
                if (n + 1 =? lenvv)%nat then
                  (* just the value and attributes *)
                  write (">" ++ textOf v) ;;
                  closeTag doIndent key p true true 1
                else write (">" ++ textOf v) ;; complex true
            | None => complex false
            end
      end
  | VList l =>
      match l with
      | [] => emptyList doIndent key p
      | _ => eachMember doIndent
               (map (fun v => marshalMapToXmlIndent doIndent v key) l) p
      end
  | _ =>
      match settle value with
      | inr e => fail e
      | inl (VStrings l) =>
          openTag doIndent key (VStrings l) p ;;
          match l with
          | [] => emptyList doIndent key p
          | _ => eachMember doIndent
                   (map (fun v p1 => openTag doIndent key (VString v) p1 ;;
                                     marshalSimple doIndent key (VString v) p1) l) p
          end
      | inl v => openTag doIndent key v p ;; marshalSimple doIndent key v p
      end
  end.

(** ** Map.Xml and Map.XmlIndent *)

Definition hasNonMap (l : list any) : bool :=
  existsb (fun v => match v with VMap _ => false | _ => true end) l.

(** The tag and the value of the call of [marshalMapToXmlIndent] that
    [Xml] makes. *)
Definition xmlRoot (m : gomap) (rootTag : list string) : string * any :=
  match m, rootTag with
  | [(key, value)], [] =>
      match value with
      | VList l => if hasNonMap l then (DefaultRootTag, VMap m) else (key, value)
      | _ => (key, value)
      end
  | _, [tag] => (tag, VMap m)
  | _, _ => (DefaultRootTag, VMap m)
  end.

(** The same for [XmlIndent]. *)
Definition xmlIndentRoot (m : gomap) (rootTag : list string) : string * any :=
  match m, rootTag with
  | [(key, value)], [] =>
      match value with
      | VList _ => (DefaultRootTag, VMap m)
      | _ => (key, value)
      end
  | _, [tag] => (tag, VMap m)
  | _, _ => (DefaultRootTag, VMap m)
  end.

(** From [if xmlCheckIsValid] to the end: the two results, the bytes
    ([None] for the nil of [return nil, err]) and the error. *)
Definition checkIsValid (res : string * option error) : option string * option error :=
  let (b, err) := res in
  if xmlCheckIsValid c then
    match xmlTokens b with
    | Some e => (None, Some (ErrorString e))
    | None => (Some b, None)
    end
  else (Some b, err).

Definition Xml (mv : gomap) (rootTag : list string) : option string * option error :=
  let (key, value) := xmlRoot mv rootTag in
  checkIsValid (marshalMapToXmlIndent false value key (newPretty "" "") "").

Definition XmlIndent (mv : gomap) (prefix indent : string) (rootTag : list string)
  : option string * option error :=
  let (key, value) := xmlIndentRoot mv rootTag in
  checkIsValid (marshalMapToXmlIndent true value key (newPretty prefix indent) "").

End Encoder.

(* ================================================================== *)
(** ** HandleXmlReader *)

(** The [io.Reader] of [HandleXmlReader], as the decoders see it that are
    made on it one after the other.  A decoder that reports an error of its
    own, a syntax error, is left behind with it, and the next decoder reads
    on behind the place of the error: [ahead] holds, for each such error to
    come, the tokens in front of it and its text.  [last] is what the
    decoders see behind the last of them: the tokens, and then [io.EOF] or
    an error of the reader itself, which stays. *)
Record Reader := { ahead : list (list Token * string); last : Decoder }.

(** A reader with no error but the one at its end. *)
Definition readerOf (p : Decoder) : Reader := {| ahead := []; last := p |}.
Coercion readerOf : Decoder >-> Reader.

(** [xml.NewDecoder(rdr)]: what a new decoder on the reader will give. *)
Definition NewDecoder (rdr : Reader) : Decoder :=
  match ahead rdr with
  | (l, msg) :: _ => {| pending := l; failure := Some msg |}
  | [] => last rdr
  end.

(** The reader behind a decoder that was made on it and is left as [p];
    [failed] when it has reported its error. *)
Definition behind (rdr : Reader) (p : Decoder) (failed : bool) : Reader :=
  match ahead rdr with
  | (_, msg) :: more =>
      if failed then {| ahead := more; last := last rdr |}
      else {| ahead := (pending p, msg) :: more; last := last rdr |}
  | [] => {| ahead := []; last := p |}
  end.

Section Handler.
Context {E : Externals}.
Variable c : Config.

(** [NewMapXmlReader(xmlReader)], on the decoder that [xmlReaderToMap]
    makes on the reader: no cast. *)
Definition NewMapXmlReader (xmlReader : Decoder) : outcome :=
  xmlToMap c xmlReader false.

(** [fmt.Errorf("[xmlReader: %d] %s", n, merr.Error())] *)
Definition readerError (n : Z) (merr : error) : error :=
  ErrorString ("[xmlReader: " ++ Strconv.itoa n ++ "] " ++ Error merr).

(** The loop of [HandleXmlReader], entered with the count [n]; the
    handlers are taken for their answers.  [Some err] is the error
    returned; [None] stands for a loop that does not end within [fuel]
    turns (a handler that keeps answering [true] to an error that stays)
    or a decode that panics. *)
Fixpoint handleLoop (fuel : nat) (xmlReader : Reader) (mapHandler : gomap -> bool)
  (errHandler : error -> bool) (n : Z) : option (option error) :=
  match fuel with
  | O => None
  | S fuel =>
      match NewMapXmlReader (NewDecoder xmlReader) with
      | Returns m merr p =>
          let xmlReader := behind xmlReader p (match merr with Some _ => true | None => false end) in
          let n := (n + 1)%Z in
          let isEOF := match merr with Some EOF => true | _ => false end in
          match merr with
          | Some EOF | None =>
              match m with
              | Some (e :: l) =>
                  if mapHandler (e :: l) then
                    if isEOF then Some None
                    else handleLoop fuel xmlReader mapHandler errHandler n
                  else Some None
              | _ =>
                  if isEOF then Some None
                  else handleLoop fuel xmlReader mapHandler errHandler n
              end
          | Some merr =>
              let merr := readerError n merr in
              if errHandler merr then handleLoop fuel xmlReader mapHandler errHandler n
              else Some (Some merr)
          end
      | _ => None
      end
  end.

Definition HandleXmlReader (fuel : nat) (xmlReader : Reader) (mapHandler : gomap -> bool)
  (errHandler : error -> bool) : option (option error) :=
  handleLoop fuel xmlReader mapHandler errHandler 0.

(** The name of the first [xml.StartElement] of a token list. *)
Fixpoint firstStart (l : list Token) : option string :=
  match l with
  | [] => None
  | StartElement local _ :: _ => Some local
  | _ :: rest => firstStart rest
  end.

End Handler.

(* ================================================================== *)
(** ** Documents *)

(** A well-nested piece of a document and the tokens the tokenizer delivers
    for it. *)
#[warnings="-register-all"]
Inductive xml :=
| Element (local : string) (attr : list Attr) (content : list xml)
| Text (data : string)
| Misc.

Fixpoint tokens (x : xml) : list Token :=
match x with
| Element local attr content =>
    StartElement local attr :: flat_map tokens content ++ [EndElement local]
| Text data => [CharData data]
| Misc => [OtherToken]
end.

(** No element of [x] has an empty name. *)
Fixpoint named (x : xml) : bool :=
match x with
| Element local _ content => negb (local =? "") && forallb named content
| _ => true
end.

(** The parser, read off the document instead of the token stream: what a
    call for the element [x] returns, [None] if it panics.  [decodeItems] is
    the loop over the content, with the variables [n], [na] and [seq] of the
    call. *)
Section DecodeElement.
Context {E : Externals}.
Variable c : Config.
Variable r : bool.

Section Items.
Variable decodeChild : xml -> option gomap.
Variable skey : string.

Fixpoint decodeItems (content : list xml) (n na : option gomap) (seq : Z) : option gomap :=
match content with
| [] => endElement c skey n na
| x :: rest =>
    match x with
    | Element _ _ _ =>
        match decodeChild x with
        | Some nn =>
            let (key, val) := firstEntry (Some nn) in
            let (val, seq) := tagSeq c val seq in
            match addChild na key val with
            | Some na' => decodeItems rest n (Some na') seq
            | None => None
            end
        | None => None
        end
    | Text data =>
        let tt := charData c data in
        if (0 <? GoStrings.len tt)%nat then
          if (0 <? mlen na)%nat || decodeSimpleValuesAsMap c then
            match assign na (textK c) (cast c tt r (textK c)) with
            | Some na' => decodeItems rest n (Some na') seq
            | None => None
            end
          else if negb (skey =? "") then
            match assign n skey (cast c tt r skey) with
            | Some n' => decodeItems rest (Some n') na seq
            | None => None
            end
          else decodeItems rest n na seq
        else decodeItems rest n na seq
    | Misc => decodeItems rest n na seq
    end
end.

End Items.

Fixpoint decodeElement (x : xml) : option gomap :=
match x with
| Element local attr content =>
    decodeItems (fun child => decodeElement child) (normKey c local) content
      (Some []) (Some (loadAttrs c attr r [])) 0%Z
| _ => None
end.

(** The entries that the loop merges into [na] for the child elements of
    [content], in the order of the document, [seq] counting from [seq0]. *)
Fixpoint childEntries (content : list xml) (seq : Z) : list (string * any) :=
match content with
| [] => []
| x :: rest =>
    match x with
    | Element _ _ _ =>
        let (key, val) := firstEntry (decodeElement x) in
        let (val, seq) := tagSeq c val seq in
        (key, val) :: childEntries rest seq
    | _ => childEntries rest seq
    end
end.

End DecodeElement.

(** The values merged under the key [k], in order. *)
Definition valuesFor {E : Externals} (k : string) (entries : list (string * any)) : list any :=
map snd (filter (fun kv => fst kv =? k) entries).

(** What the specification lets [na[k]] be after the children: nothing
    without a child of that key, the bare value for one, the list of the
    values in their order for more. *)
Definition promoted {E : Externals} (vals : list any) : option any :=
match vals with
| [] => None
| [v] => Some v
| _ => Some (VList vals)
end.

(* ================================================================== *)
(** ** The caster, in the words of its specification *)

Section CastSpec.
Context {E : Externals}.
Variable c : Config.

(** The interpretations of [s] in the order of the specification; each is
    [None] when it is switched off or does not accept [s]. *)
Definition interpretations (s : string) : list (option any) :=
  [ if negb (castNanInf c) && isNanInf s then Some (VString s) else None;
    if castToInt c then option_map VInt64 (Strconv.ParseInt s) else None;
    if castToInt c then option_map VUint64 (Strconv.ParseUint s) else None;
    if castToFloat c then option_map VFloat64 (ParseFloat s) else None;
    if castToBool c && (1 <=? GoStrings.len s)%nat && (GoStrings.len s <=? 5)%nat
       && boolScreen s
    then option_map VBool (Strconv.ParseBool s) else None ].

(** "First successful interpretation wins; otherwise return the original
    string." *)
Fixpoint firstSuccess (l : list (option any)) (original : any) : any :=
  match l with
  | [] => original
  | Some v :: _ => v
  | None :: rest => firstSuccess rest original
  end.

Definition castBySpec (s : string) : any :=
  firstSuccess (interpretations s) (VString s).

End CastSpec.

(* ================================================================== *)
(** ** Instances for the examples *)

(** A stand-in for the external functions, on which the examples compute:
    floats are the integers that [ParseInt] reads, nothing is escaped, and
    the tokenizer accepts exactly the empty input and the documents listed. *)
Definition exampleDocs : list string :=
  [ "";
    "<e a=" ++ dquote ++ "1" ++ dquote ++ ">hi</e>";
    "<e/>";
    "<e></e>" ].

#[local] Instance exampleExternals : Externals := {|
  float64 := Z;
  ParseFloat := Strconv.ParseInt;
  fmtFloat := Strconv.itoa;
  fmtOther := fun _ => "?";
  fmtType := fun _ => "?";
  escapeChars := fun s => s;
  xmlTokens := fun b => if existsb (String.eqb b) exampleDocs then None
                        else Some "XML syntax error";
  mapToLower := fun s => s;
  mapToLower_nonempty := fun s H => H;
|}.

(** [defaults] with one switch changed. *)
Definition withCastToInt (c : Config) : Config := {|
  textK := textK c; attrPrefix := attrPrefix c; includeTagSeqNum := includeTagSeqNum c;
  lowerCase := lowerCase c; trimRunes := trimRunes c; snakeCaseKeys := snakeCaseKeys c;
  castToInt := true;
  handleXMPPStreamTag := handleXMPPStreamTag c;
  decodeSimpleValuesAsMap := decodeSimpleValuesAsMap c; castNanInf := castNanInf c;
  castToFloat := castToFloat c; castToBool := castToBool c;
  checkTagToSkip := checkTagToSkip c;
  useGoXmlEmptyElemSyntax := useGoXmlEmptyElemSyntax c;
  xmlCheckIsValid := xmlCheckIsValid c; xmlEscapeChars := xmlEscapeChars c;
  xmlEscapeCharsDecoder := xmlEscapeCharsDecoder c |}.

Definition withGoEmptyElemSyntax (c : Config) : Config := {|
  textK := textK c; attrPrefix := attrPrefix c; includeTagSeqNum := includeTagSeqNum c;
  lowerCase := lowerCase c; trimRunes := trimRunes c; snakeCaseKeys := snakeCaseKeys c;
  castToInt := castToInt c;
  handleXMPPStreamTag := handleXMPPStreamTag c;
  decodeSimpleValuesAsMap := decodeSimpleValuesAsMap c; castNanInf := castNanInf c;
  castToFloat := castToFloat c; castToBool := castToBool c;
  checkTagToSkip := checkTagToSkip c;
  useGoXmlEmptyElemSyntax := true;
  xmlCheckIsValid := xmlCheckIsValid c; xmlEscapeChars := xmlEscapeChars c;
  xmlEscapeCharsDecoder := xmlEscapeCharsDecoder c |}.

Definition withCheckIsValid (c : Config) : Config := {|
  textK := textK c; attrPrefix := attrPrefix c; includeTagSeqNum := includeTagSeqNum c;
  lowerCase := lowerCase c; trimRunes := trimRunes c; snakeCaseKeys := snakeCaseKeys c;
  castToInt := castToInt c;
  handleXMPPStreamTag := handleXMPPStreamTag c;
  decodeSimpleValuesAsMap := decodeSimpleValuesAsMap c; castNanInf := castNanInf c;
  castToFloat := castToFloat c; castToBool := castToBool c;
  checkTagToSkip := checkTagToSkip c;
  useGoXmlEmptyElemSyntax := useGoXmlEmptyElemSyntax c;
  xmlCheckIsValid := true; xmlEscapeChars := xmlEscapeChars c;
  xmlEscapeCharsDecoder := xmlEscapeCharsDecoder c |}.

(* ================================================================== *)
(** ** Notions used in the statements *)

(** A decoder that will deliver the tokens [l] and then report [fl]. *)
Definition stream (l : list Token) (fl : option string) : Decoder :=
  {| pending := l; failure := fl |}.

(** "[a] is not after [b]", by the keys. *)
Definition keyLe {A : Type} (key : A -> string) (a b : A) : Prop :=
  stringLe (key a) (key b) = true.

Section Notions.
Context {E : Externals}.
Variable c : Config.

(** A call leaves no more tokens than it found. *)
Definition shorter (p : Decoder) (o : outcome) : Prop :=
  match o with
  | Returns _ _ p' => (length (pending p') <= length (pending p))%nat
  | _ => True
  end.

(** The variable [n] of a call for the key [skey]: still empty, or
    holding the element's own scalar under [skey]. *)
Definition ownValue (skey : string) (n : option gomap) : Prop :=
  n = Some [] \/ exists v, n = Some [(skey, v)] /\ isList v = false.

(** The variables [n] and [na]: nil in the call with the empty key,
    allocated in the others. *)
Definition frame (skey : string) (n na : option gomap) : Prop :=
  if skey =? "" then n = None /\ na = None
  else ownValue skey n /\ na <> None.

(** What a call for [skey] on [p] may return: a one-entry map and no
    error, or no map and the error of the token stream. *)
Definition wellFormedResult (skey : string) (p : Decoder) (o : outcome) : Prop :=
  match o with
  | Returns (Some m) None p' =>
      (exists k v, m = [(k, v)] /\ isList v = false /\ (skey <> "" -> k = skey))
      /\ failure p' = failure p
  | Returns None (Some e) p' =>
      e = tokenError (failure p) /\ pending p' = [] /\ failure p' = failure p
  | Returns _ _ _ => False
  | _ => True
  end.

(** What the parser is to return for the result [res] of [decodeElement]. *)
Definition returned (res : option gomap) (p : Decoder) : outcome :=
  match res with
  | Some n => Returns (Some n) None p
  | None => Panics
  end.

(** The parser agrees with [decodeElement] on the element [x], from some
    fuel on. *)
Definition decodes (r : bool) (x : xml) : Prop :=
  match x with
  | Element l a inner =>
      forall rest fl, exists fuel0, forall fuel, (fuel0 <= fuel)%nat ->
        xmlToMapParser c fuel l a
          (stream (flat_map tokens inner ++ EndElement l :: rest) fl) r
        = returned (decodeElement c r x) (stream rest fl)
  | _ => True
  end.

(** The entry of a key after one more child: the step of [addChild]. *)
Definition promoteStep (old : option any) (val : any) : any :=
  match old with
  | None => val
  | Some (VList a) => VList (a ++ [val])
  | Some v => VList [v; val]
  end.

Definition merged (old : option any) (vals : list any) : option any :=
  fold_left (fun acc val => Some (promoteStep acc val)) vals old.

(** A child element decodes to one entry under its normalised name, and
    its value is not a list. *)
Definition childOK (r : bool) (x : xml) : Prop :=
  match x with
  | Element l a inner =>
      exists v, decodeElement c r x = Some [(normKey c l, v)] /\ isList v = false
  | _ => True
  end.

(** The children of a map, as the loop over [elemlist] gets them. *)
Definition elemCalls (doIndent : bool) (vv : gomap)
  : list (string * (any * (string -> pretty -> Emit))) :=
  sortBy elemLess
    (scanElems c
       (map (fun kv => (fst kv, (snd kv, marshalMapToXmlIndent c doIndent (snd kv)))) vv)).

(** The text written for a list of attributes, in the order of the list. *)
Definition attrsText (attrlist : list (string * string)) : string :=
  fold_right (fun v rest => " " ++ fst v ++ "=" ++ dquote ++ snd v ++ dquote ++ rest)
    "" attrlist.

(** The types the specification allows for the value of an attribute:
    string, byte slice, boolean, integer, float. *)
Definition scalarKind (v : any) : bool :=
  match v with
  | VString _ | VBytes _ | VBool _ | VInt _ | VInt64 _ | VUint64 _ | VFloat64 _
  | VNumber _ => true
  | _ => false
  end.

(** [value] holds, where the encoder comes to it, a map with an attribute
    entry of a type that is not allowed: in the map itself, in the value of
    one of its child entries, or in a member of a list; a map of another
    type holds what its copy holds. *)
Inductive badAttr : any -> Prop :=
| bad_here (vv : gomap) (k : string) (v : any) :
    In (k, v) vv -> isAttrKey c k = true -> scalarKind v = false -> badAttr (VMap vv)
| bad_child (vv : gomap) (k : string) (v : any) :
    In (k, v) vv -> isElemKey c k = true -> badAttr v -> badAttr (VMap vv)
| bad_member (l : list any) (v : any) :
    In v l -> badAttr v -> badAttr (VList l)
| bad_copy (vv : gomap) :
    badAttr (VMap vv) -> badAttr (VMapOf vv).

(** [m] returns an error, whatever the buffer holds. *)
Definition fails (m : Emit) : Prop := forall b, exists e, snd (m b) = Some e.

(** Content that leaves an element empty: character data that trims to
    nothing, comments and the like. *)
Definition blank (x : xml) : bool :=
  match x with
  | Text data => (GoStrings.len (charData c data) =? 0)%nat
  | Misc => true
  | Element _ _ _ => false
  end.

End Notions.

(* ================================================================== *)
(** ** The functions that set the package variables *)

(** The argument [b ...bool] of the switches: no argument toggles, one
    argument sets, more leave the variable as it is. *)
Definition switched (b : list bool) (old : bool) : bool :=
  match b with
  | [] => negb old
  | [b0] => b0
  | _ => old
  end.

Definition IncludeTagSeqNum (b : list bool) (c : Config) : Config :=
  {| textK := textK c; attrPrefix := attrPrefix c;
     includeTagSeqNum := switched b (includeTagSeqNum c); lowerCase := lowerCase c;
     trimRunes := trimRunes c; snakeCaseKeys := snakeCaseKeys c; castToInt := castToInt c;
     handleXMPPStreamTag := handleXMPPStreamTag c;
     decodeSimpleValuesAsMap := decodeSimpleValuesAsMap c; castNanInf := castNanInf c;
     castToFloat := castToFloat c; castToBool := castToBool c;
     checkTagToSkip := checkTagToSkip c;
     useGoXmlEmptyElemSyntax := useGoXmlEmptyElemSyntax c;
     xmlCheckIsValid := xmlCheckIsValid c; xmlEscapeChars := xmlEscapeChars c;
     xmlEscapeCharsDecoder := xmlEscapeCharsDecoder c |}.

Definition CoerceKeysToLower (b : list bool) (c : Config) : Config :=
  {| textK := textK c; attrPrefix := attrPrefix c; includeTagSeqNum := includeTagSeqNum c;
     lowerCase := switched b (lowerCase c); trimRunes := trimRunes c;
     snakeCaseKeys := snakeCaseKeys c; castToInt := castToInt c;
     handleXMPPStreamTag := handleXMPPStreamTag c;
     decodeSimpleValuesAsMap := decodeSimpleValuesAsMap c; castNanInf := castNanInf c;
     castToFloat := castToFloat c; castToBool := castToBool c;
     checkTagToSkip := checkTagToSkip c;
     useGoXmlEmptyElemSyntax := useGoXmlEmptyElemSyntax c;
     xmlCheckIsValid := xmlCheckIsValid c; xmlEscapeChars := xmlEscapeChars c;
     xmlEscapeCharsDecoder := xmlEscapeCharsDecoder c |}.

Definition CastValuesToInt (b : list bool) (c : Config) : Config :=
  {| textK := textK c; attrPrefix := attrPrefix c; includeTagSeqNum := includeTagSeqNum c;
     lowerCase := lowerCase c; trimRunes := trimRunes c; snakeCaseKeys := snakeCaseKeys c;
     castToInt := switched b (castToInt c); handleXMPPStreamTag := handleXMPPStreamTag c;
     decodeSimpleValuesAsMap := decodeSimpleValuesAsMap c; castNanInf := castNanInf c;
     castToFloat := castToFloat c; castToBool := castToBool c;
     checkTagToSkip := checkTagToSkip c;
     useGoXmlEmptyElemSyntax := useGoXmlEmptyElemSyntax c;
     xmlCheckIsValid := xmlCheckIsValid c; xmlEscapeChars := xmlEscapeChars c;
     xmlEscapeCharsDecoder := xmlEscapeCharsDecoder c |}.

Definition HandleXMPPStreamTag (b : list bool) (c : Config) : Config :=
  {| textK := textK c; attrPrefix := attrPrefix c; includeTagSeqNum := includeTagSeqNum c;
     lowerCase := lowerCase c; trimRunes := trimRunes c; snakeCaseKeys := snakeCaseKeys c;
     castToInt := castToInt c; handleXMPPStreamTag := switched b (handleXMPPStreamTag c);
     decodeSimpleValuesAsMap := decodeSimpleValuesAsMap c; castNanInf := castNanInf c;
     castToFloat := castToFloat c; castToBool := castToBool c;
     checkTagToSkip := checkTagToSkip c;
     useGoXmlEmptyElemSyntax := useGoXmlEmptyElemSyntax c;
     xmlCheckIsValid := xmlCheckIsValid c; xmlEscapeChars := xmlEscapeChars c;
     xmlEscapeCharsDecoder := xmlEscapeCharsDecoder c |}.

Definition DecodeSimpleValuesAsMap (b : list bool) (c : Config) : Config :=
  {| textK := textK c; attrPrefix := attrPrefix c; includeTagSeqNum := includeTagSeqNum c;
     lowerCase := lowerCase c; trimRunes := trimRunes c; snakeCaseKeys := snakeCaseKeys c;
     castToInt := castToInt c; handleXMPPStreamTag := handleXMPPStreamTag c;
     decodeSimpleValuesAsMap := switched b (decodeSimpleValuesAsMap c);
     castNanInf := castNanInf c; castToFloat := castToFloat c; castToBool := castToBool c;
     checkTagToSkip := checkTagToSkip c;
     useGoXmlEmptyElemSyntax := useGoXmlEmptyElemSyntax c;
     xmlCheckIsValid := xmlCheckIsValid c; xmlEscapeChars := xmlEscapeChars c;
     xmlEscapeCharsDecoder := xmlEscapeCharsDecoder c |}.

Definition XmlGoEmptyElemSyntax (c : Config) : Config :=
  {| textK := textK c; attrPrefix := attrPrefix c; includeTagSeqNum := includeTagSeqNum c;
     lowerCase := lowerCase c; trimRunes := trimRunes c; snakeCaseKeys := snakeCaseKeys c;
     castToInt := castToInt c; handleXMPPStreamTag := handleXMPPStreamTag c;
     decodeSimpleValuesAsMap := decodeSimpleValuesAsMap c; castNanInf := castNanInf c;
     castToFloat := castToFloat c; castToBool := castToBool c;
     checkTagToSkip := checkTagToSkip c; useGoXmlEmptyElemSyntax := true;
     xmlCheckIsValid := xmlCheckIsValid c; xmlEscapeChars := xmlEscapeChars c;
     xmlEscapeCharsDecoder := xmlEscapeCharsDecoder c |}.

(** [SetAttrPrefix]; [lenAttrPrefix] follows [attrPrefix]. *)
Definition SetAttrPrefix (s : string) (c : Config) : Config :=
  {| textK := textK c; attrPrefix := s; includeTagSeqNum := includeTagSeqNum c;
     lowerCase := lowerCase c; trimRunes := trimRunes c; snakeCaseKeys := snakeCaseKeys c;
     castToInt := castToInt c; handleXMPPStreamTag := handleXMPPStreamTag c;
     decodeSimpleValuesAsMap := decodeSimpleValuesAsMap c; castNanInf := castNanInf c;
     castToFloat := castToFloat c; castToBool := castToBool c;
     checkTagToSkip := checkTagToSkip c;
     useGoXmlEmptyElemSyntax := useGoXmlEmptyElemSyntax c;
     xmlCheckIsValid := xmlCheckIsValid c; xmlEscapeChars := xmlEscapeChars c;
     xmlEscapeCharsDecoder := xmlEscapeCharsDecoder c |}.

Definition PrependAttrWithHyphen (v : bool) (c : Config) : Config :=
  {| textK := textK c; attrPrefix := if v then "-" else "";
     includeTagSeqNum := includeTagSeqNum c; lowerCase := lowerCase c;
     trimRunes := trimRunes c; snakeCaseKeys := snakeCaseKeys c; castToInt := castToInt c;
     handleXMPPStreamTag := handleXMPPStreamTag c;
     decodeSimpleValuesAsMap := decodeSimpleValuesAsMap c; castNanInf := castNanInf c;
     castToFloat := castToFloat c; castToBool := castToBool c;
     checkTagToSkip := checkTagToSkip c;
     useGoXmlEmptyElemSyntax := useGoXmlEmptyElemSyntax c;
     xmlCheckIsValid := xmlCheckIsValid c; xmlEscapeChars := xmlEscapeChars c;
     xmlEscapeCharsDecoder := xmlEscapeCharsDecoder c |}.

(** "\t\r\b\n" *)
Definition trimRunesNoSpace : string :=
  String (ascii_of_nat 9) (String (ascii_of_nat 13) (String (ascii_of_nat 8)
    (String (ascii_of_nat 10) EmptyString))).

(** [DisableTrimWhiteSpace]: [disableTrimWhiteSpace] is [true] without an
    argument and the first argument otherwise, and [trimRunes] is set by
    it. *)
Definition DisableTrimWhiteSpace (b : list bool) (c : Config) : Config :=
  let disableTrimWhiteSpace := match b with [] => true | b0 :: _ => b0 end in
  {| textK := textK c; attrPrefix := attrPrefix c; includeTagSeqNum := includeTagSeqNum c;
     lowerCase := lowerCase c;
     trimRunes := if disableTrimWhiteSpace then trimRunesNoSpace
                  else defaultTrimRunes;
     snakeCaseKeys := snakeCaseKeys c; castToInt := castToInt c;
     handleXMPPStreamTag := handleXMPPStreamTag c;
     decodeSimpleValuesAsMap := decodeSimpleValuesAsMap c; castNanInf := castNanInf c;
     castToFloat := castToFloat c; castToBool := castToBool c;
     checkTagToSkip := checkTagToSkip c;
     useGoXmlEmptyElemSyntax := useGoXmlEmptyElemSyntax c;
     xmlCheckIsValid := xmlCheckIsValid c; xmlEscapeChars := xmlEscapeChars c;
     xmlEscapeCharsDecoder := xmlEscapeCharsDecoder c |}.


(* ================================================================== *)
(** ** Further notions *)

Section MoreNotions.
Context {E : Externals}.
Variable c : Config.

(** A token that the outermost call passes over: a comment or the like,
    character data that trims to nothing, and any character data unless
    [decodeSimpleValuesAsMap] is set. *)
Definition passedOver (t : Token) : bool :=
  match t with
  | OtherToken => true
  | CharData data =>
      (GoStrings.len (charData c data) =? 0)%nat || negb (decodeSimpleValuesAsMap c)
  | _ => false
  end.

(** The last attribute of [a] that is stored under the key [k]. *)
Definition lastAttr (k : string) (a : list Attr) : option Attr :=
  find (fun v => attrKey c v =? k) (rev a).

(** The last character data of [content] that does not trim to nothing,
    trimmed; [cur] is the one found before [content]. *)
Definition lastTextFrom (cur : option string) (content : list xml) : option string :=
  fold_left (fun cur x =>
               match x with
               | Text data =>
                   if (0 <? GoStrings.len (charData c data))%nat then Some (charData c data)
                   else cur
               | _ => cur
               end) content cur.

Definition lastText (content : list xml) : option string := lastTextFrom None content.

(** [content] holds no element. *)
Definition noElements (content : list xml) : bool :=
  forallb (fun x => match x with Element _ _ _ => false | _ => true end) content.

(** One document of a stream: an element, all its elements named. *)
Definition document (x : xml) : bool :=
  match x with
  | Element _ _ _ => named x
  | _ => false
  end.

End MoreNotions.




(** What the calls of [calls] write, each into an empty buffer, one text
    after the other in the order of the list: the call for a list is made
    with [p], any other with [p] indented by one step when [doIndent]. *)
Fixpoint childrenText {E : Externals} (doIndent : bool)
  (calls : list (string * (any * (string -> pretty -> Emit)))) (p : pretty) : string :=
  match calls with
  | [] => ""
  | (k, (v, m)) :: rest =>
      fst (m k (if negb (isList v) && doIndent then Indent p else p) "")
      ++ childrenText doIndent rest p
  end.

(** No byte of [s] is in [cutset]. *)
Definition freeOf (cutset s : string) : bool :=
  forallb (fun ch => negb (GoStrings.byte_in ch cutset)) (list_ascii_of_string s).

(** The strings that [strconv.ParseBool] reads behind the screen of [cast]. *)
Definition boolWords (b : bool) : list string :=
  if b then ["t"; "T"; "TRUE"; "true"; "True"] else ["f"; "F"; "FALSE"; "false"; "False"].


Section MoreEncoderNotions.
Context {E : Externals}.
Variable c : Config.

(** [m] appends to the buffer: what it writes and what it returns do not
    depend on what the buffer holds. *)
Definition appends (m : Emit) : Prop :=
  forall b, m b = (b ++ fst (m ""), snd (m "")).

(** [m] returns nil, whatever the buffer holds. *)
Definition succeeds (m : Emit) : Prop := forall b, snd (m b) = None.

(** The types of [v] that the encoder writes as the value of an attribute. *)
Definition attrValueOK (v : any) : bool :=
  match v with
  | VString _ | VBytes _ | VFloat64 _ | VBool _ | VInt _ | VInt64 _ | VNumber _ => true
  | _ => false
  end.

(** [value] holds nothing that the encoder rejects where it comes to it:
    the entries under attribute keys are of the types of attributes, the
    entries under the keys of child elements and the members of lists hold
    nothing rejected in turn, and no struct is one that [xml.Marshal]
    fails on. *)
Fixpoint encodable (value : any) : bool :=
  match value with
  | VMap vv | VMapOf vv =>
      forallb (fun kv => if isAttrKey c (fst kv) then attrValueOK (snd kv)
                         else (fst kv =? textK c) || encodable (snd kv)) vv
  | VList l => forallb encodable l
  | VStruct (inr _) => false
  | _ => true
  end.

End MoreEncoderNotions.


Section DecodedShape.
Context {E : Externals}.

(** A check of a value with the key it is stored under, and of what it
    holds: values that are neither maps nor lists are to satisfy [leaf]
    with their keys, and the keys that maps and lists are stored under, and
    their members with them, are to satisfy [mapOK]. *)
Section Shaped.
Variable leaf : string -> any -> bool.
Variable mapOK : string -> bool.

Fixpoint shaped (k : string) (v : any) : bool :=
  match v with
  | VMap m => mapOK k && forallb (fun kv => shaped (fst kv) (snd kv)) m
  | VList l => mapOK k && forallb (shaped k) l
  | _ => leaf k v
  end.

End Shaped.

(** The names of the elements of [x] satisfy [nameOK] and their
    attributes [attrOK]. *)
Fixpoint everywhere (nameOK : string -> bool) (attrOK : Attr -> bool) (x : xml) : bool :=
  match x with
  | Element local attr content =>
      nameOK local && forallb attrOK attr && forallb (everywhere nameOK attrOK) content
  | _ => true
  end.

(** The dynamic types of the values that the decoder stores, maps and
    lists apart: strings; with the cast [r], booleans, [int64], [uint64] and
    [float64]; and [int] under the key "_seq". *)
Definition decodedLeaf (r : bool) (k : string) (v : any) : bool :=
  match v with
  | VString _ => true
  | VBool _ | VInt64 _ | VUint64 _ | VFloat64 _ => r
  | VInt _ => k =? "_seq"
  | _ => false
  end.

(** [s] has no byte 'A' to 'Z'. *)
Definition isLower (s : string) : bool :=
  forallb (fun ch => negb ((65 <=? nat_of_ascii ch)%nat && (nat_of_ascii ch <=? 90)%nat))
    (list_ascii_of_string s).

(** The keys of the child elements of [content], in the order of the
    document. *)
Fixpoint childKeys (c : Config) (content : list xml) : list string :=
  match content with
  | [] => []
  | Element local _ _ :: rest => normKey c local :: childKeys c rest
  | _ :: rest => childKeys c rest
  end.

(** The places of [k] in [ks], counted from [s], as [_seq] entries. *)
Fixpoint seqsAt (k : string) (ks : list string) (s : Z) : list (option any) :=
  match ks with
  | [] => []
  | k' :: rest =>
      if k' =? k then Some (VInt s) :: seqsAt k rest (s + 1) else seqsAt k rest (s + 1)
  end.

(** The values of an entry of a decoded map: the members of a list, and a
    value that is no list by itself. *)
Definition members (v : option any) : list any :=
  match v with
  | Some (VList l) => l
  | Some v => [v]
  | None => []
  end.

(** The [_seq] entry of a value. *)
Definition seqOf (v : any) : option any :=
  match v with
  | VMap m => mapGet "_seq" m
  | _ => None
  end.

End DecodedShape.


(* ================================================================== *)
(** ** NewMapXml and SetGlobalKeyMapPrefix *)

(** The argument [cast ...bool]: it counts when it is the only one. *)
Definition castArg (cast : list bool) : bool :=
  match cast with
  | [b] => b
  | _ => false
  end.

(** [NewMapXml(xmlVal, cast...)], on the decoder of [xmlVal]. *)
Definition NewMapXml {E : Externals} (c : Config) (xmlVal : Decoder) (cast : list bool)
  : outcome :=
  xmlToMap c xmlVal (castArg cast).

(** The keys of the package that [xml.go] declares and does not read. *)
Record MapKeys := {
  seqK : string;
  commentK : string;
  attrK : string;
  directiveK : string;
  procinstK : string;
  targetK : string;
  instK : string;
}.

Definition defaultKeys : MapKeys := {|
  seqK := "#seq";
  commentK := "#comment";
  attrK := "#attr";
  directiveK := "#directive";
  procinstK := "#procinst";
  targetK := "#target";
  instK := "#inst";
|}.

(** [strings.ReplaceAll(k, old, s)] for a one-byte [old]. *)
Fixpoint replaceByte (old : ascii) (s k : string) : string :=
  match k with
  | EmptyString => EmptyString
  | String ch rest =>
      (if Ascii.eqb ch old then s else String ch EmptyString) ++ replaceByte old s rest
  end.

(** [strings.ReplaceAll(k, k[0:1], s)]; the slice panics on the empty
    string. *)
Definition rePrefix (s k : string) : option string :=
  match k with
  | EmptyString => None
  | String ch _ => Some (replaceByte ch s k)
  end.

(** [SetGlobalKeyMapPrefix(s)]; [None] when it panics. *)
Definition SetGlobalKeyMapPrefix (s : string) (st : Config * MapKeys)
  : option (Config * MapKeys) :=
  let (c, ks) := st in
  match rePrefix s (textK c) with None => None | Some textK' =>
  match rePrefix s (seqK ks) with None => None | Some seqK' =>
  match rePrefix s (commentK ks) with None => None | Some commentK' =>
  match rePrefix s (directiveK ks) with None => None | Some directiveK' =>
  match rePrefix s (procinstK ks) with None => None | Some procinstK' =>
  match rePrefix s (targetK ks) with None => None | Some targetK' =>
  match rePrefix s (instK ks) with None => None | Some instK' =>
  match rePrefix s (attrK ks) with None => None | Some attrK' =>
    Some ({| textK := textK'; attrPrefix := attrPrefix c;
             includeTagSeqNum := includeTagSeqNum c; lowerCase := lowerCase c;
             trimRunes := trimRunes c; snakeCaseKeys := snakeCaseKeys c;
             castToInt := castToInt c; handleXMPPStreamTag := handleXMPPStreamTag c;
             decodeSimpleValuesAsMap := decodeSimpleValuesAsMap c;
             castNanInf := castNanInf c; castToFloat := castToFloat c;
             castToBool := castToBool c; checkTagToSkip := checkTagToSkip c;
             useGoXmlEmptyElemSyntax := useGoXmlEmptyElemSyntax c;
             xmlCheckIsValid := xmlCheckIsValid c; xmlEscapeChars := xmlEscapeChars c;
             xmlEscapeCharsDecoder := xmlEscapeCharsDecoder c |},
          {| seqK := seqK'; commentK := commentK'; attrK := attrK';
             directiveK := directiveK'; procinstK := procinstK'; targetK := targetK';
             instK := instK' |})
  end end end end end end end end.


(* ================================================================== *)
(** * Properties *)

(** ** The caster *)

Section CastFacts.
Context {E : Externals}.

Lemma cast_disabled (c : Config) (s t : string) : cast c s false t = VString s.
Proof. unfold cast. destruct (skipTag c t); reflexivity. Qed.

Lemma cast_skipped (c : Config) (s t : string) (r : bool) :
  skipTag c t = true -> cast c s r t = VString s.
Proof. unfold cast. intros ->. reflexivity. Qed.

Lemma castBool_screen (c : Config) (s : string) :
  castBool c s =
  match (if castToBool c && (1 <=? GoStrings.len s)%nat && (GoStrings.len s <=? 5)%nat
            && boolScreen s
         then option_map VBool (Strconv.ParseBool s) else None) with
  | Some v => v
  | None => VString s
  end.
Proof.
  unfold castBool.
  assert (H0 : (0 <? GoStrings.len s)%nat = (1 <=? GoStrings.len s)%nat)
    by (destruct (GoStrings.len s); reflexivity).
  assert (H6 : (GoStrings.len s <? 6)%nat = (GoStrings.len s <=? 5)%nat)
    by (destruct (Nat.leb_spec (GoStrings.len s) 5), (Nat.ltb_spec (GoStrings.len s) 6);
        (reflexivity || lia)).
  rewrite H0, H6.
  destruct (castToBool c), (1 <=? GoStrings.len s)%nat, (GoStrings.len s <=? 5)%nat,
    (boolScreen s); cbn [andb]; try reflexivity.
  destruct (Strconv.ParseBool s); reflexivity.
Qed.

(** The code and the specification's list of attempts agree. *)
Lemma cast_castBySpec (c : Config) (s t : string) :
  skipTag c t = false -> cast c s true t = castBySpec c s.
Proof.
  intros Hs. unfold cast, castBySpec, interpretations. rewrite Hs.
  destruct (negb (castNanInf c) && isNanInf s); [reflexivity|]. cbn [firstSuccess].
  unfold castNumeric, castFloat. rewrite castBool_screen.
  destruct (castToInt c).
  - destruct (Strconv.ParseInt s); [reflexivity|]. cbn [option_map firstSuccess].
    destruct (Strconv.ParseUint s); [reflexivity|]. cbn [option_map firstSuccess].
    destruct (castToFloat c); [destruct (ParseFloat s)|]; cbn [option_map firstSuccess];
      try reflexivity;
      destruct (if castToBool c && _ && _ && _ then _ else _); reflexivity.
  - cbn [firstSuccess].
    destruct (castToFloat c); [destruct (ParseFloat s)|]; cbn [option_map firstSuccess];
      try reflexivity;
      destruct (if castToBool c && _ && _ && _ then _ else _); reflexivity.
Qed.

(** "1" is a boolean under no policy. *)
Lemma cast_one_not_bool (c : Config) (r : bool) (t : string) (b : bool) :
  cast c "1" r t <> VBool b.
Proof.
  unfold cast. destruct (skipTag c t); [discriminate|].
  destruct r; [|discriminate].
  destruct (negb (castNanInf c) && isNanInf "1"); [discriminate|].
  unfold castNumeric, castFloat, castBool.
  change (Strconv.ParseInt "1") with (Some 1%Z).
  destruct (castToInt c); [discriminate|].
  destruct (castToFloat c); [destruct (ParseFloat "1"); [discriminate|]|];
    destruct (castToBool c); discriminate.
Qed.

(** With [castToInt], "00123" is the [int64] 123: leading zeros do not
    stop [strconv.ParseInt]. *)
Lemma cast_00123_castToInt (t : string) :
  cast (withCastToInt defaults) "00123" true t = VInt64 123.
Proof. reflexivity. Qed.

End CastFacts.

(** C3.  With casting on and no tag skipped, [cast] is the first success
    among: the NaN/Inf screen, int64 then uint64 (under [castToInt]), float64,
    bool (for 1 to 5 bytes of which the first is t, T, f or F), and the
    string itself when all of them fail.  "1" is never a boolean and, by
    default, is the float64 of [ParseFloat]; "true", which [ParseFloat]
    does not accept, is the boolean true. *)
Theorem cast_order_and_determinism {E : Externals} (c : Config) (s t : string) (one : float64)
  (Hskip : skipTag c t = false)
  (Hone : ParseFloat "1" = Some one)
  (Htrue : ParseFloat "true" = None) :
  cast c s true t = castBySpec c s
  /\ (Forall (fun i => i = None) (interpretations c s) -> cast c s true t = VString s)
  /\ (forall r b, cast c "1" r t <> VBool b)
  /\ cast defaults "1" true t = VFloat64 one
  /\ cast (withCastToInt defaults) "1" true t = VInt64 1
  /\ cast defaults "true" true t = VBool true
  /\ cast (withCastToInt defaults) "true" true t = VBool true.
Proof.
  split; [apply cast_castBySpec; exact Hskip|].
  split.
  { intros Hall. rewrite (cast_castBySpec c s t Hskip). unfold castBySpec.
    induction Hall as [|i l Hi _ IH]; [reflexivity|]. subst i. exact IH. }
  split; [intros r b; apply cast_one_not_bool|].
  split; [unfold cast, castNumeric, castFloat; cbn; rewrite Hone; reflexivity|].
  split; [reflexivity|].
  split; unfold cast, castNumeric, castFloat; cbn; rewrite Htrue; reflexivity.
Qed.

Lemma cast_order_and_determinism_witness :
  cast defaults "x1" true "k" = castBySpec defaults "x1"
  /\ cast defaults "1" true "k" = VFloat64 1%Z
  /\ cast defaults "true" true "k" = VBool true.
Proof.
  destruct (@cast_order_and_determinism exampleExternals defaults "x1" "k" 1%Z
              eq_refl eq_refl eq_refl) as (H1 & _ & _ & H4 & _ & H6 & _).
  exact (conj H1 (conj H4 H6)).
Defined.

(** ** Maps *)

Section MapFacts.
Context {E : Externals}.

Lemma mapGet_mapSet_same (k : string) (v : any) (m : gomap) :
  mapGet k (mapSet k v m) = Some v.
Proof.
  induction m as [|[k' v'] m IH]; simpl.
  - rewrite String.eqb_refl. reflexivity.
  - destruct (k' =? k) eqn:Hk; simpl.
    + rewrite String.eqb_refl. reflexivity.
    + rewrite Hk. exact IH.
Qed.

Lemma mapGet_mapSet_other (k k0 : string) (v : any) (m : gomap) :
  k <> k0 -> mapGet k0 (mapSet k v m) = mapGet k0 m.
Proof.
  intros Hne. induction m as [|[k' v'] m IH]; simpl.
  - destruct (String.eqb_spec k k0); [contradiction|reflexivity].
  - destruct (String.eqb_spec k' k); simpl.
    + subst k'. destruct (String.eqb_spec k k0); [contradiction|reflexivity].
    + destruct (k' =? k0); [reflexivity|exact IH].
Qed.

Lemma mapGet_None_keys (k : string) (m : gomap) :
  mapGet k m = None <-> ~ In k (keys m).
Proof.
  induction m as [|[k' v'] m IH]; simpl.
  - split; [intros _ []|reflexivity].
  - destruct (String.eqb_spec k' k).
    + split; [discriminate|]. intros H. exfalso. apply H. left. assumption.
    + rewrite IH. split; [intros H [->|H1]; [congruence|auto]|intros H H1; apply H; auto].
Qed.

Lemma mapGet_In (k : string) (v : any) (m : gomap) :
  NoDup (keys m) -> In (k, v) m -> mapGet k m = Some v.
Proof.
  induction m as [|[k' v'] m IH]; simpl; [intros _ []|].
  intros Hnd [Heq|Hin]; inversion Hnd as [|? ? Hnotin Hnd']; subst.
  - inversion Heq; subst. rewrite String.eqb_refl. reflexivity.
  - destruct (String.eqb_spec k' k).
    + subst k'. exfalso. apply Hnotin. change k with (fst (k, v)). apply in_map. exact Hin.
    + apply IH; assumption.
Qed.

Lemma keys_mapSet_In (k : string) (v : any) (m : gomap) :
  In k (keys m) -> keys (mapSet k v m) = keys m.
Proof.
  induction m as [|[k' v'] m IH]; simpl; [intros []|].
  destruct (String.eqb_spec k' k); simpl.
  - intros _. congruence.
  - intros [H|H]; [contradiction|]. rewrite IH; auto.
Qed.

Lemma keys_mapSet_notIn (k : string) (v : any) (m : gomap) :
  ~ In k (keys m) -> keys (mapSet k v m) = (keys m ++ [k])%list.
Proof.
  induction m as [|[k' v'] m IH]; simpl; [reflexivity|].
  intros H. destruct (String.eqb_spec k' k); [exfalso; apply H; auto|].
  simpl. rewrite IH; auto.
Qed.

(** Assignment keeps the keys of a map distinct. *)
Lemma NoDup_mapSet (k : string) (v : any) (m : gomap) :
  NoDup (keys m) -> NoDup (keys (mapSet k v m)).
Proof.
  intros Hnd. destruct (in_dec string_dec k (keys m)) as [Hin|Hnin].
  - rewrite keys_mapSet_In; assumption.
  - rewrite keys_mapSet_notIn by assumption.
    apply NoDup_app; [assumption|repeat constructor; intros []|].
    intros x Hx [<-|[]]. contradiction.
Qed.

Lemma mapSet_length (k : string) (v : any) (m : gomap) :
  (0 < length (mapSet k v m))%nat.
Proof. destruct m as [|[k' v'] m]; simpl; [lia|]. destruct (k' =? k); simpl; lia. Qed.

End MapFacts.

(** ** The parser: termination and the shape of its results *)

Section ParserFacts.
Context {E : Externals}.
Variable c : Config.

Lemma xmlToMapParser_S (fuel : nat) (skey : string) (a : list Attr) (p : Decoder) (r : bool) :
  xmlToMapParser c (S fuel) skey a p r =
  let skey := normKey c skey in
  let n : option gomap := if skey =? "" then None else Some [] in
  let na : option gomap := if skey =? "" then None else Some (loadAttrs c a r []) in
  if handleXMPPStreamTag c && (skey =? "stream") then
    match assign n skey (VMap (match na with Some l => l | None => [] end)) with
    | Some n' => Returns (Some n') None p
    | None => Panics
    end
  else parseTokens c fuel skey n na 0%Z p r.
Proof. reflexivity. Qed.

Lemma parseTokens_S (fuel : nat) (skey : string) (n na : option gomap) (seq : Z)
  (p : Decoder) (r : bool) :
  parseTokens c (S fuel) skey n na seq p r =
  match nextToken p with
  | inr err => Returns None (Some (tokenError err)) p
  | inl (StartElement local attr, p) =>
      if skey =? "" then xmlToMapParser c fuel local attr p r
      else
        match xmlToMapParser c fuel local attr p r with
        | Returns nn (Some err) p => Returns None (Some err) p
        | Returns nn None p =>
            let (key, val) := firstEntry nn in
            let (val, seq) := tagSeq c val seq in
            match addChild na key val with
            | Some na' => parseTokens c fuel skey n (Some na') seq p r
            | None => Panics
            end
        | Panics => Panics
        | OutOfFuel => OutOfFuel
        end
  | inl (EndElement _, p) =>
      match endElement c skey n na with
      | Some n' => Returns (Some n') None p
      | None => Panics
      end
  | inl (CharData data, p) =>
      let tt := charData c data in
      if (0 <? GoStrings.len tt)%nat then
        if (0 <? mlen na)%nat || decodeSimpleValuesAsMap c then
          match assign na (textK c) (cast c tt r (textK c)) with
          | Some na' => parseTokens c fuel skey n (Some na') seq p r
          | None => Panics
          end
        else if negb (skey =? "") then
          match assign n skey (cast c tt r skey) with
          | Some n' => parseTokens c fuel skey (Some n') na seq p r
          | None => Panics
          end
        else parseTokens c fuel skey n na seq p r
      else parseTokens c fuel skey n na seq p r
  | inl (OtherToken, p) => parseTokens c fuel skey n na seq p r
  end.
Proof. reflexivity. Qed.

Lemma nextToken_length (p p' : Decoder) (t : Token) :
  nextToken p = inl (t, p') ->
  pending p = t :: pending p' /\ failure p' = failure p.
Proof.
  unfold nextToken. destruct (pending p) as [|t0 rest] eqn:Hp; [discriminate|].
  intros H. inversion H; subst. simpl. auto.
Qed.

Lemma nextToken_end (p : Decoder) (err : option string) :
  nextToken p = inr err -> pending p = [] /\ err = failure p.
Proof.
  unfold nextToken. destruct (pending p); [|discriminate].
  intros H. inversion H. auto.
Qed.

Lemma shorter_trans (p p' : Decoder) (o : outcome) :
  (length (pending p') <= length (pending p))%nat -> shorter p' o -> shorter p o.
Proof. destruct o; simpl; auto. lia. Qed.

Lemma parser_total (fuel : nat) :
  (forall skey a p r,
      shorter p (xmlToMapParser c fuel skey a p r)
      /\ ((2 * length (pending p) + 2 <= fuel)%nat ->
          xmlToMapParser c fuel skey a p r <> OutOfFuel))
  /\ (forall skey n na seq p r,
      shorter p (parseTokens c fuel skey n na seq p r)
      /\ ((2 * length (pending p) + 1 <= fuel)%nat ->
          parseTokens c fuel skey n na seq p r <> OutOfFuel)).
Proof.
  induction fuel as [|fuel [IHp IHl]].
  { split; intros; (split; [exact I|simpl; lia]). }
  split.
  - intros skey a p r. rewrite xmlToMapParser_S. cbv zeta.
    destruct (handleXMPPStreamTag c && (normKey c skey =? "")%string);
      destruct (handleXMPPStreamTag c && (normKey c skey =? "stream")).
    all: try (destruct (assign _ _ _); split; simpl; (lia || discriminate || exact I)).
    all: split; [apply IHl|intros H; apply IHl; lia].
  - intros skey n na seq p r. rewrite parseTokens_S.
    destruct (nextToken p) as [[t p']|err] eqn:Hn.
    2:{ split; simpl; [lia|discriminate]. }
    apply nextToken_length in Hn. destruct Hn as [Hp _].
    assert (Hlen : length (pending p) = S (length (pending p'))) by (rewrite Hp; reflexivity).
    assert (Hloop : forall n na seq,
               shorter p (parseTokens c fuel skey n na seq p' r)
               /\ ((2 * length (pending p) + 1 <= S fuel)%nat ->
                   parseTokens c fuel skey n na seq p' r <> OutOfFuel)).
    { intros n0 na0 seq0. split.
      - apply shorter_trans with p'; [lia|apply IHl].
      - intros H. apply IHl. lia. }
    destruct t as [local attr| |data|].
    + destruct (skey =? "").
      * split; [apply shorter_trans with p'; [lia|apply IHp]|intros H; apply IHp; lia].
      * generalize (IHp local attr p' r).
        destruct (xmlToMapParser c fuel local attr p' r) as [nn [err|] p''| |];
          intros [Hs Hf].
        -- split; simpl in *; [lia|discriminate].
        -- destruct (firstEntry nn) as [key val]. destruct (tagSeq c val seq) as [val' seq'].
           destruct (addChild na key val'); [|split; [exact I|discriminate]].
           simpl in Hs. split.
           ++ apply shorter_trans with p''; [lia|apply IHl].
           ++ intros H. apply IHl. lia.
        -- split; [exact I|discriminate].
        -- split; [exact I|]. intros H _. apply Hf; [lia|reflexivity].
    + destruct (endElement c skey n na); split; simpl; (lia || discriminate || exact I).
    + cbv zeta. destruct (0 <? GoStrings.len (charData c data))%nat; [|apply Hloop].
      destruct ((0 <? mlen na)%nat || decodeSimpleValuesAsMap c).
      * destruct (assign na _ _); [apply Hloop|split; [exact I|discriminate]].
      * destruct (negb (skey =? "")); [|apply Hloop].
        destruct (assign n _ _); [apply Hloop|split; [exact I|discriminate]].
    + apply Hloop.
Qed.

(** [xmlToMap] always ends: it returns or it panics. *)
Lemma xmlToMap_ends (p : Decoder) (r : bool) : xmlToMap c p r <> OutOfFuel.
Proof. unfold xmlToMap, fuelFor. apply parser_total. lia. Qed.

End ParserFacts.

Section ParserShape.
Context {E : Externals}.
Variable c : Config.

Lemma cast_not_list (s t : string) (r : bool) : isList (cast c s r t) = false.
Proof.
  unfold cast, castNumeric, castFloat, castBool.
  repeat match goal with
         | |- context [if ?b then _ else _] => destruct b
         | |- context [match ?x with Some _ => _ | None => _ end] => destruct x
         end; reflexivity.
Qed.

Lemma wellFormedResult_step (skey skey' : string) (p p' : Decoder) (o : outcome) :
  failure p' = failure p -> (skey <> "" -> skey' = skey) ->
  wellFormedResult skey' p' o -> wellFormedResult skey p o.
Proof.
  intros Hf Hk. destruct o as [[m|] [e|] p''| |]; simpl; auto.
  - intros [(k & v & -> & Hv & Hkey) Hf']. split; [|congruence].
    exists k, v. repeat split; auto. intros H.
    pose proof (Hk H) as Hk'. subst skey'. auto.
  - rewrite Hf. auto.
Qed.

Lemma endElement_shape (skey : string) (n na : option gomap) (n' : gomap) :
  frame skey n na -> endElement c skey n na = Some n' ->
  skey <> "" /\ exists v, n' = [(skey, v)] /\ isList v = false.
Proof.
  unfold frame, endElement. destruct (String.eqb_spec skey "") as [->|Hne].
  - intros [-> ->]. simpl. discriminate.
  - intros [[->|(v & -> & Hv)] Hna] H; split; auto.
    + simpl in H. destruct (0 <? mlen na)%nat; inversion H; eexists; split; reflexivity.
    + simpl in H. destruct (0 <? mlen na)%nat.
      * destruct (assign na (textK c) v) as [na'|]; [|discriminate].
        simpl in H. rewrite String.eqb_refl in H. inversion H.
        eexists; split; reflexivity.
      * inversion H. exists v. auto.
Qed.

Lemma frame_addChild (skey key : string) (n na : option gomap) (val : any) (na' : gomap) :
  frame skey n na -> skey <> "" -> addChild na key val = Some na' ->
  frame skey n (Some na').
Proof.
  unfold frame. destruct (String.eqb_spec skey ""); [contradiction|].
  intros [Hn _] _ _. split; [assumption|discriminate].
Qed.

Lemma frame_text (skey : string) (n na : option gomap) (v : any) (na' : gomap) :
  frame skey n na -> assign na (textK c) v = Some na' -> frame skey n (Some na').
Proof.
  unfold frame. destruct (String.eqb_spec skey "").
  - intros [_ ->]. discriminate.
  - intros [Hn _] _. split; [assumption|discriminate].
Qed.

Lemma frame_own (skey : string) (n na : option gomap) (v : any) (n' : gomap) :
  frame skey n na -> isList v = false -> assign n skey v = Some n' ->
  frame skey (Some n') na.
Proof.
  unfold frame. destruct (String.eqb_spec skey "").
  - intros [-> _] _. discriminate.
  - intros [[->|(v0 & -> & _)] Hna] Hv H; simpl in H; split; auto.
    + inversion H. right. eauto.
    + rewrite String.eqb_refl in H. inversion H. right. eauto.
Qed.

Lemma parser_shape (fuel : nat) :
  (forall skey a p r,
      wellFormedResult (normKey c skey) p (xmlToMapParser c fuel skey a p r))
  /\ (forall skey n na seq p r,
      frame skey n na ->
      wellFormedResult skey p (parseTokens c fuel skey n na seq p r)).
Proof.
  induction fuel as [|fuel [IHp IHl]]; [split; intros; exact I|].
  split.
  - intros skey a p r. rewrite xmlToMapParser_S. cbv zeta.
    destruct (String.eqb_spec (normKey c skey) "") as [He|Hne].
    + destruct (handleXMPPStreamTag c && (normKey c skey =? "stream")); [exact I|].
      apply IHl. unfold frame. rewrite He. simpl. auto.
    + destruct (handleXMPPStreamTag c && (normKey c skey =? "stream")).
      * simpl. split; [|reflexivity]. eexists _, _. repeat split. 
      * apply IHl. unfold frame. destruct (String.eqb_spec (normKey c skey) "");
          [contradiction|]. split; [left; reflexivity|discriminate].
  - intros skey n na seq p r Hfr. rewrite parseTokens_S.
    destruct (nextToken p) as [[t p']|err] eqn:Hn.
    2:{ apply nextToken_end in Hn. destruct Hn as [Hp ->]. simpl. auto. }
    apply nextToken_length in Hn. destruct Hn as [_ Hf].
    assert (Hloop : forall n na seq, frame skey n na ->
              wellFormedResult skey p (parseTokens c fuel skey n na seq p' r)).
    { intros. apply wellFormedResult_step with skey p'; auto. }
    destruct t as [local attr| |data|].
    + destruct (String.eqb_spec skey "") as [He|Hne].
      * apply wellFormedResult_step with (normKey c local) p'; auto.
        intros H; contradiction.
      * generalize (IHp local attr p' r).
        destruct (xmlToMapParser c fuel local attr p' r) as [[m|] [err|] p''| |];
          simpl; auto; try contradiction.
        -- intros [(k & v & -> & Hv & _) Hf'']. simpl.
           destruct (tagSeq c v seq) as [val' seq'].
           destruct (addChild na k val') as [na'|] eqn:Ha; [|exact I].
           apply wellFormedResult_step with skey p''; [congruence|auto|].
           apply IHl. eapply frame_addChild; eauto.
        -- intros (-> & Hp'' & Hf''). repeat split; congruence.
    + destruct (endElement c skey n na) as [n'|] eqn:He; [|exact I].
      destruct (endElement_shape _ _ _ _ Hfr He) as (Hne & v & -> & Hv).
      simpl. split; [|assumption]. exists skey, v. auto.
    + cbv zeta. destruct (0 <? GoStrings.len (charData c data))%nat; [|auto].
      destruct ((0 <? mlen na)%nat || decodeSimpleValuesAsMap c).
      * destruct (assign na _ _) as [na'|] eqn:Ha; [|exact I].
        apply Hloop. eapply frame_text; eauto.
      * destruct (negb (skey =? "")); [|auto].
        destruct (assign n _ _) as [n'|] eqn:Ha; [|exact I].
        apply Hloop. eapply frame_own; eauto. apply cast_not_list.
    + auto.
Qed.

(** The key of a call is empty only in the outermost one: normalising a
    tag name does not empty it. *)
Lemma normKey_empty (skey : string) : normKey c skey = "" -> skey = "".
Proof.
  unfold normKey.
  assert (Hl : forall s, ToLower s = "" -> s = "").
  { intros s. unfold ToLower. destruct (GoStrings.isASCII s); [|apply mapToLower_nonempty].
    destruct s; [reflexivity|discriminate]. }
  assert (Hd : forall s, GoStrings.dash_to_underscore s = "" -> s = "")
    by (intros [|a s]; [reflexivity|discriminate]).
  destruct (lowerCase c), (snakeCaseKeys c); auto.
Qed.

End ParserShape.

(** ** The parser: the key of the map it returns *)

Section ParserKey.
Context {E : Externals}.
Variable c : Config.

Lemma top_level_key (fuel : nat) :
  (forall skey a p r m p' name,
      normKey c skey = "" ->
      xmlToMapParser c fuel skey a p r = Returns (Some m) None p' ->
      firstStart (pending p) = Some name -> name <> "" ->
      exists v, m = [(normKey c name, v)])
  /\ (forall seq p r m p' name,
      parseTokens c fuel "" None None seq p r = Returns (Some m) None p' ->
      firstStart (pending p) = Some name -> name <> "" ->
      exists v, m = [(normKey c name, v)]).
Proof.
  induction fuel as [|fuel [IHp IHl]]; [split; intros; discriminate|].
  split.
  - intros skey a p r m p' name He. rewrite xmlToMapParser_S. cbv zeta. rewrite He.
    change ("" =? "stream") with false. rewrite andb_false_r. simpl.
    apply IHl.
  - intros seq p r m p' name. rewrite parseTokens_S.
    destruct (nextToken p) as [[t q]|err] eqn:Hn; [|discriminate].
    apply nextToken_length in Hn. destruct Hn as [Hp _]. rewrite Hp.
    destruct t as [local attr| |data|]; simpl.
    + intros Hret Hname Hne. inversion Hname; subst local.
      pose proof (proj1 (parser_shape c fuel) name attr q r) as Hs.
      rewrite Hret in Hs. destruct Hs as [(k & v & -> & _ & Hk) _].
      exists v. rewrite Hk; [reflexivity|].
      intros H. apply Hne. eapply normKey_empty; eauto.
    + discriminate.
    + destruct (0 <? GoStrings.len (charData c data))%nat; [|apply IHl].
      destruct (decodeSimpleValuesAsMap c); [discriminate|apply IHl].
    + apply IHl.
Qed.

End ParserKey.

(** C10.  A call of the parser that returns without error returns a map of
    exactly one entry.  Its key is the normalised key the call was made for
    (a child element) or, in the outermost call, the normalised name of the
    first start element of the stream.  [xmlToMap] always ends. *)
Theorem decode_returns_singleton {E : Externals} (c : Config) (fuel : nat) (skey : string)
  (a : list Attr) (p p' : Decoder) (r : bool) (m : option gomap)
  (Hret : xmlToMapParser c fuel skey a p r = Returns m None p') :
  (exists k v, m = Some [(k, v)]
     /\ (skey <> "" -> k = normKey c skey)
     /\ (skey = "" -> forall name,
           firstStart (pending p) = Some name -> name <> "" -> k = normKey c name))
  /\ mlen m = 1%nat
  /\ xmlToMap c p r <> OutOfFuel.
Proof.
  pose proof (proj1 (parser_shape c fuel) skey a p r) as Hs. rewrite Hret in Hs.
  destruct m as [m|]; [|contradiction]. destruct Hs as [(k & v & -> & _ & Hk) _].
  split; [|split; [reflexivity|apply xmlToMap_ends]].
  exists k, v. split; [reflexivity|]. split.
  - intros Hne. apply Hk. intros H. apply Hne. eapply normKey_empty; eauto.
  - intros -> name Hname Hne.
    assert (He : normKey c "" = "")
      by (unfold normKey; destruct (lowerCase c), (snakeCaseKeys c); reflexivity).
    destruct (proj1 (top_level_key c fuel) "" a p r _ p' name He Hret Hname Hne) as [v' Hv'].
    inversion Hv'. reflexivity.
Qed.

Lemma decode_returns_singleton_witness :
  exists (k : string) (v : @any exampleExternals),
    Some [("p", VMap [("c", VString "1")])] = Some [(k, v)] /\ k = "p".
Proof.
  destruct (@decode_returns_singleton exampleExternals defaults 20 "" []
              {| pending := [OtherToken; StartElement "p" []; StartElement "c" [];
                             CharData "1"; EndElement "c"; EndElement "p"];
                 failure := None |}
              {| pending := []; failure := None |} false
              (Some [("p", VMap [("c", VString "1")])]) eq_refl)
    as [(k & v & Hm & _ & Hk) _].
  exists k, v. split; [exact Hm|].
  apply (Hk eq_refl "p" eq_refl). discriminate.
Defined.

(** ** The parser on the tokens of a document *)

Section ParserOnDocuments.
Context {E : Externals}.
Variable c : Config.

(** More fuel does not change a result. *)
Lemma parser_fuel_S (fuel : nat) :
  (forall skey a p r,
      xmlToMapParser c fuel skey a p r <> OutOfFuel ->
      xmlToMapParser c (S fuel) skey a p r = xmlToMapParser c fuel skey a p r)
  /\ (forall skey n na seq p r,
      parseTokens c fuel skey n na seq p r <> OutOfFuel ->
      parseTokens c (S fuel) skey n na seq p r = parseTokens c fuel skey n na seq p r).
Proof.
  induction fuel as [|fuel [IHp IHl]]; [split; intros; exfalso; auto|].
  split.
  - intros skey a p r. rewrite (xmlToMapParser_S c (S fuel)), (xmlToMapParser_S c fuel).
    cbv zeta. destruct (handleXMPPStreamTag c && (normKey c skey =? "stream")); [reflexivity|].
    apply IHl.
  - intros skey n na seq p r. rewrite (parseTokens_S c (S fuel)), (parseTokens_S c fuel).
    destruct (nextToken p) as [[t p']|err]; [|reflexivity].
    destruct t as [local attr| |data|]; cbv zeta.
    + destruct (skey =? ""); [apply IHp|].
      intros H.
      assert (Hc : xmlToMapParser c fuel local attr p' r <> OutOfFuel)
        by (intros Hc; rewrite Hc in H; auto).
      rewrite (IHp _ _ _ _ Hc).
      destruct (xmlToMapParser c fuel local attr p' r) as [nn [err|] p''| |];
        try reflexivity.
      destruct (firstEntry nn) as [key val]. destruct (tagSeq c val seq) as [val' seq'].
      destruct (addChild na key val'); [|reflexivity].
      apply IHl. exact H.
    + reflexivity.
    + destruct (0 <? GoStrings.len (charData c data))%nat; [|apply IHl].
      destruct ((0 <? mlen na)%nat || decodeSimpleValuesAsMap c).
      * destruct (assign na _ _); [apply IHl|reflexivity].
      * destruct (negb (skey =? "")); [|apply IHl].
        destruct (assign n _ _); [apply IHl|reflexivity].
    + apply IHl.
Qed.

Lemma xmlToMapParser_more_fuel (fuel fuel' : nat) skey a p r :
  (fuel <= fuel')%nat ->
  xmlToMapParser c fuel skey a p r <> OutOfFuel ->
  xmlToMapParser c fuel' skey a p r = xmlToMapParser c fuel skey a p r.
Proof.
  induction 1 as [|fuel' Hle IH]; [reflexivity|].
  intros H. rewrite <- (IH H). apply parser_fuel_S. rewrite (IH H). exact H.
Qed.

Lemma parseTokens_more_fuel (fuel fuel' : nat) skey n na seq p r :
  (fuel <= fuel')%nat ->
  parseTokens c fuel skey n na seq p r <> OutOfFuel ->
  parseTokens c fuel' skey n na seq p r = parseTokens c fuel skey n na seq p r.
Proof.
  induction 1 as [|fuel' Hle IH]; [reflexivity|].
  intros H. rewrite <- (IH H). apply parser_fuel_S. rewrite (IH H). exact H.
Qed.

Lemma returned_not_OutOfFuel res p : returned res p <> OutOfFuel.
Proof. destruct res; discriminate. Qed.

Lemma nextToken_element l a inner content tail fl :
  nextToken (stream (flat_map tokens (Element l a inner :: content) ++ tail) fl)
  = inl (StartElement l a,
         stream (flat_map tokens inner ++ EndElement l :: (flat_map tokens content ++ tail)) fl).
Proof.
  unfold nextToken, stream. simpl. rewrite <- !app_assoc. reflexivity.
Qed.

Lemma nextToken_text data content tail fl :
  nextToken (stream (flat_map tokens (Text data :: content) ++ tail) fl)
  = inl (CharData data, stream (flat_map tokens content ++ tail) fl).
Proof. reflexivity. Qed.

Lemma nextToken_misc content tail fl :
  nextToken (stream (flat_map tokens (Misc :: content) ++ tail) fl)
  = inl (OtherToken, stream (flat_map tokens content ++ tail) fl).
Proof. reflexivity. Qed.

Lemma nextToken_close local tail fl :
  nextToken (stream (flat_map tokens [] ++ EndElement local :: tail) fl)
  = inl (EndElement local, stream tail fl).
Proof. reflexivity. Qed.

(** The loop of the parser on the tokens of [content] and the loop of
    [decodeElement] on [content] agree, when the calls for the children
    do. *)
Lemma parseTokens_decodeItems (r : bool) (local skey : string) (content : list xml) :
  skey <> "" ->
  Forall (decodes c r) content ->
  forall n na seq rest fl, exists fuel0, forall fuel, (fuel0 <= fuel)%nat ->
    parseTokens c fuel skey n na seq
      (stream (flat_map tokens content ++ EndElement local :: rest) fl) r
    = returned (decodeItems c r (decodeElement c r) skey content n na seq) (stream rest fl).
Proof.
  intros Hne Hall.
  assert (Hk : (skey =? "") = false) by (destruct (String.eqb_spec skey ""); congruence).
  induction Hall as [|x content Hx _ IH]; intros n na seq rest fl.
  - exists 1%nat. intros [|fuel] Hf; [lia|].
    rewrite parseTokens_S, nextToken_close. reflexivity.
  - destruct x as [l a inner|data|].
    + destruct (Hx (flat_map tokens content ++ EndElement local :: rest)%list fl) as [f1 H1].
      cbn [decodeItems].
      destruct (decodeElement c r (Element l a inner)) as [nn|] eqn:Hd.
      2:{ exists (S f1). intros [|fuel] Hf; [lia|].
          rewrite parseTokens_S, nextToken_element, Hk, H1 by lia. reflexivity. }
      destruct (firstEntry (Some nn)) as [key val] eqn:Hfe.
      destruct (tagSeq c val seq) as [val' seq'] eqn:Hts.
      destruct (addChild na key val') as [na'|] eqn:Ha.
      * destruct (IH n (Some na') seq' rest fl) as [f2 H2].
        exists (S (Nat.max f1 f2)). intros [|fuel] Hf; [lia|].
        rewrite parseTokens_S, nextToken_element, Hk, H1 by lia. cbn [returned].
        rewrite Hfe, Hts, Ha. apply H2. lia.
      * exists (S f1). intros [|fuel] Hf; [lia|].
        rewrite parseTokens_S, nextToken_element, Hk, H1 by lia. cbn [returned].
        rewrite Hfe, Hts, Ha. reflexivity.
    + cbn [decodeItems]. cbv zeta. rewrite Hk. cbn [negb].
      destruct (0 <? GoStrings.len (charData c data))%nat eqn:Hlen.
      2:{ destruct (IH n na seq rest fl) as [f2 H2]. exists (S f2).
          intros [|fuel] Hf; [lia|]. rewrite parseTokens_S, nextToken_text. cbv zeta.
          rewrite Hlen. apply H2. lia. }
      destruct ((0 <? mlen na)%nat || decodeSimpleValuesAsMap c) eqn:Hw.
      * destruct (assign na (textK c) _) as [na'|] eqn:Ha.
        -- destruct (IH n (Some na') seq rest fl) as [f2 H2]. exists (S f2).
           intros [|fuel] Hf; [lia|]. rewrite parseTokens_S, nextToken_text. cbv zeta.
           rewrite Hlen, Hw, Ha. apply H2. lia.
        -- exists 1%nat. intros [|fuel] Hf; [lia|]. rewrite parseTokens_S, nextToken_text.
           cbv zeta. rewrite Hlen, Hw, Ha. reflexivity.
      * destruct (assign n skey _) as [n'|] eqn:Ha.
        -- destruct (IH (Some n') na seq rest fl) as [f2 H2]. exists (S f2).
           intros [|fuel] Hf; [lia|]. rewrite parseTokens_S, nextToken_text. cbv zeta.
           rewrite Hlen, Hw, Hk. cbn [negb]. rewrite Ha. apply H2. lia.
        -- exists 1%nat. intros [|fuel] Hf; [lia|]. rewrite parseTokens_S, nextToken_text.
           cbv zeta. rewrite Hlen, Hw, Hk. cbn [negb]. rewrite Ha. reflexivity.
    + destruct (IH n na seq rest fl) as [f2 H2]. exists (S f2).
      intros [|fuel] Hf; [lia|]. rewrite parseTokens_S, nextToken_misc. apply H2. lia.
Qed.

Hypothesis noXMPP : handleXMPPStreamTag c = false.

(** A custom induction on documents: a property of an element may use it
    for the elements of its content. *)
Lemma xml_nested_ind (P : xml -> Prop) :
  (forall l a content, Forall P content -> P (Element l a content)) ->
  (forall data, P (Text data)) -> P Misc ->
  forall x, P x.
Proof.
  intros He Ht Hm. fix IH 1. intros [l a content|data|]; [|apply Ht|apply Hm].
  apply He. induction content as [|x content IHc]; constructor; [apply IH|exact IHc].
Qed.

(** The parser on the tokens of a document with named elements does what
    [decodeElement] does on the document. *)
Lemma parser_decodeElement (r : bool) (x : xml) : named x = true -> decodes c r x.
Proof.
  induction x as [l a content IH| |] using xml_nested_ind; [|reflexivity..].
  cbn [named]. intros Hn. apply andb_prop in Hn. destruct Hn as [Hl Hc].
  assert (Hne : normKey c l <> "").
  { intros H. apply normKey_empty in H. subst l. discriminate. }
  assert (Hall : Forall (decodes c r) content).
  { rewrite forallb_forall in Hc. rewrite Forall_forall in *. intros y Hy. auto. }
  intros rest fl.
  destruct (parseTokens_decodeItems r l (normKey c l) content Hne Hall
              (Some []) (Some (loadAttrs c a r [])) 0%Z rest fl) as [f0 H0].
  exists (S f0). intros [|fuel] Hf; [lia|].
  rewrite xmlToMapParser_S. cbv zeta. rewrite noXMPP. cbn [andb].
  destruct (String.eqb_spec (normKey c l) ""); [contradiction|].
  rewrite H0 by lia. reflexivity.
Qed.

(** [xmlToMap] on the tokens of a document. *)
Lemma xmlToMap_document (r : bool) (l : string) (a : list Attr) (content : list xml)
  (fl : option string) :
  named (Element l a content) = true ->
  xmlToMap c (stream (tokens (Element l a content)) fl) r
  = returned (decodeElement c r (Element l a content)) (stream [] fl).
Proof.
  intros Hn. pose proof (parser_decodeElement r _ Hn [] fl) as [f0 H0].
  assert (Hl : l <> "") by (cbn [named] in Hn; destruct (String.eqb_spec l ""); [discriminate|assumption]).
  set (p := stream (tokens (Element l a content)) fl).
  assert (Hfuel : exists fuel, xmlToMap c p r = xmlToMapParser c (S (S fuel)) "" [] p r)
    by (exists (2 * length (pending p))%nat; unfold xmlToMap, fuelFor; f_equal; lia).
  destruct Hfuel as [fuel Hfuel].
  pose proof (xmlToMap_ends c p r) as Hends. rewrite Hfuel in *.
  rewrite <- (xmlToMapParser_more_fuel (S (S fuel)) (S (S (Nat.max fuel f0)))) by (lia || assumption).
  rewrite xmlToMapParser_S. cbv zeta.
  assert (He : normKey c "" = "")
    by (unfold normKey; destruct (lowerCase c), (snakeCaseKeys c); reflexivity).
  rewrite He. change ("" =? "stream") with false. rewrite andb_false_r. cbn [String.eqb].
  rewrite parseTokens_S. unfold p. cbn [tokens]. 
  change (nextToken (stream (StartElement l a :: (flat_map tokens content ++ [EndElement l])%list) fl))
    with (@inl _ (option string) (StartElement l a, stream (flat_map tokens content ++ [EndElement l])%list fl)).
  cbn [String.eqb]. apply H0. lia.
Qed.

End ParserOnDocuments.

(** ** Repeated sibling tags *)

Section Promotion.
Context {E : Externals}.
Variable c : Config.
Variable r : bool.

Lemma addChild_promoteStep (l : gomap) (key : string) (val : any) :
  addChild (Some l) key val = Some (mapSet key (promoteStep (mapGet key l) val) l).
Proof.
  unfold addChild, promoteStep. simpl.
  destruct (mapGet key l) as [v|]; [|reflexivity]. destruct v; reflexivity.
Qed.

Lemma merged_list (a vals : list any) :
  merged (Some (VList a)) vals = Some (VList (a ++ vals)).
Proof.
  unfold merged. revert a. induction vals as [|v vals IH]; intros a; simpl.
  - rewrite app_nil_r. reflexivity.
  - rewrite IH, <- app_assoc. reflexivity.
Qed.

(** Merging values that are not lists, from nothing, gives what the
    specification says. *)
Lemma merged_promoted (vals : list any) :
  Forall (fun v => isList v = false) vals -> merged None vals = promoted vals.
Proof.
  intros Hall. destruct vals as [|v1 [|v2 vals]]; try reflexivity.
  inversion Hall as [|? ? H1 _]; subst.
  change (merged None (v1 :: v2 :: vals)) with (merged (Some (promoteStep (Some v1) v2)) vals).
  assert (Hs : promoteStep (Some v1) v2 = VList [v1; v2]) by (destruct v1; try reflexivity; discriminate).
  rewrite Hs, merged_list. reflexivity.
Qed.

Lemma tagSeq_not_list (val : any) (seq : Z) :
  isList val = false -> isList (fst (tagSeq c val seq)) = false.
Proof. unfold tagSeq. destruct (includeTagSeqNum c); [|auto]. destruct val; auto. Qed.

Lemma childEntries_not_list (content : list xml) :
  Forall (childOK c r) content ->
  forall seq, Forall (fun kv => isList (snd kv) = false) (childEntries c r content seq).
Proof.
  induction 1 as [|x content Hx _ IH]; intros seq; [constructor|].
  destruct x as [l a inner| |]; cbn [childEntries]; [|apply IH..].
  destruct Hx as (v & Hd & Hv). rewrite Hd. cbn [firstEntry].
  pose proof (tagSeq_not_list v seq Hv) as Ht.
  destruct (tagSeq c v seq) as [val' seq']. constructor; [exact Ht|apply IH].
Qed.

Lemma valuesFor_cons (k key : string) (val : any) (entries : list (string * any)) :
  valuesFor k ((key, val) :: entries)
  = if key =? k then val :: valuesFor k entries else valuesFor k entries.
Proof. unfold valuesFor. simpl. destruct (key =? k); reflexivity. Qed.

Lemma mapSet_length_le (k : string) (v : any) (l : gomap) :
  (length l <= length (mapSet k v l))%nat.
Proof.
  induction l as [|[k' v'] l IH]; simpl; [lia|]. destruct (k' =? k); simpl; lia.
Qed.

(** The loop of [decodeElement] ends in [endElement] with an [na] that
    holds, under every key but the text key, the values merged for it. *)
Lemma decodeItems_merges (skey : string) (content : list xml) :
  skey <> "" -> Forall (childOK c r) content ->
  forall n l seq, ownValue skey n ->
    exists n' l',
      decodeItems c r (decodeElement c r) skey content n (Some l) seq
      = endElement c skey n' (Some l')
      /\ ownValue skey n'
      /\ (length l <= length l')%nat
      /\ (childEntries c r content seq <> [] -> 0 < length l')%nat
      /\ forall k, k <> textK c ->
           mapGet k l' = merged (mapGet k l) (valuesFor k (childEntries c r content seq)).
Proof.
  intros Hne Hall.
  assert (Hk : (skey =? "") = false) by (destruct (String.eqb_spec skey ""); congruence).
  induction Hall as [|x content Hx _ IH]; intros n l seq Hn.
  - exists n, l. repeat split; auto. intros H; contradiction.
  - destruct x as [la a inner|data|].
    + destruct Hx as (v & Hd & Hv). cbn [decodeItems childEntries]. rewrite Hd.
      cbn [firstEntry]. destruct (tagSeq c v seq) as [val' seq'].
      rewrite addChild_promoteStep.
      set (l1 := mapSet (normKey c la) (promoteStep (mapGet (normKey c la) l) val') l).
      destruct (IH n l1 seq' Hn) as (n' & l' & Heq & Hn' & Hlen & _ & Hget).
      pose proof (mapSet_length (normKey c la) (promoteStep (mapGet (normKey c la) l) val') l).
      pose proof (mapSet_length_le (normKey c la) (promoteStep (mapGet (normKey c la) l) val') l).
      fold l1 in H, H0.
      exists n', l'. repeat split; auto; try lia.
      intros k Hkt. rewrite (Hget k Hkt), valuesFor_cons. unfold l1.
      destruct (String.eqb_spec (normKey c la) k) as [->|Hne'].
      * rewrite mapGet_mapSet_same. reflexivity.
      * rewrite mapGet_mapSet_other by assumption. reflexivity.
    + cbn [decodeItems childEntries]. cbv zeta. rewrite Hk. cbn [negb].
      destruct (0 <? GoStrings.len (charData c data))%nat; [|apply IH; exact Hn].
      destruct ((0 <? mlen (Some l))%nat || decodeSimpleValuesAsMap c).
      * cbn [assign option_map].
        set (l1 := mapSet (textK c) (cast c (charData c data) r (textK c)) l).
        destruct (IH n l1 seq Hn) as (n' & l' & Heq & Hn' & Hlen & Hpos & Hget).
        pose proof (mapSet_length_le (textK c) (cast c (charData c data) r (textK c)) l).
        fold l1 in H.
        exists n', l'. repeat split; auto; try lia.
        intros k Hkt. rewrite (Hget k Hkt). unfold l1.
        rewrite mapGet_mapSet_other by congruence. reflexivity.
      * assert (Hn1 : exists n1, assign n skey (cast c (charData c data) r skey) = Some n1
                                 /\ ownValue skey (Some n1)).
        { destruct Hn as [->|(v0 & -> & _)]; cbn.
          - eexists; split; [reflexivity|]. right. eexists; split; [reflexivity|].
            apply cast_not_list.
          - rewrite String.eqb_refl. eexists; split; [reflexivity|]. right.
            eexists; split; [reflexivity|]. apply cast_not_list. }
        destruct Hn1 as (n1 & -> & Hn1). apply IH. exact Hn1.
    + cbn [decodeItems childEntries]. apply IH. exact Hn.
Qed.

End Promotion.

Section PromotionInDocuments.
Context {E : Externals}.
Variable c : Config.
Variable r : bool.

Lemma decodeElement_Element (l : string) (a : list Attr) (content : list xml) :
  decodeElement c r (Element l a content)
  = decodeItems c r (decodeElement c r) (normKey c l) content
      (Some []) (Some (loadAttrs c a r [])) 0%Z.
Proof. reflexivity. Qed.

Lemma endElement_value (skey : string) (n : option gomap) (l : gomap) :
  ownValue skey n ->
  exists v, endElement c skey n (Some l) = Some [(skey, v)]
    /\ isList v = false
    /\ ((0 < length l)%nat ->
        exists m, v = VMap m /\ forall k, k <> textK c -> mapGet k m = mapGet k l).
Proof.
  unfold endElement. intros [->|(v0 & -> & Hv0)]; cbn [mlen length Nat.eqb andb].
  - destruct (Nat.ltb_spec 0 (length l)); cbn [assign option_map mapSet].
    + exists (VMap l). repeat split. intros _. exists l. auto.
    + exists (VString ""). repeat split. intros H'. lia.
  - destruct (Nat.ltb_spec 0 (length l)); cbn [assign option_map mapSet firstEntry snd].
    + rewrite String.eqb_refl. eexists. repeat split.
      intros _. eexists. split; [reflexivity|].
      intros k Hk. apply mapGet_mapSet_other. congruence.
    + exists v0. repeat split; auto. intros H'. lia.
Qed.

(** Every element of a document with named elements decodes, to one entry
    under its normalised name. *)
Lemma decodeElement_ok (x : xml) : named x = true -> childOK c r x.
Proof.
  induction x as [l a content IH| |] using xml_nested_ind; [|exact (fun _ => I)..].
  cbn [named]. intros Hn. apply andb_prop in Hn. destruct Hn as [Hl Hc].
  assert (Hne : normKey c l <> "").
  { intros H. apply normKey_empty in H. subst l. discriminate. }
  assert (Hall : Forall (childOK c r) content).
  { rewrite forallb_forall in Hc. rewrite Forall_forall in *. intros y Hy. auto. }
  destruct (decodeItems_merges c r (normKey c l) content Hne Hall (Some [])
              (loadAttrs c a r []) 0%Z (or_introl eq_refl))
    as (n' & l' & Heq & Hn' & _).
  destruct (endElement_value (normKey c l) n' l' Hn') as (v & Hv & Hlist & _).
  exists v. rewrite decodeElement_Element, Heq, Hv. auto.
Qed.

(** The entry of the key [k] in the map decoded for an element: the values
    of its children of that key, as the specification promotes them. *)
Lemma decodeElement_promotes (l : string) (a : list Attr) (content : list xml) (k : string) :
  named (Element l a content) = true ->
  k <> textK c -> mapGet k (loadAttrs c a r []) = None ->
  valuesFor k (childEntries c r content 0) <> [] ->
  exists m, decodeElement c r (Element l a content) = Some [(normKey c l, VMap m)]
    /\ mapGet k m = promoted (valuesFor k (childEntries c r content 0)).
Proof.
  cbn [named]. intros Hn Hk Hattr Hvals. apply andb_prop in Hn. destruct Hn as [Hl Hc].
  assert (Hne : normKey c l <> "").
  { intros H. apply normKey_empty in H. subst l. discriminate. }
  assert (Hall : Forall (childOK c r) content).
  { rewrite forallb_forall in Hc. rewrite Forall_forall. intros y Hy.
    apply decodeElement_ok. auto. }
  destruct (decodeItems_merges c r (normKey c l) content Hne Hall (Some [])
              (loadAttrs c a r []) 0%Z (or_introl eq_refl))
    as (n' & l' & Heq & Hn' & _ & Hpos & Hget).
  destruct (endElement_value (normKey c l) n' l' Hn') as (v & Hv & _ & Hmap).
  destruct Hmap as (m & -> & Hm).
  { apply Hpos. intros He. rewrite He in Hvals. apply Hvals. reflexivity. }
  exists m. rewrite decodeElement_Element, Heq, Hv. split; [reflexivity|].
  rewrite (Hm k Hk), (Hget k Hk), Hattr. apply merged_promoted.
  pose proof (childEntries_not_list c r content Hall 0%Z) as Hnl.
  unfold valuesFor. rewrite Forall_forall in *. intros y Hy.
  apply in_map_iff in Hy. destruct Hy as (kv & <- & Hin).
  apply filter_In in Hin. apply Hnl. tauto.
Qed.

(** Without [includeTagSeqNum], the entries merged are the entries decoded
    for the child elements. *)
Lemma childEntries_plain (content : list xml) (seq : Z) :
  includeTagSeqNum c = false ->
  childEntries c r content seq
  = map (fun x => firstEntry (decodeElement c r x))
      (filter (fun x => match x with Element _ _ _ => true | _ => false end) content).
Proof.
  intros Hs. induction content as [|x content IH]; [reflexivity|].
  destruct x; cbn [childEntries filter map]; auto.
  destruct (firstEntry _) as [key val]. unfold tagSeq. rewrite Hs. f_equal. exact IH.
Qed.

End PromotionInDocuments.

(** C1.  In the map decoded for an element, the entry of a key that is
    neither the text key nor an attribute key is made of the values decoded
    for the children of that key: the bare value when there is one child,
    the list of the values in document order when there are more.  One
    more child stores its value when the key is new, makes a list of the
    value in place and its own when that is no list, and is appended when it
    is one. *)
Theorem sibling_promotion {E : Externals} (c : Config) (r : bool) (l : string)
  (a : list Attr) (content : list xml) (fl : option string) (k : string)
  (HnoXMPP : handleXMPPStreamTag c = false)
  (Hnamed : named (Element l a content) = true)
  (Hk : k <> textK c)
  (Hattr : mapGet k (loadAttrs c a r []) = None)
  (Hvals : valuesFor k (childEntries c r content 0) <> []) :
  (exists m,
      xmlToMap c (stream (tokens (Element l a content)) fl) r
      = Returns (Some [(normKey c l, VMap m)]) None (stream [] fl)
      /\ mapGet k m = match valuesFor k (childEntries c r content 0) with
                      | [v] => Some v
                      | vs => Some (VList vs)
                      end)
  /\ (includeTagSeqNum c = false ->
      childEntries c r content 0
      = map (fun x => firstEntry (decodeElement c r x))
          (filter (fun x => match x with Element _ _ _ => true | _ => false end) content))
  /\ (forall na key val,
      mapGet key na = None -> addChild (Some na) key val = Some (mapSet key val na))
  /\ (forall na key val v,
      mapGet key na = Some v -> isList v = false ->
      addChild (Some na) key val = Some (mapSet key (VList [v; val]) na))
  /\ (forall na key val vs,
      mapGet key na = Some (VList vs) ->
      addChild (Some na) key val = Some (mapSet key (VList (vs ++ [val])) na)).
Proof.
  split.
  { destruct (decodeElement_promotes c r l a content k Hnamed Hk Hattr Hvals) as (m & Hd & Hm).
    exists m. split.
    - rewrite (xmlToMap_document c HnoXMPP r l a content fl Hnamed), Hd. reflexivity.
    - rewrite Hm. unfold promoted.
      destruct (valuesFor k (childEntries c r content 0)) as [|v1 [|v2 vs]];
        [contradiction|reflexivity..]. }
  split; [apply childEntries_plain|].
  split; [|split]; intros na key val; intros; rewrite addChild_promoteStep;
    unfold promoteStep; rewrite H; try reflexivity.
  destruct v; try reflexivity; discriminate.
Qed.

Lemma sibling_promotion_witness :
  exists m : @gomap exampleExternals,
    xmlToMap defaults
      (stream [StartElement "p" []; StartElement "c" []; CharData "1"; EndElement "c";
               StartElement "c" []; CharData "2"; EndElement "c"; EndElement "p"] None) false
    = Returns (Some [("p", VMap m)]) None (stream [] None)
    /\ mapGet "c" m = Some (VList [VString "1"; VString "2"]).
Proof.
  destruct (@sibling_promotion exampleExternals defaults false "p" []
              [Element "c" [] [Text "1"]; Element "c" [] [Text "2"]] None "c"
              eq_refl eq_refl) as [(m & Hrun & Hm) _].
  - discriminate.
  - reflexivity.
  - discriminate.
  - exists m. split; [exact Hrun|exact Hm].
Defined.

(** ** Errors of the token stream *)

Section DecodeErrors.
Context {E : Externals}.
Variable c : Config.





(** When the tokenizer has nothing but its error to give, the loop of the
    parser returns no map and that error. *)
Lemma parseTokens_at_error (fuel : nat) skey n na seq p r :
  pending p = [] ->
  parseTokens c (S fuel) skey n na seq p r = Returns None (Some (tokenError (failure p))) p.
Proof.
  intros Hp. rewrite parseTokens_S. unfold nextToken. rewrite Hp. reflexivity.
Qed.

End DecodeErrors.

(** ** Strings and sorting *)

Section StringFacts.

Lemma append_assoc (a b d : string) : (a ++ b) ++ d = a ++ b ++ d.
Proof. induction a as [|x a IH]; simpl; [reflexivity|]. rewrite IH. reflexivity. Qed.

Lemma append_nil_r (a : string) : a ++ "" = a.
Proof. induction a as [|x a IH]; simpl; [reflexivity|]. rewrite IH. reflexivity. Qed.

Lemma length_append (a b : string) :
  String.length (a ++ b) = (String.length a + String.length b)%nat.
Proof. induction a as [|x a IH]; simpl; [reflexivity|]. rewrite IH. reflexivity. Qed.

Lemma substring_all (s : string) : substring 0 (String.length s) s = s.
Proof. induction s as [|x s IH]; simpl; [reflexivity|]. rewrite IH. reflexivity. Qed.

Lemma take_append (a b : string) : GoStrings.take (GoStrings.len a) (a ++ b) = a.
Proof.
  unfold GoStrings.take, GoStrings.len.
  induction a as [|x a IH]; simpl; [destruct b; reflexivity|]. rewrite IH. reflexivity.
Qed.

Lemma drop_append (a b : string) : GoStrings.drop (GoStrings.len a) (a ++ b) = b.
Proof.
  unfold GoStrings.drop, GoStrings.len. rewrite length_append.
  replace (String.length a + String.length b - String.length a)%nat
    with (String.length b) by lia.
  induction a as [|x a IH]; simpl; [apply substring_all|exact IH].
Qed.

Lemma take_drop (n : nat) (s : string) :
  (n <= GoStrings.len s)%nat -> GoStrings.take n s ++ GoStrings.drop n s = s.
Proof.
  unfold GoStrings.take, GoStrings.drop, GoStrings.len.
  revert n. induction s as [|x s IH]; intros [|n] Hn; simpl in *; try reflexivity; try lia.
  - rewrite substring_all. reflexivity.
  - f_equal. apply IH. lia.
Qed.

Lemma ascii_compare_trans (x y z : ascii) :
  Ascii.compare x y <> Gt -> Ascii.compare y z <> Gt -> Ascii.compare x z <> Gt.
Proof.
  unfold Ascii.compare. rewrite !N.compare_gt_iff. lia.
Qed.

Lemma string_compare_trans (a b d : string) :
  String.compare a b <> Gt -> String.compare b d <> Gt -> String.compare a d <> Gt.
Proof.
  revert b d. induction a as [|x a IH]; intros [|y b] [|z d]; simpl; try congruence.
  destruct (Ascii.compare x y) eqn:Hxy; try congruence;
    destruct (Ascii.compare y z) eqn:Hyz; try congruence.
  - apply Ascii.compare_eq_iff in Hxy, Hyz. subst. 
    destruct (Ascii.compare z z) eqn:Hzz; try congruence; [apply IH|].
    unfold Ascii.compare in Hzz. rewrite N.compare_refl in Hzz. discriminate.
  - apply Ascii.compare_eq_iff in Hxy. subst. rewrite Hyz. congruence.
  - apply Ascii.compare_eq_iff in Hyz. subst. rewrite Hxy. congruence.
  - intros _ _. 
    assert (H : Ascii.compare x z = Lt).
    { unfold Ascii.compare in *. rewrite N.compare_lt_iff in *. lia. }
    rewrite H. congruence.
Qed.

Lemma stringLe_trans (a b d : string) :
  stringLe a b = true -> stringLe b d = true -> stringLe a d = true.
Proof.
  unfold stringLe, String.leb. intros H1 H2.
  pose proof (string_compare_trans a b d) as H.
  destruct (String.compare a b), (String.compare b d), (String.compare a d);
    try reflexivity; try discriminate; exfalso; apply H; congruence.
Qed.

End StringFacts.

Section SortFacts.
Context {A : Type}.
Variable key : A -> string.

Let less (a b : A) : bool := stringLe (key a) (key b).

Lemma insertSorted_perm (x : A) (l : list A) : Permutation (insertSorted less x l) (x :: l).
Proof.
  induction l as [|y l IH]; simpl; [reflexivity|].
  destruct (less x y); [reflexivity|].
  rewrite IH. apply perm_swap.
Qed.

Lemma sortBy_perm (l : list A) : Permutation (sortBy less l) l.
Proof.
  induction l as [|x l IH]; simpl; [reflexivity|].
  rewrite insertSorted_perm. constructor. exact IH.
Qed.

Lemma insertSorted_sorted (x : A) (l : list A) :
  StronglySorted (keyLe key) l -> StronglySorted (keyLe key) (insertSorted less x l).
Proof.
  induction 1 as [|y l Hs IH Hy]; simpl; [repeat constructor|].
  destruct (less x y) eqn:Hxy.
  - constructor; [constructor; assumption|].
    constructor; [exact Hxy|].
    rewrite Forall_forall in *. intros z Hz. eapply stringLe_trans; [exact Hxy|].
    apply Hy. exact Hz.
  - constructor; [exact IH|].
    rewrite Forall_forall in *. intros z Hz.
    apply (Permutation_in _ (insertSorted_perm x l)) in Hz. destruct Hz as [<-|Hz].
    + unfold keyLe. destruct (String.leb_total (key y) (key x)) as [H|H]; [exact H|].
      unfold less, stringLe in Hxy. congruence.
    + apply Hy. exact Hz.
Qed.

Lemma sortBy_sorted (l : list A) : StronglySorted (keyLe key) (sortBy less l).
Proof.
  induction l as [|x l IH]; simpl; [constructor|]. apply insertSorted_sorted. exact IH.
Qed.

Lemma key_inj_in (l : list A) (a b : A) :
  NoDup (map key l) -> In a l -> In b l -> key a = key b -> a = b.
Proof.
  induction l as [|x l IH]; simpl; [intros _ []|].
  intros Hnd Ha Hb Hk. inversion Hnd as [|? ? Hx Hnd']; subst.
  destruct Ha as [->|Ha], Hb as [->|Hb]; auto.
  - exfalso. apply Hx. rewrite Hk. apply in_map. exact Hb.
  - exfalso. apply Hx. rewrite <- Hk. apply in_map. exact Ha.
Qed.

(** A list with distinct keys has one sorted arrangement. *)
Lemma sorted_perm_unique (l1 l2 : list A) :
  StronglySorted (keyLe key) l1 -> StronglySorted (keyLe key) l2 ->
  Permutation l1 l2 -> NoDup (map key l1) -> l1 = l2.
Proof.
  intros H1. revert l2. induction H1 as [|a l1 Hs1 IH Ha]; intros l2 H2 Hp Hnd.
  - apply Permutation_nil in Hp. subst. reflexivity.
  - destruct H2 as [|b l2 Hs2 Hb].
    { apply Permutation_sym, Permutation_nil in Hp. discriminate. }
    assert (Hab : a = b).
    { assert (Hina : In a (b :: l2)) by (apply (Permutation_in _ Hp); left; reflexivity).
      assert (Hinb : In b (a :: l1))
        by (apply (Permutation_in _ (Permutation_sym Hp)); left; reflexivity).
      destruct Hina as [->|Hina]; [reflexivity|].
      destruct Hinb as [->|Hinb]; [reflexivity|].
      rewrite Forall_forall in Ha, Hb.
      apply (key_inj_in (a :: l1)); [exact Hnd|left; reflexivity|right; exact Hinb|].
      apply String.leb_antisym; [apply Ha; exact Hinb|apply Hb; exact Hina]. }
    subst b. f_equal. apply IH; [exact Hs2| |inversion Hnd; assumption].
    eapply Permutation_cons_inv. exact Hp.
Qed.

(** Sorting does not depend on the order the list comes in. *)
Lemma sortBy_order_independent (l l' : list A) :
  Permutation l l' -> NoDup (map key l) -> sortBy less l = sortBy less l'.
Proof.
  intros Hp Hnd. apply sorted_perm_unique; try apply sortBy_sorted.
  - rewrite !sortBy_perm. exact Hp.
  - apply (Permutation_NoDup (l := map key l)); [|exact Hnd].
    apply Permutation_map, Permutation_sym, sortBy_perm.
Qed.

(** Whatever sorts by the keys gives what [sortBy] gives. *)
Lemma sortBy_any_sort (l sorted : list A) :
  Permutation sorted l -> StronglySorted (keyLe key) sorted -> NoDup (map key l) ->
  sorted = sortBy less l.
Proof.
  intros Hp Hs Hnd. apply sorted_perm_unique; [exact Hs|apply sortBy_sorted| |].
  - rewrite sortBy_perm. exact Hp.
  - apply (Permutation_NoDup (l := map key l)); [|exact Hnd].
    apply Permutation_map, Permutation_sym, Hp.
Qed.

End SortFacts.

(** ** The encoder: the order of attributes and elements *)

Section EncoderOrder.
Context {E : Externals}.
Variable c : Config.

Lemma marshal_map (doIndent : bool) (vv : gomap) (key : string) (p : pretty) :
  marshalMapToXmlIndent c doIndent (VMap vv) key p =
  (openTag doIndent key (VMap vv) p ;;
   match scanAttrs c vv with
   | inr e => fail e
   | inl attrlist =>
       let n := length attrlist in
       when (0 <? n)%nat (writeAttrs (sortBy attrLess attrlist)) ;;
       if (n =? length vv)%nat then
         (if useGoXmlEmptyElemSyntax c then write ("</" ++ key ++ ">") else write "/>") ;;
         closeTag c doIndent key p false false 0
       else
         let children := eachElem doIndent (elemCalls c doIndent vv) (deeper 1 p) in
         let complex (isComplex : bool) :=
           when (negb isComplex) (write ">") ;;
           when doIndent (write newline) ;;
           children ;;
           closeTag c doIndent key p true false 1 in
         match mapGet (textK c) vv with
         | Some v =>
             if (n + 1 =? length vv)%nat then
               write (">" ++ textOf c v) ;;
               closeTag c doIndent key p true true 1
             else write (">" ++ textOf c v) ;; complex true
         | None => complex false
         end
   end).
Proof. reflexivity. Qed.

Lemma marshal_list (doIndent : bool) (l : list any) (key : string) (p : pretty) :
  marshalMapToXmlIndent c doIndent (VList l) key p =
  match l with
  | [] => emptyList c doIndent key p
  | _ => eachMember doIndent (map (fun v => marshalMapToXmlIndent c doIndent v key) l) p
  end.
Proof. destruct l; reflexivity. Qed.

Lemma scanAttrs_perm (vv vv' : gomap) :
  Permutation vv vv' ->
  forall attrs, scanAttrs c vv = inl attrs ->
    exists attrs', scanAttrs c vv' = inl attrs' /\ Permutation attrs attrs'.
Proof.
  induction 1 as [|[k v] l l' Hp IH|[k1 v1] [k2 v2] l|l1 l2 l3 _ IH1 _ IH2]; intros attrs.
  - intros H. exists attrs. auto.
  - simpl. destruct (isAttrKey c k); [|apply IH].
    destruct (attrValueOf c k v) as [ss|e]; [|discriminate].
    destruct (scanAttrs c l) as [a0|e]; [|discriminate].
    intros H. inversion H; subst. destruct (IH a0 eq_refl) as (a0' & -> & Hp').
    eexists. split; [reflexivity|]. constructor. exact Hp'.
  - simpl. destruct (isAttrKey c k1), (isAttrKey c k2);
      try destruct (attrValueOf c k1 v1) as [s1|e1];
      try destruct (attrValueOf c k2 v2) as [s2|e2];
      try destruct (scanAttrs c l) as [a0|e]; try discriminate;
      intros H; inversion H; subst; eexists; (split; [reflexivity|]);
      try apply perm_swap; reflexivity.
  - intros H. destruct (IH1 _ H) as (a2 & H2 & Hp2). destruct (IH2 _ H2) as (a3 & H3 & Hp3).
    exists a3. split; [exact H3|]. etransitivity; eassumption.
Qed.

(** The names scanned are those of the attribute keys. *)
Lemma scanAttrs_names (vv : gomap) (attrs : list (string * string)) :
  scanAttrs c vv = inl attrs ->
  map fst attrs = map (attrName c) (filter (isAttrKey c) (keys vv)).
Proof.
  revert attrs. induction vv as [|[k v] vv IH]; simpl; intros attrs.
  - intros H. inversion H. reflexivity.
  - destruct (isAttrKey c k); [|apply IH].
    destruct (attrValueOf c k v) as [ss|e]; [|discriminate].
    destruct (scanAttrs c vv) as [a0|e]; [|discriminate].
    intros H. inversion H; subst. simpl. f_equal. apply IH. reflexivity.
Qed.

(** An attribute key is the prefix followed by the attribute's name. *)
Lemma isAttrKey_split (k : string) :
  isAttrKey c k = true -> k = attrPrefix c ++ attrName c k.
Proof.
  unfold isAttrKey, attrName, lenAttrPrefix. intros H.
  apply andb_prop in H. destruct H as [H Ht]. apply andb_prop in H. destruct H as [_ Hl].
  apply String.eqb_eq in Ht. apply Nat.ltb_lt in Hl.
  rewrite <- Ht at 1. symmetry. apply take_drop. lia.
Qed.

Lemma attr_names_NoDup (ks : list string) :
  NoDup ks -> NoDup (map (attrName c) (filter (isAttrKey c) ks)).
Proof.
  induction 1 as [|k ks Hk Hnd IH]; simpl; [constructor|].
  destruct (isAttrKey c k) eqn:Ha; [|exact IH]. simpl. constructor; [|exact IH].
  intros Hin. apply in_map_iff in Hin. destruct Hin as (k' & Hn & Hin').
  apply filter_In in Hin'. destruct Hin' as [Hin' Ha'].
  apply Hk. rewrite (isAttrKey_split k Ha), <- Hn, <- (isAttrKey_split k' Ha'). exact Hin'.
Qed.

Lemma mapGet_Some_In (k : string) (v : any) (m : gomap) :
  mapGet k m = Some v -> In (k, v) m.
Proof.
  induction m as [|[k' v'] m IH]; simpl; [discriminate|].
  destruct (String.eqb_spec k' k); [|auto].
  intros H. inversion H; subst. auto.
Qed.

(** Looking a key up does not depend on the order of the entries. *)
Lemma mapGet_perm (k : string) (vv vv' : gomap) :
  NoDup (keys vv) -> Permutation vv vv' -> mapGet k vv = mapGet k vv'.
Proof.
  intros Hnd Hp.
  assert (Hnd' : NoDup (keys vv'))
    by (apply (Permutation_NoDup (l := keys vv)); [apply Permutation_map; exact Hp|exact Hnd]).
  destruct (mapGet k vv) as [v|] eqn:Hg.
  - symmetry. apply mapGet_In; [exact Hnd'|].
    apply (Permutation_in _ Hp). apply mapGet_Some_In. exact Hg.
  - symmetry. apply mapGet_None_keys. apply mapGet_None_keys in Hg.
    intros Hin. apply Hg. apply (Permutation_in _ (Permutation_sym (Permutation_map fst Hp))).
    exact Hin.
Qed.

Lemma scanElems_keys {V : Type} (f : string * any -> V) (vv : gomap) :
  map fst (scanElems c (map (fun kv => (fst kv, f kv)) vv)) = filter (isElemKey c) (keys vv).
Proof.
  unfold scanElems, keys. induction vv as [|[k v] vv IH]; simpl; [reflexivity|].
  destruct (isElemKey c k); simpl; rewrite IH; reflexivity.
Qed.

Lemma NoDup_filter {A : Type} (f : A -> bool) (l : list A) : NoDup l -> NoDup (filter f l).
Proof.
  induction 1 as [|x l Hx Hnd IH]; simpl; [constructor|].
  destruct (f x); [|exact IH]. constructor; [|exact IH].
  intros Hin. apply filter_In in Hin. tauto.
Qed.

Lemma filter_perm {A : Type} (keep : A -> bool) :
  forall vv vv' : list A, Permutation vv vv' -> Permutation (filter keep vv) (filter keep vv').
Proof.
  intros vv vv'. set (f := keep).
  induction 1 as [|x l l' _ IH|x y l|l1 l2 l3 _ IH1 _ IH2]; simpl.
  - constructor.
  - destruct (f x); [constructor|]; exact IH.
  - destruct (f x), (f y); try reflexivity. apply perm_swap.
  - etransitivity; eassumption.
Qed.

(** The sorted list of children does not depend on the order of the
    entries. *)
Lemma elemCalls_perm (doIndent : bool) (vv vv' : gomap) :
  NoDup (keys vv) -> Permutation vv vv' -> elemCalls c doIndent vv = elemCalls c doIndent vv'.
Proof.
  intros Hnd Hp. unfold elemCalls.
  apply (sortBy_order_independent fst).
  - unfold scanElems. apply filter_perm, Permutation_map. exact Hp.
  - rewrite (scanElems_keys (fun kv => (snd kv, marshalMapToXmlIndent c doIndent (snd kv)))).
    apply NoDup_filter. exact Hnd.
Qed.

(** The sorted list of attributes does not depend on it either. *)
Lemma sorted_attrs_perm (vv vv' : gomap) (attrs : list (string * string)) :
  NoDup (keys vv) -> Permutation vv vv' -> scanAttrs c vv = inl attrs ->
  exists attrs', scanAttrs c vv' = inl attrs'
    /\ length attrs' = length attrs
    /\ sortBy attrLess attrs' = sortBy attrLess attrs.
Proof.
  intros Hnd Hp Hs. destruct (scanAttrs_perm vv vv' Hp attrs Hs) as (attrs' & Hs' & Hp').
  exists attrs'. split; [exact Hs'|]. split.
  - symmetry. apply Permutation_length. exact Hp'.
  - symmetry. apply (sortBy_order_independent fst); [exact Hp'|].
    rewrite (scanAttrs_names vv attrs Hs). apply attr_names_NoDup. exact Hnd.
Qed.

(** The encoding of a map does not depend on the order of its entries,
    when its attributes are of the types allowed. *)
Lemma marshal_map_perm (doIndent : bool) (vv vv' : gomap) (key : string) (p : pretty)
  (attrs : list (string * string)) :
  NoDup (keys vv) -> Permutation vv vv' -> scanAttrs c vv = inl attrs ->
  marshalMapToXmlIndent c doIndent (VMap vv') key p
  = marshalMapToXmlIndent c doIndent (VMap vv) key p.
Proof.
  intros Hnd Hp Hs. rewrite !marshal_map.
  destruct (sorted_attrs_perm vv vv' attrs Hnd Hp Hs) as (attrs' & -> & Hlen & Hsort).
  rewrite Hs. cbv zeta. rewrite Hlen, Hsort.
  rewrite <- (Permutation_length Hp), <- (mapGet_perm (textK c) vv vv' Hnd Hp).
  rewrite <- (elemCalls_perm doIndent vv vv' Hnd Hp). reflexivity.
Qed.

End EncoderOrder.

Section EncoderOrderText.
Context {E : Externals}.
Variable c : Config.

Lemma writeAttrs_text (attrlist : list (string * string)) (b : string) :
  writeAttrs attrlist b = (b ++ attrsText attrlist, None).
Proof.
  revert b. induction attrlist as [|v l IH]; intros b.
  - unfold writeAttrs, skip. simpl. rewrite append_nil_r. reflexivity.
  - change (writeAttrs (v :: l))
      with (write (" " ++ fst v ++ "=" ++ dquote ++ snd v ++ dquote) ;; writeAttrs l).
    change (attrsText (v :: l))
      with (" " ++ fst v ++ "=" ++ dquote ++ snd v ++ dquote ++ attrsText l).
    unfold andThen, write. rewrite IH. rewrite !append_assoc. reflexivity.
Qed.

Lemma elemCalls_keys (doIndent : bool) (vv : gomap) (k : string) :
  In k (map fst (elemCalls c doIndent vv))
  <-> In k (keys vv) /\ k <> textK c /\ isAttrKey c k = false.
Proof.
  unfold elemCalls.
  assert (Hp : Permutation
                 (map fst (sortBy elemLess (scanElems c (map (fun kv =>
                    (fst kv, (snd kv, marshalMapToXmlIndent c doIndent (snd kv)))) vv))))
                 (filter (isElemKey c) (keys vv))).
  { rewrite <- (scanElems_keys c (fun kv => (snd kv, marshalMapToXmlIndent c doIndent (snd kv)))).
    apply Permutation_map. apply (sortBy_perm fst). }
  split.
  - intros H. apply (Permutation_in _ Hp) in H. apply filter_In in H.
    destruct H as [Hin He]. unfold isElemKey in He. apply andb_prop in He.
    destruct He as [Ht Ha]. split; [exact Hin|]. split.
    + intros ->. rewrite String.eqb_refl in Ht. discriminate.
    + destruct (isAttrKey c k); [discriminate|reflexivity].
  - intros (Hin & Ht & Ha). apply (Permutation_in _ (Permutation_sym Hp)).
    apply filter_In. split; [exact Hin|]. unfold isElemKey. rewrite Ha.
    destruct (String.eqb_spec k (textK c)); [contradiction|reflexivity].
Qed.

End EncoderOrderText.

(** ** The encoder: attributes of a wrong type *)

Section EncoderErrors.
Context {E : Externals}.
Variable c : Config.

Lemma fails_fail (e : error) : fails (fail e).
Proof. intros b. exists e. reflexivity. Qed.

Lemma fails_first (m k : Emit) : fails m -> fails (m ;; k).
Proof.
  intros Hm b. unfold andThen. destruct (Hm b) as [e He].
  destruct (m b) as [b' [e'|]]; simpl in *; [eauto|discriminate].
Qed.

Lemma fails_then (m k : Emit) : fails k -> fails (m ;; k).
Proof.
  intros Hk b. unfold andThen. destruct (m b) as [b' [e'|]]; simpl; [eauto|apply Hk].
Qed.

Lemma eachElem_fails (doIndent : bool) l k v (m : string -> pretty -> Emit) :
  In (k, (v, m)) l -> (forall key p, fails (m key p)) ->
  forall p, fails (eachElem doIndent l p).
Proof.
  intros Hin Hm. induction l as [|[k' [v' m']] l IH]; [destruct Hin|].
  intros p. cbn [eachElem]. destruct Hin as [Heq|Hin].
  - inversion Heq; subst. apply fails_first. apply Hm.
  - apply fails_then. apply IH. exact Hin.
Qed.

Lemma eachMember_fails (doIndent : bool) (l : list (pretty -> Emit)) (m : pretty -> Emit) :
  In m l -> (forall p, fails (m p)) -> forall p, fails (eachMember doIndent l p).
Proof.
  intros Hin Hm. induction l as [|m' l IH]; [destruct Hin|].
  intros p. cbn [eachMember]. destruct Hin as [->|Hin].
  - apply fails_first. apply Hm.
  - apply fails_then. apply IH. exact Hin.
Qed.

Lemma attrValueOf_scalarKind (k : string) (v : any) :
  scalarKind v = false -> attrValueOf c k v = inr (InvalidAttribute k v).
Proof. destruct v; simpl; intros H; try discriminate; reflexivity. Qed.

Lemma scanAttrs_bad (vv : gomap) (k : string) (v : any) :
  In (k, v) vv -> isAttrKey c k = true -> scalarKind v = false ->
  exists k' v', scanAttrs c vv = inr (InvalidAttribute k' v').
Proof.
  intros Hin Hk Hv. induction vv as [|[k0 v0] vv IH]; [destruct Hin|].
  simpl. destruct Hin as [Heq|Hin].
  - inversion Heq; subst. rewrite Hk, (attrValueOf_scalarKind k v Hv). eauto.
  - destruct (IH Hin) as (k' & v' & ->).
    destruct (isAttrKey c k0); [|eauto].
    destruct (attrValueOf c k0 v0) as [ss|e] eqn:Ha; [eauto|].
    destruct v0; simpl in Ha; inversion Ha; eauto.
Qed.

Lemma scanAttrs_length (vv : gomap) (attrs : list (string * string)) :
  scanAttrs c vv = inl attrs -> length attrs = length (filter (isAttrKey c) (keys vv)).
Proof.
  intros H. rewrite <- (length_map fst), (scanAttrs_names c vv attrs H), length_map.
  reflexivity.
Qed.

Lemma filter_length_one {A : Type} (f : A -> bool) (l : list A) (x : A) :
  In x l -> f x = false -> (length (filter f l) + 1 <= length l)%nat.
Proof.
  induction l as [|y l IH]; [intros []|]. simpl. intros [->|Hin] Hx.
  - rewrite Hx. pose proof (filter_length_le f l). lia.
  - specialize (IH Hin Hx). destruct (f y); simpl; lia.
Qed.

Lemma filter_length_two {A : Type} (f : A -> bool) (l : list A) (x y : A) :
  In x l -> In y l -> x <> y -> f x = false -> f y = false ->
  (length (filter f l) + 2 <= length l)%nat.
Proof.
  induction l as [|z l IH]; [intros []|]. simpl. intros [->|Hx] [->|Hy] Hne Fx Fy.
  - contradiction.
  - rewrite Fx. pose proof (filter_length_one f l y Hy Fy). lia.
  - rewrite Fy. pose proof (filter_length_one f l x Hx Fx). lia.
  - specialize (IH Hx Hy Hne Fx Fy). destruct (f z); simpl; lia.
Qed.

(** The text key is no attribute key: so it is under the policy at its
    initial values, and under any in which the text key does not begin with
    the attribute prefix. *)
Hypothesis textK_no_attr : isAttrKey c (textK c) = false.

Lemma badAttr_fails (value : any) :
  badAttr c value -> forall doIndent key p, fails (marshalMapToXmlIndent c doIndent value key p).
Proof.
  induction 1 as [vv k v Hin Hk Hv|vv k v Hin Hk Hbad IH|l v Hin Hbad IH|vv Hbad IH];
    intros doIndent key p; [| | |exact (IH doIndent key p)].
  - rewrite marshal_map. apply fails_then.
    destruct (scanAttrs_bad vv k v Hin Hk Hv) as (k' & v' & ->). apply fails_fail.
  - rewrite marshal_map. apply fails_then.
    destruct (scanAttrs c vv) as [attrs|e] eqn:Hs; [|apply fails_fail].
    cbv zeta. apply fails_then.
    assert (Hka : isAttrKey c k = false /\ k <> textK c).
    { unfold isElemKey in Hk. apply andb_prop in Hk. destruct Hk as [Ht Ha].
      split; [destruct (isAttrKey c k); [discriminate|reflexivity]|].
      intros ->. rewrite String.eqb_refl in Ht. discriminate. }
    destruct Hka as [Hka Hkt].
    assert (Hink : In k (keys vv)) by (change k with (fst (k, v)); apply in_map; exact Hin).
    rewrite (scanAttrs_length vv attrs Hs).
    assert (Hlen : length (keys vv) = length vv) by apply length_map.
    assert (Hchildren : fails (eachElem doIndent (elemCalls c doIndent vv) (deeper 1 p))).
    { apply eachElem_fails with k v (marshalMapToXmlIndent c doIndent v); [|apply IH].
      unfold elemCalls. apply (Permutation_in _ (Permutation_sym (sortBy_perm fst _))).
      apply filter_In. split; [|exact Hk].
      change (k, (v, marshalMapToXmlIndent c doIndent v))
        with ((fun kv : string * any =>
                 (fst kv, (snd kv, marshalMapToXmlIndent c doIndent (snd kv)))) (k, v)).
      apply in_map. exact Hin. }
    pose proof (filter_length_one (isAttrKey c) (keys vv) k Hink Hka) as H1.
    destruct (Nat.eqb_spec (length (filter (isAttrKey c) (keys vv))) (length vv)); [lia|].
    destruct (mapGet (textK c) vv) as [tv|] eqn:Hg.
    + assert (Hint : In (textK c) (keys vv)).
      { apply mapGet_Some_In in Hg. change (textK c) with (fst (textK c, tv)).
        apply in_map. exact Hg. }
      pose proof (filter_length_two (isAttrKey c) (keys vv) k (textK c) Hink Hint Hkt Hka
                    textK_no_attr) as H2.
      destruct (Nat.eqb_spec (length (filter (isAttrKey c) (keys vv)) + 1) (length vv)); [lia|].
      apply fails_then. do 2 apply fails_then. apply fails_first. exact Hchildren.
    + do 2 apply fails_then. apply fails_first. exact Hchildren.
  - rewrite marshal_list. destruct l as [|v0 l]; [destruct Hin|].
    apply eachMember_fails with (fun p => marshalMapToXmlIndent c doIndent v key p).
    + change (fun p0 => marshalMapToXmlIndent c doIndent v key p0)
        with ((fun v1 => marshalMapToXmlIndent c doIndent v1 key) v).
      apply in_map. exact Hin.
    + intros p0. apply IH.
Qed.

End EncoderErrors.

Section EmitFacts.
Context {E : Externals}.

Lemma andThen_ok (m k : Emit) (b b' : string) :
  m b = (b', None) -> (m ;; k) b = k b'.
Proof. unfold andThen. intros ->. reflexivity. Qed.

Lemma snd_when_write (cond : bool) (s b : string) : snd (when cond (write s) b) = None.
Proof. destruct cond; reflexivity. Qed.

Lemma when_write (cond : bool) (s b : string) :
  when cond (write s) b = (b ++ (if cond then s else ""), None).
Proof. destruct cond; simpl; [reflexivity|]. unfold skip. rewrite append_nil_r. reflexivity. Qed.

(** The closing of a tag writes and does not fail. *)
Lemma closeTag_ok (c : Config) doIndent key p endTag isSimple elen b :
  snd (closeTag c doIndent key p endTag isSimple elen b) = None.
Proof.
  unfold closeTag, andThen, when, write, skip.
  destruct endTag, (doIndent && negb isSimple), ((0 <? elen)%nat || useGoXmlEmptyElemSyntax c),
    (elen =? 0)%nat, (doIndent && (start p <? cnt p)%nat); reflexivity.
Qed.

End EmitFacts.

(** C7.  A map entry under an attribute key whose value is neither string,
    byte slice, boolean, integer nor float makes [marshalMapToXmlIndent]
    return an error, for the map itself and for every value that holds the
    map as a child or a member; so do [Xml] and [XmlIndent].  The error of
    [xml.Marshal] on a struct is returned as well, before anything is
    written.  The one failure that is no error is that of the last resort,
    [xml.Marshal] on a value of the remaining slice types: "UNKNOWN" is
    written for it. *)
Theorem invalid_attribute_aborts {E : Externals} (c : Config) (value : any)
  (Htext : isAttrKey c (textK c) = false)
  (Hbad : badAttr c value) :
  (forall doIndent key p b,
      exists e, snd (marshalMapToXmlIndent c doIndent value key p b) = Some e)
  /\ (forall vv k v doIndent key p b,
      In (k, v) vv -> isAttrKey c k = true -> scalarKind v = false ->
      exists k' v', snd (marshalMapToXmlIndent c doIndent (VMap vv) key p b)
                    = Some (InvalidAttribute k' v'))
  /\ (forall mv rootTag,
      xmlCheckIsValid c = false -> snd (xmlRoot mv rootTag) = value ->
      exists e, snd (Xml c mv rootTag) = Some e)
  /\ (forall mv prefix ind rootTag,
      xmlCheckIsValid c = false -> snd (xmlIndentRoot mv rootTag) = value ->
      exists e, snd (XmlIndent c mv prefix ind rootTag) = Some e)
  /\ (forall doIndent msg key p b,
      marshalMapToXmlIndent c doIndent (VStruct (inr msg)) key p b
      = (b, Some (ErrorString msg)))
  /\ (forall (doIndent : bool) (mar : option string) mi key p b,
      (if doIndent then mi (padding p) (indent p) else mar) = None ->
      snd (marshalMapToXmlIndent c doIndent (VSlice mar mi) key p b) = None)
  /\ (forall mi key p b,
      marshalMapToXmlIndent c false (VSlice None mi) key p b
      = (b ++ "<" ++ key ++ ">" ++ ">UNKNOWN"
           ++ (if useGoXmlEmptyElemSyntax c then "></" ++ key ++ ">" else "/>"), None)).
Proof.
  split; [intros; apply (badAttr_fails c Htext value Hbad)|].
  split.
  { intros vv k v doIndent key p b Hin Hk Hv. rewrite marshal_map.
    destruct (scanAttrs_bad c vv k v Hin Hk Hv) as (k' & v' & Hs). rewrite Hs.
    exists k', v'. unfold andThen.
    destruct (openTag doIndent key (VMap vv) p b) as [b' [e|]] eqn:Ho; [|reflexivity].
    unfold openTag, andThen, when, write, skip in Ho. destruct doIndent; discriminate. }
  split.
  { intros mv rootTag Hcheck Hroot. unfold Xml.
    destruct (xmlRoot mv rootTag) as [key v]. simpl in Hroot. subst v.
    destruct (badAttr_fails c Htext value Hbad false key (newPretty "" "") "") as [e He].
    unfold checkIsValid. destruct (marshalMapToXmlIndent c false value key _ _) as [b err].
    rewrite Hcheck. exists e. exact He. }
  split.
  { intros mv prefix ind rootTag Hcheck Hroot. unfold XmlIndent.
    destruct (xmlIndentRoot mv rootTag) as [key v]. simpl in Hroot. subst v.
    destruct (badAttr_fails c Htext value Hbad true key (newPretty prefix ind) "") as [e He].
    unfold checkIsValid. destruct (marshalMapToXmlIndent c true value key _ _) as [b err].
    rewrite Hcheck. exists e. exact He. }
  split; [reflexivity|].
  split.
  { intros doIndent mar mi key p b Hnone.
    change (marshalMapToXmlIndent c doIndent (VSlice mar mi) key p)
      with (openTag doIndent key (VSlice mar mi) p
            ;; marshalSimple c doIndent key (VSlice mar mi) p).
    unfold marshalSimple. rewrite Hnone.
    unfold andThen, openTag, when, write, skip. destruct doIndent; apply closeTag_ok. }
  intros mi key p b.
  change (marshalMapToXmlIndent c false (VSlice None mi) key p)
    with (openTag false key (VSlice None mi) p ;; marshalSimple c false key (VSlice None mi) p).
  unfold marshalSimple, andThen, openTag, closeTag, andThen, when, write, skip. cbn.
  destruct (useGoXmlEmptyElemSyntax c); cbn; rewrite !append_assoc; reflexivity.
Qed.

Lemma invalid_attribute_aborts_witness :
  exists e : @error exampleExternals,
    snd (Xml defaults [("doc", VMap [("e", VMap [("-a", VList [])])])] []) = Some e.
Proof.
  destruct (@invalid_attribute_aborts exampleExternals defaults
              (VMap [("e", VMap [("-a", VList [])])]) eq_refl) as (_ & _ & H & _).
  - apply bad_child with "e" (VMap [("-a", VList [])]); [left; reflexivity|reflexivity|].
    apply bad_here with "-a" (VList []); [left; reflexivity|reflexivity|reflexivity].
  - apply (H [("doc", VMap [("e", VMap [("-a", VList [])])])] [] eq_refl eq_refl).
Defined.

(** ** Elements with text, and empty elements *)

Section Shapes.
Context {E : Externals}.

Lemma stringEqb_false (a b : string) : a <> b -> (a =? b) = false.
Proof. intros H. destruct (String.eqb_spec a b); [contradiction|reflexivity]. Qed.

Lemma len_pos (s : string) : s <> "" -> (0 <? GoStrings.len s)%nat = true.
Proof. destruct s; [contradiction|reflexivity]. Qed.

Lemma named_element (e : string) (a : list Attr) (content : list xml) :
  e <> "" -> forallb named content = true -> named (Element e a content) = true.
Proof. intros He Hc. cbn [named]. rewrite (stringEqb_false e "" He), Hc. reflexivity. Qed.

(** Under the initial policy, [-a] is an attribute key and [a] its name. *)
Lemma isAttrKey_default (a : string) : a <> "" -> isAttrKey defaults ("-" ++ a) = true.
Proof. destruct a as [|x a]; [contradiction|]. intros _. destruct a; reflexivity. Qed.

Lemma attrName_default (a : string) : attrName defaults ("-" ++ a) = a.
Proof.
  unfold attrName, lenAttrPrefix. cbn [attrPrefix defaults].
  apply (drop_append "-" a).
Qed.

Lemma decode_text_with_attribute (e a av t : string) :
  e <> "" -> GoStrings.Trim t defaultTrimRunes <> "" ->
  decodeElement defaults false
    (Element e [{| attrLocal := a; attrValue := av |}] [Text t])
  = Some [(e, VMap [("-" ++ a, VString av);
                    ("$", VString (GoStrings.Trim t defaultTrimRunes))])].
Proof.
  intros He Ht. rewrite decodeElement_Element.
  cbn [decodeItems normKey defaults lowerCase snakeCaseKeys loadAttrs fold_left attrKey attrVal
         attrLocal attrValue xmlEscapeCharsDecoder attrPrefix].
  unfold charData. cbn [xmlEscapeCharsDecoder defaults trimRunes].
  rewrite (len_pos _ Ht). reflexivity.
Qed.

Lemma decode_text_only (e t : string) :
  e <> "" -> GoStrings.Trim t defaultTrimRunes <> "" ->
  decodeElement defaults false (Element e [] [Text t])
  = Some [(e, VString (GoStrings.Trim t defaultTrimRunes))].
Proof.
  intros He Ht. rewrite decodeElement_Element.
  cbn [decodeItems normKey defaults lowerCase snakeCaseKeys loadAttrs fold_left].
  unfold charData. cbn [xmlEscapeCharsDecoder defaults trimRunes].
  rewrite (len_pos _ Ht). cbn. rewrite (stringEqb_false e "" He). reflexivity.
Qed.

Lemma encode_text_with_attribute (e a av tt : string) :
  a <> "" ->
  marshalMapToXmlIndent defaults false (VMap [("-" ++ a, VString av); ("$", VString tt)]) e
    (newPretty "" "") ""
  = ("<" ++ e ++ " " ++ a ++ "=" ++ dquote ++ av ++ dquote ++ ">" ++ tt ++ "</" ++ e ++ ">",
     None).
Proof.
  intros Ha. rewrite marshal_map.
  assert (Hscan : scanAttrs defaults [("-" ++ a, VString av); ("$", VString tt)]
                  = inl [(a, av)]).
  { cbn [scanAttrs]. rewrite (isAttrKey_default a Ha), attrName_default. reflexivity. }
  assert (Hget : mapGet "$" [("-" ++ a, VString av); ("$", VString tt)] = Some (VString tt))
    by reflexivity.
  rewrite Hscan. cbn [textK defaults]. rewrite Hget.
  cbn. unfold skip, dquote. repeat (progress (rewrite ?append_assoc; cbn)). reflexivity.
Qed.

End Shapes.

(** C2.  Under the initial policy, an element with an attribute and text
    decodes to a map with the attribute under "-a" and the text under "$";
    an element with text alone decodes to the text itself; and the map
    encodes to the element with the attribute and, inline, the text,
    whichever of its two entries comes first. *)
Theorem text_with_attributes {E : Externals} (e a av t : string) (fl : option string)
  (He : e <> "") (Ha : a <> "")
  (Ht : GoStrings.Trim t defaultTrimRunes <> "") :
  let tt := GoStrings.Trim t defaultTrimRunes in
  let xmlText := "<" ++ e ++ " " ++ a ++ "=" ++ dquote ++ av ++ dquote ++ ">" ++ tt
                 ++ "</" ++ e ++ ">" in
  xmlToMap defaults
    (stream [StartElement e [{| attrLocal := a; attrValue := av |}]; CharData t; EndElement e] fl)
    false
  = Returns (Some [(e, VMap [("-" ++ a, VString av); ("$", VString tt)])]) None (stream [] fl)
  /\ xmlToMap defaults (stream [StartElement e []; CharData t; EndElement e] fl) false
     = Returns (Some [(e, VString tt)]) None (stream [] fl)
  /\ Xml defaults [(e, VMap [("-" ++ a, VString av); ("$", VString tt)])] []
     = (Some xmlText, None)
  /\ Xml defaults [(e, VMap [("$", VString tt); ("-" ++ a, VString av)])] []
     = (Some xmlText, None).
Proof.
  intros tt xmlText.
  split.
  { change [StartElement e [{| attrLocal := a; attrValue := av |}]; CharData t; EndElement e]
      with (tokens (Element e [{| attrLocal := a; attrValue := av |}] [Text t])).
    rewrite (xmlToMap_document defaults eq_refl) by (apply named_element; auto).
    rewrite (decode_text_with_attribute e a av t He Ht). reflexivity. }
  split.
  { change [StartElement e []; CharData t; EndElement e]
      with (tokens (Element e [] [Text t])).
    rewrite (xmlToMap_document defaults eq_refl) by (apply named_element; auto).
    rewrite (decode_text_only e t He Ht). reflexivity. }
  assert (Hxml : Xml defaults [(e, VMap [("-" ++ a, VString av); ("$", VString tt)])] []
                 = (Some xmlText, None)).
  { unfold Xml. cbn [xmlRoot]. rewrite (encode_text_with_attribute e a av tt Ha). reflexivity. }
  split; [exact Hxml|].
  rewrite <- Hxml. unfold Xml. cbn [xmlRoot].
  assert (Hscan : scanAttrs defaults [("-" ++ a, VString av); ("$", VString tt)]
                  = inl [(a, av)]).
  { cbn [scanAttrs]. rewrite (isAttrKey_default a Ha), attrName_default. reflexivity. }
  rewrite (marshal_map_perm defaults false
             [("-" ++ a, VString av); ("$", VString tt)]
             [("$", VString tt); ("-" ++ a, VString av)] e (newPretty "" "") _
             ltac:(repeat constructor; simpl; intuition discriminate)
             (perm_swap _ _ _) Hscan).
  reflexivity.
Qed.

Lemma text_with_attributes_witness :
  xmlToMap defaults
    (stream [StartElement "e" [{| attrLocal := "a"; attrValue := "1" |}]; CharData "hi";
             EndElement "e"] None) false
  = Returns (Some [("e", VMap [("-a", @VString (@float64 exampleExternals) "1");
                               ("$", VString "hi")])]) None (stream [] None)
  /\ @Xml exampleExternals defaults [("e", VMap [("-a", VString "1"); ("$", VString "hi")])] []
     = (Some ("<e a=" ++ dquote ++ "1" ++ dquote ++ ">hi</e>"), None).
Proof.
  destruct (@text_with_attributes exampleExternals "e" "a" "1" "hi" None) as (H1 & _ & H3 & _);
    try discriminate.
  exact (conj H1 H3).
Defined.

Section EmptyElements.
Context {E : Externals}.
Variable c : Config.

Lemma blank_named (content : list xml) :
  forallb (blank c) content = true -> forallb named content = true.
Proof.
  induction content as [|x content IH]; [reflexivity|]. simpl.
  intros H. apply andb_prop in H. destruct H as [Hx Hc].
  rewrite (IH Hc). destruct x; [discriminate|reflexivity..].
Qed.

Lemma decodeItems_blank (r : bool) dec skey (content : list xml) n na seq :
  forallb (blank c) content = true ->
  decodeItems c r dec skey content n na seq = endElement c skey n na.
Proof.
  induction content as [|x content IH]; [reflexivity|]. simpl.
  intros H. apply andb_prop in H. destruct H as [Hx Hc].
  destruct x as [| data |]; [discriminate| |exact (IH Hc)].
  simpl in Hx. apply Nat.eqb_eq in Hx. rewrite Hx. exact (IH Hc).
Qed.

Lemma encode_empty_string (key : string) (p : pretty) (b : string) :
  escaped c "" = "" ->
  marshalMapToXmlIndent c false (VString "") key p b
  = (b ++ "<" ++ key ++ (if useGoXmlEmptyElemSyntax c then "></" ++ key ++ ">" else "/>"),
     None).
Proof.
  intros Hesc.
  change (marshalMapToXmlIndent c false (VString "") key p)
    with (openTag false key (VString "") p ;; marshalSimple c false key (VString "") p).
  unfold marshalSimple. rewrite Hesc.
  unfold andThen, openTag, closeTag, andThen, when, write, skip. cbn.
  destruct (useGoXmlEmptyElemSyntax c); cbn; rewrite !append_assoc; reflexivity.
Qed.

End EmptyElements.

(** C4.  An element without attributes whose content is nothing but
    character data that trims to nothing, comments and the like (the tokens
    of both <e></e> and <e/>: a start and an end) decodes to the empty string
    under its key; the empty string encodes to <e/>, and to <e></e> under
    the syntax of Go. *)
Theorem empty_element {E : Externals} (c : Config) (e : string) (content : list xml)
  (fl : option string) (r : bool)
  (HnoXMPP : handleXMPPStreamTag c = false)
  (He : e <> "")
  (Hblank : forallb (blank c) content = true)
  (Hesc : escaped c "" = "") :
  xmlToMap c (stream (tokens (Element e [] content)) fl) r
  = Returns (Some [(normKey c e, VString "")]) None (stream [] fl)
  /\ xmlToMap c (stream [StartElement e []; EndElement e] fl) r
     = Returns (Some [(normKey c e, VString "")]) None (stream [] fl)
  /\ (forall p b,
        marshalMapToXmlIndent c false (VString "") e p b
        = (b ++ "<" ++ e
             ++ (if useGoXmlEmptyElemSyntax c then "></" ++ e ++ ">" else "/>"), None))
  /\ Xml defaults [(e, VString "")] [] = (Some ("<" ++ e ++ "/>"), None)
  /\ Xml (withGoEmptyElemSyntax defaults) [(e, VString "")] []
     = (Some ("<" ++ e ++ "></" ++ e ++ ">"), None).
Proof.
  assert (Hdec : forall content, forallb (blank c) content = true ->
            xmlToMap c (stream (tokens (Element e [] content)) fl) r
            = Returns (Some [(normKey c e, VString "")]) None (stream [] fl)).
  { intros content0 Hb.
    rewrite (xmlToMap_document c HnoXMPP)
      by (apply named_element; [exact He|apply (blank_named c); exact Hb]).
    rewrite decodeElement_Element, (decodeItems_blank c r _ _ content0 _ _ _ Hb).
    reflexivity. }
  split; [apply Hdec; exact Hblank|].
  split; [apply (Hdec []); reflexivity|].
  split; [intros; apply encode_empty_string; exact Hesc|].
  split.
  - unfold Xml. cbn [xmlRoot]. rewrite (encode_empty_string defaults e _ _ eq_refl). reflexivity.
  - unfold Xml. cbn [xmlRoot].
    rewrite (encode_empty_string (withGoEmptyElemSyntax defaults) e _ _ eq_refl). reflexivity.
Qed.

Lemma empty_element_witness :
  xmlToMap defaults (stream [StartElement "e" []; CharData "  "; EndElement "e"] None) true
  = Returns (Some [("e", @VString (@float64 exampleExternals) "")]) None (stream [] None)
  /\ @Xml exampleExternals defaults [("e", VString "")] [] = (Some "<e/>", None)
  /\ @Xml exampleExternals (withGoEmptyElemSyntax defaults) [("e", VString "")] []
     = (Some "<e></e>", None).
Proof.
  destruct (@empty_element exampleExternals defaults "e" [Text "  "] None true
              eq_refl) as (H1 & _ & _ & H4 & H5); try reflexivity; try discriminate.
  exact (conj H1 (conj H4 H5)).
Defined.

(** ** The root tag *)

(** C5 (amended).  [Xml] and [XmlIndent] encode, under the tag
    and for the value that [xmlRoot] and [xmlIndentRoot] give: the one key
    and its value for a map of one entry when no tag is given, unless the
    value is a list, for [Xml] one with a member that is no map, for
    [XmlIndent] any list; the tag given, or "doc" when none or more than
    one is, and the whole map, in the other cases. *)
Theorem root_tag_resolution {E : Externals} (c : Config) (mv : gomap) (rootTag : list string)
  (prefix ind : string) :
  Xml c mv rootTag
  = checkIsValid c (marshalMapToXmlIndent c false (snd (xmlRoot mv rootTag))
                      (fst (xmlRoot mv rootTag)) (newPretty "" "") "")
  /\ XmlIndent c mv prefix ind rootTag
     = checkIsValid c (marshalMapToXmlIndent c true (snd (xmlIndentRoot mv rootTag))
                         (fst (xmlIndentRoot mv rootTag)) (newPretty prefix ind) "")
  /\ (forall key value,
        mv = [(key, value)] -> rootTag = [] ->
        (forall l, value = VList l -> hasNonMap l = false) ->
        xmlRoot mv rootTag = (key, value))
  /\ (forall key l,
        mv = [(key, VList l)] -> rootTag = [] -> hasNonMap l = true ->
        xmlRoot mv rootTag = (DefaultRootTag, VMap mv))
  /\ (forall key value,
        mv = [(key, value)] -> rootTag = [] -> isList value = false ->
        xmlIndentRoot mv rootTag = (key, value))
  /\ (forall key l,
        mv = [(key, VList l)] -> rootTag = [] ->
        xmlIndentRoot mv rootTag = (DefaultRootTag, VMap mv))
  /\ (forall tag,
        rootTag = [tag] ->
        xmlRoot mv rootTag = (tag, VMap mv) /\ xmlIndentRoot mv rootTag = (tag, VMap mv))
  /\ (length mv <> 1%nat -> rootTag = [] ->
        xmlRoot mv rootTag = (DefaultRootTag, VMap mv)
        /\ xmlIndentRoot mv rootTag = (DefaultRootTag, VMap mv))
  /\ ((2 <= length rootTag)%nat ->
        xmlRoot mv rootTag = (DefaultRootTag, VMap mv)
        /\ xmlIndentRoot mv rootTag = (DefaultRootTag, VMap mv)).
Proof.
  split; [unfold Xml; destruct (xmlRoot mv rootTag); reflexivity|].
  split; [unfold XmlIndent; destruct (xmlIndentRoot mv rootTag); reflexivity|].
  split.
  { intros key value -> -> Hl. simpl. destruct value; try reflexivity.
    rewrite (Hl l eq_refl). reflexivity. }
  split; [intros key l -> -> Hl; simpl; rewrite Hl; reflexivity|].
  split; [intros key value -> -> Hl; destruct value; try reflexivity; discriminate|].
  split; [intros key l -> ->; reflexivity|].
  split; [intros tag ->; destruct mv as [|[k v] [|x m]]; split; reflexivity|].
  split.
  { intros Hlen ->. destruct mv as [|[k v] [|x m]]; try (split; reflexivity).
    exfalso. apply Hlen. reflexivity. }
  intros Hlen. destruct rootTag as [|t1 [|t2 ts]]; simpl in Hlen; try lia.
  destruct mv as [|[k v] [|x m]]; split; reflexivity.
Qed.

Lemma root_tag_resolution_witness :
  @xmlRoot exampleExternals [("k", VList [VMap [("a", VString "1")]])] []
  = ("k", VList [VMap [("a", VString "1")]])
  /\ @xmlIndentRoot exampleExternals [("k", VList [VMap [("a", VString "1")]])] []
     = ("doc", VMap [("k", VList [VMap [("a", VString "1")]])]).
Proof.
  destruct (@root_tag_resolution exampleExternals defaults
              [("k", VList [VMap [("a", VString "1")]])] [] "" "")
    as (_ & _ & H3 & _ & _ & H6 & _).
  split.
  - apply (H3 "k" (VList [VMap [("a", VString "1")]]) eq_refl eq_refl).
    intros l Hl. inversion Hl. reflexivity.
  - apply (H6 "k" [VMap [("a", VString "1")]] eq_refl eq_refl).
Defined.

(** C5 (counterexample).  [XmlIndent] encodes a map of one entry whose
    value is a list of maps only under "doc", and not under its key as [Xml]
    does. *)
Lemma xmlIndent_list_of_maps_under_doc :
  hasNonMap [@VMap (@float64 exampleExternals) [("a", VString "1")]] = false
  /\ @Xml exampleExternals defaults [("k", VList [VMap [("a", VString "1")]])] []
     = (Some "<k><a>1</a></k>", None)
  /\ @XmlIndent exampleExternals defaults [("k", VList [VMap [("a", VString "1")]])] "" " " []
     = (Some ("<doc>" ++ newline ++ " <k>" ++ newline ++ "  <a>1</a>" ++ newline
              ++ " </k>" ++ newline ++ "</doc>"), None).
Proof. repeat split; reflexivity. Qed.

(** ** The check of the encoded bytes *)

(** C9.  With the check, [Xml] and [XmlIndent] return what the tokenizer
    finds in the bytes written: its error and no bytes, or the bytes and no
    error.  The error of the encoding itself is not looked at: a map whose
    only value is a struct that [xml.Marshal] refuses is an error without
    the check, and with it the empty document and no error. *)
Theorem validity_check_drops_encode_error {E : Externals} (msg : string)
  (Hempty : xmlTokens "" = None) :
  (forall c b err, xmlCheckIsValid c = true ->
      checkIsValid c (b, err)
      = match xmlTokens b with
        | Some e => (None, Some (ErrorString e))
        | None => (Some b, None)
        end)
  /\ Xml defaults [("a", VStruct (inr msg))] [] = (Some "", Some (ErrorString msg))
  /\ Xml (withCheckIsValid defaults) [("a", VStruct (inr msg))] [] = (Some "", None)
  /\ XmlIndent defaults [("a", VStruct (inr msg))] "" " " [] = (Some "", Some (ErrorString msg))
  /\ XmlIndent (withCheckIsValid defaults) [("a", VStruct (inr msg))] "" " " []
     = (Some "", None).
Proof.
  split; [intros c b err Hc; unfold checkIsValid; rewrite Hc; reflexivity|].
  split; [reflexivity|]. split; [|split; [reflexivity|]].
  - unfold Xml, checkIsValid. cbn. rewrite Hempty. reflexivity.
  - unfold XmlIndent, checkIsValid. cbn. rewrite Hempty. reflexivity.
Qed.

Lemma validity_check_drops_encode_error_witness :
  @Xml exampleExternals defaults [("a", VStruct (inr "xml: unsupported type: func()"))] []
  = (Some "", Some (ErrorString "xml: unsupported type: func()"))
  /\ @Xml exampleExternals (withCheckIsValid defaults)
       [("a", VStruct (inr "xml: unsupported type: func()"))] []
     = (Some "", None).
Proof.
  destruct (@validity_check_drops_encode_error exampleExternals
              "xml: unsupported type: func()" eq_refl) as (_ & H2 & H3 & _).
  exact (conj H2 H3).
Defined.

(* ================================================================== *)
(** * Further properties *)

(** ** pretty *)

Lemma Outdent_Indent (p : pretty) : Outdent (Indent p) = p.
Proof.
  destruct p as [ind n pad d st]. unfold Outdent, Indent.
  cbn [cnt padding indent mapDepth start Nat.ltb Nat.leb].
  rewrite Nat.sub_1_r. cbn [Nat.pred]. f_equal.
  replace (GoStrings.len (pad ++ ind) - GoStrings.len ind)%nat with (GoStrings.len pad)
    by (unfold GoStrings.len; rewrite length_append; lia).
  apply take_append.
Qed.

(** X1.  [Outdent] undoes [Indent], any number of times over, and at
    depth 0 it does nothing: from the state that [XmlIndent] starts with,
    no number of further calls goes below it. *)
Theorem indent_outdent_round_trip (n k : nat) (p : pretty) (prefix ind : string) :
  Nat.iter n Outdent (Nat.iter n Indent p) = p
  /\ cnt (Nat.iter n Indent p) = (cnt p + n)%nat
  /\ Nat.iter (n + k) Outdent (Nat.iter n Indent (newPretty prefix ind))
     = newPretty prefix ind.
Proof.
  assert (Hrt : forall n p, Nat.iter n Outdent (Nat.iter n Indent p) = p).
  { clear. intros n. induction n as [|n IH]; intros p; [reflexivity|].
    change (Nat.iter (S n) Indent p) with (Indent (Nat.iter n Indent p)).
    rewrite Nat.iter_succ_r, Outdent_Indent. apply IH. }
  split; [apply Hrt|]. split.
  - induction n as [|n IH]; [simpl; lia|].
    change (Nat.iter (S n) Indent p) with (Indent (Nat.iter n Indent p)).
    unfold Indent at 1. cbn [cnt]. lia.
  - rewrite Nat.add_comm, Nat.iter_add, Hrt.
    induction k as [|k IH]; [reflexivity|]. rewrite Nat.iter_succ, IH. reflexivity.
Qed.

(** ** The outermost call of the parser *)

Section TopLevel.
Context {E : Externals}.
Variable c : Config.

Lemma normKey_nil : normKey c "" = "".
Proof. unfold normKey. destruct (lowerCase c), (snakeCaseKeys c); reflexivity. Qed.

(** [xmlToMap] is the loop of the outermost call, with nil maps. *)
Lemma xmlToMap_loop (p : Decoder) (r : bool) :
  xmlToMap c p r = parseTokens c (2 * length (pending p) + 1) "" None None 0 p r.
Proof.
  unfold xmlToMap, fuelFor.
  replace (2 * length (pending p) + 2)%nat with (S (2 * length (pending p) + 1)) by lia.
  rewrite xmlToMapParser_S. cbv zeta. rewrite normKey_nil.
  change ("" =? "stream") with false. rewrite andb_false_r. reflexivity.
Qed.

(** Any run of the loop that ends gives the result of [xmlToMap]. *)
Lemma xmlToMap_by_fuel (fuel : nat) (p : Decoder) (r : bool) (o : outcome) :
  parseTokens c fuel "" None None 0 p r = o -> o <> OutOfFuel -> xmlToMap c p r = o.
Proof.
  intros Hrun Ho. rewrite xmlToMap_loop.
  destruct (Nat.le_ge_cases fuel (2 * length (pending p) + 1)) as [Hle|Hle].
  - rewrite (parseTokens_more_fuel c _ _ _ _ _ _ _ _ Hle); congruence.
  - rewrite <- Hrun. symmetry. apply parseTokens_more_fuel; [exact Hle|].
    apply parser_total. lia.
Qed.

Lemma passedOver_step (fuel : nat) (t : Token) (l : list Token) (fl : option string)
  (r : bool) :
  passedOver c t = true ->
  parseTokens c (S fuel) "" None None 0 (stream (t :: l) fl) r
  = parseTokens c fuel "" None None 0 (stream l fl) r.
Proof.
  intros Ht. rewrite parseTokens_S.
  change (nextToken (stream (t :: l) fl)) with (@inl _ (option string) (t, stream l fl)).
  destruct t as [local attr|local|data|]; try discriminate; [|reflexivity].
  cbv zeta. cbn [passedOver] in Ht.
  destruct (0 <? GoStrings.len (charData c data))%nat eqn:Hlen; [|reflexivity].
  apply Nat.ltb_lt in Hlen.
  destruct (GoStrings.len (charData c data) =? 0)%nat eqn:H0;
    [apply Nat.eqb_eq in H0; lia|].
  cbn [orb] in Ht. apply negb_true_iff in Ht. rewrite Ht. reflexivity.
Qed.

Lemma xmlToMap_passedOver (pre l : list Token) (fl : option string) (r : bool) :
  forallb (passedOver c) pre = true ->
  xmlToMap c (stream (pre ++ l)%list fl) r = xmlToMap c (stream l fl) r.
Proof.
  induction pre as [|t pre IH]; [reflexivity|].
  cbn [forallb]. intros H. apply andb_prop in H. destruct H as [Ht Hpre].
  rewrite <- (IH Hpre). cbn [app].
  apply xmlToMap_by_fuel with (fuel := S (2 * length (pre ++ l)%list + 1)).
  - rewrite passedOver_step by exact Ht. symmetry. apply xmlToMap_loop.
  - apply xmlToMap_ends.
Qed.

End TopLevel.

(** X2.  Ahead of the first start tag the decoder passes over comments,
    processing instructions, directives and character data that trims to
    nothing, and, unless [decodeSimpleValuesAsMap] is set, over any other
    character data: the result is that of the stream without them.  A
    stream of nothing else gives no map and the error of the tokenizer,
    which is [io.EOF] at the end of the input. *)
Theorem leading_tokens_passed_over {E : Externals} (c : Config) (pre l : list Token)
  (fl : option string) (r : bool) :
  forallb (passedOver c) pre = true ->
  xmlToMap c (stream (pre ++ l)%list fl) r = xmlToMap c (stream l fl) r
  /\ xmlToMap c (stream pre fl) r = Returns None (Some (tokenError fl)) (stream [] fl).
Proof.
  intros H. split; [apply xmlToMap_passedOver; exact H|].
  rewrite <- (app_nil_r pre), xmlToMap_passedOver by exact H.
  rewrite xmlToMap_loop. apply (parseTokens_at_error c 0). reflexivity.
Qed.

Lemma leading_tokens_passed_over_witness :
  xmlToMap defaults (stream ([OtherToken; CharData " "; CharData "x"]
                            ++ tokens (Element "a" [] []))%list None) true
  = xmlToMap defaults (stream (tokens (Element "a" [] [])) None) true
  /\ xmlToMap defaults (stream [OtherToken; CharData " "; CharData "x"] None) true
     = Returns None (Some EOF) (stream [] None).
Proof.
  apply (leading_tokens_passed_over defaults [OtherToken; CharData " "; CharData "x"]
           (tokens (Element "a" [] [])) None true).
  reflexivity.
Defined.

Lemma top_level_text_panics {E : Externals} (c : Config) (l : list Token) (data : string)
  (fl : option string) (r : bool) :
  decodeSimpleValuesAsMap c = true -> charData c data <> "" ->
  xmlToMap c (stream (CharData data :: l) fl) r = Panics.
Proof.
  intros Hd Hne. apply xmlToMap_by_fuel with (fuel := 1%nat); [|discriminate].
  rewrite parseTokens_S.
  change (nextToken (stream (CharData data :: l) fl))
    with (@inl _ (option string) (CharData data, stream l fl)).
  cbv beta iota zeta. rewrite (len_pos _ Hne), Hd, orb_true_r. reflexivity.
Qed.

(** X3.  After [DecodeSimpleValuesAsMap(true)], character data ahead of
    the first start tag that does not trim to nothing makes the decoder
    panic: the outermost call stores it in its nil map. *)
Theorem stray_text_panics {E : Externals} (c : Config) (pre l : list Token) (data : string)
  (fl : option string) (r : bool) :
  forallb (passedOver (DecodeSimpleValuesAsMap [true] c)) pre = true ->
  charData c data <> "" ->
  xmlToMap (DecodeSimpleValuesAsMap [true] c) (stream (pre ++ CharData data :: l)%list fl) r
  = Panics.
Proof.
  intros Hpre Hne. rewrite xmlToMap_passedOver by exact Hpre.
  apply top_level_text_panics; [reflexivity|exact Hne].
Qed.

Lemma stray_text_panics_witness :
  xmlToMap (DecodeSimpleValuesAsMap [true] defaults)
    (stream ([OtherToken] ++ CharData "x" :: tokens (Element "a" [] []))%list None) false
  = Panics.
Proof.
  apply stray_text_panics; [reflexivity|discriminate].
Defined.

Section Documents.
Context {E : Externals}.
Variable c : Config.
Hypothesis noXMPP : handleXMPPStreamTag c = false.

(** The decoder on a stream that starts with a document. *)
Lemma xmlToMap_document_rest (r : bool) (l : string) (a : list Attr) (content : list xml)
  (rest : list Token) (fl : option string) :
  named (Element l a content) = true ->
  xmlToMap c (stream (tokens (Element l a content) ++ rest)%list fl) r
  = returned (decodeElement c r (Element l a content)) (stream rest fl).
Proof.
  intros Hn. destruct (parser_decodeElement c noXMPP r _ Hn rest fl) as [f0 H0].
  apply xmlToMap_by_fuel with (fuel := S f0); [|apply returned_not_OutOfFuel].
  rewrite parseTokens_S. cbn [tokens app]. rewrite <- app_assoc. cbn [app].
  change (nextToken (stream (StartElement l a
                               :: (flat_map tokens content ++ EndElement l :: rest)%list) fl))
    with (@inl _ (option string)
            (StartElement l a, stream (flat_map tokens content ++ EndElement l :: rest)%list fl)).
  cbn [String.eqb]. apply H0. lia.
Qed.

Lemma document_decodes (r : bool) (x : xml) :
  document x = true ->
  exists l a content v,
    x = Element l a content
    /\ decodeElement c r x = Some [(normKey c l, v)] /\ isList v = false.
Proof.
  destruct x as [l a content| |]; try discriminate. cbn [document]. intros Hn.
  destruct (decodeElement_ok c r _ Hn) as (v & Hv & Hl).
  exists l, a, content, v. auto.
Qed.

End Documents.

(** X4.  From a stream that holds a well-nested document, after tokens
    that are passed over, the decoder returns a map with one entry, under
    the name of the root element as the key switches coerce it, and no
    error; it does not panic, and it leaves the decoder at the token that
    follows the end tag of the root. *)
Theorem decode_consumes_one_document {E : Externals} (c : Config) (r : bool)
  (pre rest : list Token) (l : string) (a : list Attr) (content : list xml)
  (fl : option string) :
  handleXMPPStreamTag c = false ->
  forallb (passedOver c) pre = true ->
  named (Element l a content) = true ->
  exists v,
    xmlToMap c (stream (pre ++ tokens (Element l a content) ++ rest)%list fl) r
    = Returns (Some [(normKey c l, v)]) None (stream rest fl)
    /\ isList v = false.
Proof.
  intros Hx Hpre Hn. destruct (decodeElement_ok c r _ Hn) as (v & Hv & Hl).
  exists v. split; [|exact Hl].
  rewrite xmlToMap_passedOver by exact Hpre.
  rewrite xmlToMap_document_rest by assumption. rewrite Hv. reflexivity.
Qed.

Lemma decode_consumes_one_document_witness :
  exists v : @any exampleExternals,
    xmlToMap defaults
      (stream ([OtherToken; CharData " "]
               ++ tokens (Element "a" [] [Text "x"]) ++ [CharData " "; StartElement "b" []])%list
         None) false
    = Returns (Some [(normKey defaults "a", v)]) None
        (stream [CharData " "; StartElement "b" []] None)
    /\ isList v = false.
Proof.
  apply (decode_consumes_one_document defaults false [OtherToken; CharData " "]
           [CharData " "; StartElement "b" []] "a" [] [Text "x"] None); reflexivity.
Defined.

(** X5.  After [HandleXMPPStreamTag(true)], an element that opens the
    stream under the name "stream" is returned at its start tag: the map
    holds its attributes under "stream", and the decoder is left at the
    token after the start tag, the content of the element still to come. *)
Theorem xmpp_stream_tag_returns_at_start {E : Externals} (c : Config) (r : bool)
  (pre rest : list Token) (local : string) (attr : list Attr) (fl : option string) :
  normKey c local = "stream" ->
  forallb (passedOver c) pre = true ->
  xmlToMap (HandleXMPPStreamTag [true] c) (stream (pre ++ StartElement local attr :: rest)%list fl)
    r
  = Returns (Some [("stream", VMap (loadAttrs c attr r []))]) None (stream rest fl).
Proof.
  intros Hk Hpre.
  rewrite (xmlToMap_passedOver (HandleXMPPStreamTag [true] c)) by exact Hpre.
  apply xmlToMap_by_fuel with (fuel := 2%nat); [|discriminate].
  rewrite parseTokens_S.
  change (nextToken (stream (StartElement local attr :: rest) fl))
    with (@inl _ (option string) (StartElement local attr, stream rest fl)).
  cbv beta iota. cbn [String.eqb]. rewrite xmlToMapParser_S. cbv zeta.
  change (normKey (HandleXMPPStreamTag [true] c) local) with (normKey c local).
  rewrite Hk. reflexivity.
Qed.

Lemma xmpp_stream_tag_returns_at_start_witness :
  xmlToMap (HandleXMPPStreamTag [true] defaults)
    (stream ([OtherToken] ++ StartElement "stream" [{| attrLocal := "to"; attrValue := "x" |}]
               :: tokens (Element "message" [] []))%list None) false
  = Returns (Some [("stream", VMap (loadAttrs defaults
                                      [{| attrLocal := "to"; attrValue := "x" |}] false []))])
      None (stream (tokens (Element "message" [] [])) None).
Proof.
  apply xmpp_stream_tag_returns_at_start; reflexivity.
Defined.

(** ** HandleXmlReader on a stream of documents *)

Section HandlerOnDocuments.
Context {E : Externals}.
Variable c : Config.
Hypothesis noXMPP : handleXMPPStreamTag c = false.
Variable mapHandler : gomap -> bool.
Variable errHandler : error -> bool.
Variable fl : option string.

Lemma NewMapXmlReader_document (x : xml) (rest : list Token) :
  document x = true ->
  exists m, decodeElement c false x = Some m /\ m <> []
    /\ NewMapXmlReader c (stream (tokens x ++ rest)%list fl)
       = Returns (Some m) None (stream rest fl).
Proof.
  intros Hd. destruct (document_decodes c false x Hd) as (l & a & content & v & -> & Hv & _).
  exists [(normKey c l, v)]. split; [exact Hv|]. split; [discriminate|].
  unfold NewMapXmlReader. rewrite xmlToMap_document_rest by assumption.
  rewrite Hv. reflexivity.
Qed.

Lemma NewMapXmlReader_end :
  NewMapXmlReader c (stream [] fl) = Returns None (Some (tokenError fl)) (stream [] fl).
Proof.
  unfold NewMapXmlReader. rewrite xmlToMap_loop. apply (parseTokens_at_error c 0). reflexivity.
Qed.

(** At the end of the input the loop ends. *)
Lemma handleLoop_eof (fuel : nat) (docs : list xml) (n : Z) :
  fl = None ->
  forallb document docs = true ->
  (length docs < fuel)%nat ->
  handleLoop c fuel (stream (flat_map tokens docs) fl) mapHandler errHandler n = Some None.
Proof.
  intros Hfl. revert fuel n. induction docs as [|x docs IH]; intros [|fuel] n Hd Hf;
    cbn [length] in Hf; try lia.
  - cbn [handleLoop flat_map NewDecoder behind readerOf ahead last]. rewrite NewMapXmlReader_end, Hfl. reflexivity.
  - cbn [forallb] in Hd. apply andb_prop in Hd. destruct Hd as [Hx Hd].
    cbn [handleLoop flat_map NewDecoder behind readerOf ahead last].
    destruct (NewMapXmlReader_document x (flat_map tokens docs) Hx) as (m & _ & Hm & ->).
    destruct m as [|e m]; [contradiction|].
    destruct (mapHandler (e :: m)); [|reflexivity].
    apply IH; [exact Hd|lia].
Qed.

(** After an error, when the maps are all accepted and the error is not. *)
Lemma handleLoop_count (fuel : nat) (docs : list xml) (n : Z) (msg : string) :
  fl = Some msg ->
  forallb document docs = true ->
  (forall x m, In x docs -> decodeElement c false x = Some m -> mapHandler m = true) ->
  (forall e, errHandler e = false) ->
  (length docs < fuel)%nat ->
  handleLoop c fuel (stream (flat_map tokens docs) fl) mapHandler errHandler n
  = Some (Some (readerError (n + Z.of_nat (length docs) + 1) (tokenError fl))).
Proof.
  intros Hfl. revert fuel n. induction docs as [|x docs IH]; intros [|fuel] n Hd Hm He Hf;
    cbn [length] in Hf; try lia.
  - cbn [handleLoop flat_map NewDecoder behind readerOf ahead last]. rewrite NewMapXmlReader_end, Hfl. cbn [tokenError].
    rewrite He. cbn [length Z.of_nat]. rewrite Z.add_0_r. reflexivity.
  - cbn [forallb] in Hd. apply andb_prop in Hd. destruct Hd as [Hx Hd].
    cbn [handleLoop flat_map NewDecoder behind readerOf ahead last].
    destruct (NewMapXmlReader_document x (flat_map tokens docs) Hx) as (m & Hdec & Hne & ->).
    assert (Hacc : mapHandler m = true) by (apply (Hm x); [left; reflexivity|exact Hdec]).
    destruct m as [|e m]; [contradiction|]. rewrite Hacc.
    rewrite IH; [|exact Hd|intros y m' Hy; apply Hm; right; exact Hy|exact He|lia].
    do 3 f_equal. cbn [length]. lia.
Qed.

End HandlerOnDocuments.

(** X6.  [HandleXmlReader] on a reader that holds documents one after the
    other.  When the input ends after them the function returns nil,
    whatever the handlers answer.  When the reader fails after them, the
    map handler accepts every map and the error handler answers [false],
    it returns the error of the reader under the number of the decode
    that met it, which is the number of documents plus one. *)
Theorem handler_counts_documents {E : Externals} (c : Config) (fuel : nat)
  (docs : list xml) (mapHandler : gomap -> bool) (errHandler : error -> bool) (msg : string) :
  handleXMPPStreamTag c = false ->
  forallb document docs = true ->
  (length docs < fuel)%nat ->
  (forall x m, In x docs -> decodeElement c false x = Some m -> mapHandler m = true) ->
  (forall e, errHandler e = false) ->
  (forall mh eh, HandleXmlReader c fuel (stream (flat_map tokens docs) None) mh eh
                 = Some None)
  /\ HandleXmlReader c fuel (stream (flat_map tokens docs) (Some msg)) mapHandler errHandler
     = Some (Some (ErrorString ("[xmlReader: "
                                ++ Strconv.itoa (Z.of_nat (length docs) + 1) ++ "] "
                                ++ "xml.Decoder.Token() - " ++ msg))).
Proof.
  intros Hx Hd Hf Hm He. unfold HandleXmlReader. split.
  - intros mh eh. apply handleLoop_eof; auto.
  - rewrite (handleLoop_count c Hx _ _ (Some msg) fuel docs 0 msg); auto.
Qed.

Lemma handler_counts_documents_witness :
  (forall mh eh,
      HandleXmlReader defaults 3
        (stream (flat_map tokens [Element "a" [] []; Element "b" [] [Text "x"]]) None) mh eh
      = Some None)
  /\ HandleXmlReader defaults 3
       (stream (flat_map tokens [Element "a" [] []; Element "b" [] [Text "x"]])
          (Some "unexpected EOF"))
       (fun _ => true) (fun _ => false)
     = Some (Some (ErrorString ("[xmlReader: "
                                ++ Strconv.itoa (Z.of_nat 2 + 1) ++ "] "
                                ++ "xml.Decoder.Token() - " ++ "unexpected EOF"))).
Proof.
  apply (handler_counts_documents defaults 3 [Element "a" [] []; Element "b" [] [Text "x"]]
           (fun _ => true) (fun _ => false) "unexpected EOF");
    [reflexivity|reflexivity|simpl; lia|reflexivity|reflexivity].
Defined.

(** ** The strings that cast to booleans *)

Section CastBool.
Context {E : Externals}.
Variable c : Config.

Lemma ParseBool_words (s : string) (b : bool) :
  boolScreen s = true -> Strconv.ParseBool s = Some b -> In s (boolWords b).
Proof.
  unfold Strconv.ParseBool. cbn [existsb].
  repeat match goal with
         | |- context [String.eqb s ?w] =>
             destruct (String.eqb_spec s w);
             [subst s; cbn; intros Hs Hb; try discriminate Hs; inversion Hb; subst b; cbn; tauto|]
         end.
  cbn. intros _ H. discriminate H.
Qed.

Lemma cast_VBool (s : string) (r : bool) (t : string) (b : bool) :
  cast c s r t = VBool b -> r = true /\ castToBool c = true /\ In s (boolWords b).
Proof.
  unfold cast. destruct (skipTag c t); [discriminate|].
  destruct r; [|discriminate].
  destruct (negb (castNanInf c) && isNanInf s); [discriminate|].
  unfold castNumeric, castFloat, castBool.
  destruct (castToInt c);
    [destruct (Strconv.ParseInt s); [discriminate|];
     destruct (Strconv.ParseUint s); [discriminate|]|].
  all: destruct (if castToFloat c then ParseFloat s else None); [discriminate|].
  all: destruct (castToBool c); [|discriminate].
  all: destruct ((0 <? GoStrings.len s)%nat && (GoStrings.len s <? 6)%nat); [|discriminate].
  all: destruct (boolScreen s) eqn:Hs; [|discriminate].
  all: destruct (Strconv.ParseBool s) as [b'|] eqn:Hb; [|discriminate].
  all: intros H; inversion H; subst b'; auto using ParseBool_words.
Qed.

End CastBool.

(** X7.  The strings that the caster turns into a boolean are t, T, TRUE,
    true, True and f, F, FALSE, false, False, and no others, whatever the
    configuration, the tag and what [strconv.ParseFloat] reads; and it does
    so only when the cast is asked for, [castToBool] is on and the tag is
    not skipped.  "1" and "0", which [strconv.ParseBool] reads, never become
    booleans.  Each of the ten becomes its boolean when the cast is asked
    for, [castToBool] is on, the tag is not skipped and the string does not
    parse as a float. *)
Theorem cast_bool_words {E : Externals} (c : Config) (s t : string) (r b : bool) :
  (cast c s r t = VBool b ->
   In s (boolWords b) /\ r = true /\ castToBool c = true /\ skipTag c t = false)
  /\ cast c "1" r t <> VBool b
  /\ cast c "0" r t <> VBool b
  /\ (In s (boolWords b) -> r = true -> castToBool c = true -> skipTag c t = false ->
      ParseFloat s = None -> cast c s r t = VBool b).
Proof.
  split.
  { intros H. destruct (cast_VBool c s r t b H) as (Hr & Hb & Hin).
    repeat split; try assumption.
    unfold cast in H. destruct (skipTag c t); [discriminate H|reflexivity]. }
  split.
  { intros H. destruct (cast_VBool c "1" r t b H) as (_ & _ & Hin).
    destruct b; cbn in Hin; intuition discriminate. }
  split.
  { intros H. destruct (cast_VBool c "0" r t b H) as (_ & _ & Hin).
    destruct b; cbn in Hin; intuition discriminate. }
  intros Hin -> Hb Hs Hf. unfold cast. rewrite Hs.
  assert (Hcases : exists w, s = w /\ In w (boolWords b)) by eauto.
  destruct Hcases as (w & -> & Hw).
  unfold castNumeric, castFloat, castBool. rewrite Hb, Hf.
  destruct (castToFloat c), (castToInt c), (castNanInf c);
    destruct b; cbn [boolWords In] in Hw;
    repeat (destruct Hw as [<-|Hw]; [reflexivity|]); destruct Hw.
Qed.

Lemma cast_bool_words_witness :
  cast defaults "True" true "k" = @VBool (@float64 exampleExternals) true
  /\ cast defaults "1" true "k" <> @VBool (@float64 exampleExternals) true
  /\ cast defaults "0" true "k" <> @VBool (@float64 exampleExternals) true.
Proof.
  destruct (@cast_bool_words exampleExternals defaults "True" "k" true true)
    as (_ & H1 & H0 & Hword).
  split; [|split; assumption].
  apply Hword; try reflexivity. cbn. tauto.
Defined.

(** ** The attributes of an element *)

Section Attributes.
Context {E : Externals}.
Variable c : Config.
Variable r : bool.

Lemma loadAttrs_snoc (a : list Attr) (v : Attr) (m : gomap) :
  loadAttrs c (a ++ [v]) r m
  = mapSet (attrKey c v) (cast c (attrVal c v) r (attrKey c v)) (loadAttrs c a r m).
Proof. unfold loadAttrs. rewrite fold_left_app. reflexivity. Qed.

Lemma loadAttrs_get (a : list Attr) (k : string) :
  mapGet k (loadAttrs c a r [])
  = option_map (fun v => cast c (attrVal c v) r k) (lastAttr c k a).
Proof.
  induction a as [|v a IH] using rev_ind; [reflexivity|].
  rewrite loadAttrs_snoc. unfold lastAttr. rewrite rev_app_distr. cbn [rev app find].
  destruct (String.eqb_spec (attrKey c v) k) as [Hk|Hk].
  - rewrite Hk, mapGet_mapSet_same. reflexivity.
  - rewrite mapGet_mapSet_other by exact Hk. exact IH.
Qed.

Lemma loadAttrs_NoDup (a : list Attr) : NoDup (keys (loadAttrs c a r [])).
Proof.
  induction a as [|v a IH] using rev_ind; [constructor|].
  rewrite loadAttrs_snoc. apply NoDup_mapSet. exact IH.
Qed.

Lemma loadAttrs_length (a : list Attr) :
  a <> [] -> (0 < length (loadAttrs c a r []))%nat.
Proof.
  destruct a as [|v a] using rev_ind; [contradiction|]. intros _.
  rewrite loadAttrs_snoc. apply mapSet_length.
Qed.

Lemma loadAttrs_nil_length (a : list Attr) :
  (0 <? length (loadAttrs c a r []))%nat = negb (match a with [] => true | _ => false end).
Proof.
  destruct a as [|v a]; [reflexivity|]. cbn [negb]. apply Nat.ltb_lt.
  apply loadAttrs_length. discriminate.
Qed.

End Attributes.

(** X8.  An element with attributes and no content but character data
    that trims to nothing, comments and the like decodes to the map of its
    attributes.  The keys of that map are distinct: each is the prefix and
    the name of an attribute, as the key switches coerce them, and where two
    attributes come to the same key the value is that of the last. *)
Theorem attributes_only_element {E : Externals} (c : Config) (r : bool) (l : string)
  (a : list Attr) (content : list xml) (fl : option string) :
  handleXMPPStreamTag c = false ->
  l <> "" -> a <> [] -> forallb (blank c) content = true ->
  xmlToMap c (stream (tokens (Element l a content)) fl) r
  = Returns (Some [(normKey c l, VMap (loadAttrs c a r []))]) None (stream [] fl)
  /\ NoDup (keys (loadAttrs c a r []))
  /\ forall k, mapGet k (loadAttrs c a r [])
               = option_map (fun v => cast c (attrVal c v) r k) (lastAttr c k a).
Proof.
  intros Hx Hl Ha Hb. split; [|split; [apply loadAttrs_NoDup|apply loadAttrs_get]].
  rewrite (xmlToMap_document c Hx)
    by (apply named_element; [exact Hl|apply (blank_named c); exact Hb]).
  rewrite decodeElement_Element, (decodeItems_blank c r _ _ content _ _ _ Hb).
  unfold endElement. cbn [mlen length Nat.eqb].
  rewrite (proj2 (Nat.ltb_lt _ _) (loadAttrs_length c r a Ha)). reflexivity.
Qed.

Lemma attributes_only_element_witness :
  xmlToMap defaults
    (stream (tokens (Element "e" [{| attrLocal := "a"; attrValue := "1" |};
                                  {| attrLocal := "a"; attrValue := "2" |}] [Text " "])) None)
    false
  = Returns (Some [(normKey defaults "e",
                    VMap (loadAttrs defaults [{| attrLocal := "a"; attrValue := "1" |};
                                              {| attrLocal := "a"; attrValue := "2" |}]
                            false []))]) None (stream [] None)
  /\ NoDup (keys (loadAttrs defaults [{| attrLocal := "a"; attrValue := "1" |};
                                      {| attrLocal := "a"; attrValue := "2" |}] false []))
  /\ forall k, mapGet k (loadAttrs defaults [{| attrLocal := "a"; attrValue := "1" |};
                                             {| attrLocal := "a"; attrValue := "2" |}]
                           false [])
               = option_map (fun v => cast defaults (attrVal defaults v) false k)
                   (lastAttr defaults k [{| attrLocal := "a"; attrValue := "1" |};
                                         {| attrLocal := "a"; attrValue := "2" |}]).
Proof.
  apply (attributes_only_element defaults false "e"
           [{| attrLocal := "a"; attrValue := "1" |}; {| attrLocal := "a"; attrValue := "2" |}]
           [Text " "] None); [reflexivity|discriminate|discriminate|reflexivity].
Defined.

(** ** Character data *)

Section TextContent.
Context {E : Externals}.
Variable c : Config.
Variable r : bool.

Lemma mapSet_mapSet (k : string) (v v' : any) (m : gomap) :
  mapSet k v (mapSet k v' m) = mapSet k v m.
Proof.
  induction m as [|[k0 v0] m IH]; cbn [mapSet].
  - rewrite String.eqb_refl. reflexivity.
  - destruct (k0 =? k) eqn:Hk; cbn [mapSet].
    + rewrite String.eqb_refl. reflexivity.
    + rewrite Hk, IH. reflexivity.
Qed.

Lemma noElements_named (content : list xml) :
  noElements content = true -> forallb named content = true.
Proof.
  induction content as [|x content IH]; [reflexivity|]. cbn [noElements forallb].
  intros H. apply andb_prop in H. destruct H as [Hx Hc].
  fold (noElements content) in Hc. rewrite (IH Hc). destruct x; [discriminate|reflexivity..].
Qed.

(** The text kept in [na], over [attrs]. *)
Let withText (attrs : gomap) (cur : option string) : gomap :=
  match cur with
  | Some txt => mapSet (textK c) (cast c txt r (textK c)) attrs
  | None => attrs
  end.

Lemma decodeItems_text_map dec (skey : string) (attrs : gomap) (content : list xml)
  (cur : option string) (seq : Z) :
  (0 <? length attrs)%nat || decodeSimpleValuesAsMap c = true ->
  noElements content = true ->
  decodeItems c r dec skey content (Some []) (Some (withText attrs cur)) seq
  = endElement c skey (Some []) (Some (withText attrs (lastTextFrom c cur content))).
Proof.
  intros Hmode. revert cur. induction content as [|x content IH]; intros cur Hc;
    [reflexivity|].
  cbn [noElements forallb] in Hc. apply andb_prop in Hc. destruct Hc as [Hx Hc].
  fold (noElements content) in Hc.
  destruct x as [| data |]; [discriminate| |exact (IH cur Hc)].
  cbn [decodeItems]. cbv zeta. unfold lastTextFrom. cbn [fold_left].
  fold (lastTextFrom c
          (if (0 <? GoStrings.len (charData c data))%nat then Some (charData c data) else cur)
          content).
  destruct (0 <? GoStrings.len (charData c data))%nat; [|exact (IH cur Hc)].
  assert (Hw : (0 <? mlen (Some (withText attrs cur)))%nat || decodeSimpleValuesAsMap c = true).
  { apply orb_true_iff. apply orb_true_iff in Hmode. destruct Hmode as [Hm|Hm]; [left|right; exact Hm].
    apply Nat.ltb_lt. apply Nat.ltb_lt in Hm. cbn [mlen].
    destruct cur; cbn [withText]; [apply mapSet_length|exact Hm]. }
  rewrite Hw. cbn [assign option_map].
  replace (mapSet (textK c) (cast c (charData c data) r (textK c)) (withText attrs cur))
    with (withText attrs (Some (charData c data)))
    by (destruct cur; cbn [withText]; [rewrite mapSet_mapSet|]; reflexivity).
  exact (IH _ Hc).
Qed.

(** The text kept in [n]. *)
Let ownText (skey : string) (cur : option string) : gomap :=
  match cur with
  | Some txt => [(skey, cast c txt r skey)]
  | None => []
  end.

Lemma decodeItems_text_own dec (skey : string) (content : list xml) (cur : option string)
  (seq : Z) :
  skey <> "" -> decodeSimpleValuesAsMap c = false ->
  noElements content = true ->
  decodeItems c r dec skey content (Some (ownText skey cur)) (Some []) seq
  = endElement c skey (Some (ownText skey (lastTextFrom c cur content))) (Some []).
Proof.
  intros Hk Hd. revert cur. induction content as [|x content IH]; intros cur Hc;
    [reflexivity|].
  cbn [noElements forallb] in Hc. apply andb_prop in Hc. destruct Hc as [Hx Hc].
  fold (noElements content) in Hc.
  destruct x as [| data |]; [discriminate| |exact (IH cur Hc)].
  cbn [decodeItems]. cbv zeta. unfold lastTextFrom. cbn [fold_left].
  fold (lastTextFrom c
          (if (0 <? GoStrings.len (charData c data))%nat then Some (charData c data) else cur)
          content).
  destruct (0 <? GoStrings.len (charData c data))%nat; [|exact (IH cur Hc)].
  rewrite Hd. cbn [mlen length Nat.ltb Nat.leb orb].
  rewrite (stringEqb_false skey "" Hk). cbn [negb assign option_map].
  replace (mapSet skey (cast c (charData c data) r skey) (ownText skey cur))
    with (ownText skey (Some (charData c data)))
    by (destruct cur; cbn [ownText mapSet]; [rewrite String.eqb_refl|]; reflexivity).
  exact (IH _ Hc).
Qed.

Lemma decodeElement_text (l : string) (a : list Attr) (content : list xml) (txt : string) :
  l <> "" -> noElements content = true -> lastText c content = Some txt ->
  decodeElement c r (Element l a content)
  = Some [(normKey c l,
           if negb (match a with [] => true | _ => false end) || decodeSimpleValuesAsMap c
           then VMap (mapSet (textK c) (cast c txt r (textK c)) (loadAttrs c a r []))
           else cast c txt r (normKey c l))].
Proof.
  intros Hl Hc Ht. rewrite decodeElement_Element.
  assert (Hk : normKey c l <> "") by (intros H; apply normKey_empty in H; contradiction).
  rewrite <- (loadAttrs_nil_length c r a).
  destruct ((0 <? length (loadAttrs c a r []))%nat || decodeSimpleValuesAsMap c) eqn:Hmode.
  - rewrite (decodeItems_text_map _ (normKey c l) (loadAttrs c a r []) content None 0 Hmode Hc).
    fold (lastText c content). rewrite Ht. cbn [withText].
    unfold endElement. cbn [mlen length Nat.eqb].
    rewrite (proj2 (Nat.ltb_lt _ _) (mapSet_length _ _ _)). reflexivity.
  - apply orb_false_iff in Hmode. destruct Hmode as [Hlen Hd].
    assert (Hnil : loadAttrs c a r [] = [])
      by (destruct (loadAttrs c a r []); [reflexivity|discriminate]).
    rewrite Hnil.
    rewrite (decodeItems_text_own _ (normKey c l) content None 0 Hk Hd Hc).
    fold (lastText c content). rewrite Ht. reflexivity.
Qed.

End TextContent.

(** X9.  Of the character data of an element that has no child elements,
    the decoder keeps one piece: the last that does not trim to nothing,
    trimmed.  It is the value of the element when there are no attributes
    and [decodeSimpleValuesAsMap] is off, and the entry under the text key
    in the map of the attributes otherwise.  Pieces before it, which a
    comment or a processing instruction has set apart, are dropped. *)
Theorem last_text_wins {E : Externals} (c : Config) (r : bool) (l : string)
  (a : list Attr) (content : list xml) (txt : string) (fl : option string) :
  handleXMPPStreamTag c = false ->
  l <> "" -> noElements content = true -> lastText c content = Some txt ->
  xmlToMap c (stream (tokens (Element l a content)) fl) r
  = Returns
      (Some [(normKey c l,
              if negb (match a with [] => true | _ => false end) || decodeSimpleValuesAsMap c
              then VMap (mapSet (textK c) (cast c txt r (textK c)) (loadAttrs c a r []))
              else cast c txt r (normKey c l))])
      None (stream [] fl).
Proof.
  intros Hx Hl Hc Ht.
  rewrite (xmlToMap_document c Hx)
    by (apply named_element; [exact Hl|apply noElements_named; exact Hc]).
  rewrite (decodeElement_text c r l a content txt Hl Hc Ht). reflexivity.
Qed.

Lemma last_text_wins_witness :
  xmlToMap defaults (stream (tokens (Element "e" [] [Text "x"; Misc; Text " y "; Text " "])) None)
    false
  = Returns
      (Some [(normKey defaults "e",
              if negb true || decodeSimpleValuesAsMap defaults
              then VMap (mapSet (textK defaults) (cast defaults "y" false (textK defaults))
                           (loadAttrs defaults [] false []))
              else cast defaults "y" false (normKey defaults "e"))])
      None (stream [] None).
Proof.
  apply (last_text_wins defaults false "e" [] [Text "x"; Misc; Text " y "; Text " "] "y" None);
    [reflexivity|discriminate|reflexivity|reflexivity].
Defined.

(** ** DisableTrimWhiteSpace *)

Section Trim.

Lemma TrimLeft_free (cutset s : string) : freeOf cutset s = true -> GoStrings.TrimLeft s cutset = s.
Proof.
  destruct s as [|ch s]; [reflexivity|]. unfold freeOf. cbn [list_ascii_of_string forallb].
  intros H. apply andb_prop in H. destruct H as [Hc _]. apply negb_true_iff in Hc.
  cbn [GoStrings.TrimLeft]. rewrite Hc. reflexivity.
Qed.

Lemma TrimRight_free (cutset s : string) : freeOf cutset s = true -> GoStrings.TrimRight s cutset = s.
Proof.
  induction s as [|ch s IH]; [reflexivity|]. unfold freeOf. cbn [list_ascii_of_string forallb].
  intros H. apply andb_prop in H. destruct H as [Hc Hs]. apply negb_true_iff in Hc.
  cbn [GoStrings.TrimRight]. rewrite (IH Hs), Hc. destruct s; reflexivity.
Qed.

Lemma Trim_free (cutset s : string) : freeOf cutset s = true -> GoStrings.Trim s cutset = s.
Proof.
  intros H. unfold GoStrings.Trim. rewrite (TrimLeft_free _ _ H). apply TrimRight_free, H.
Qed.

End Trim.

(** X10.  After [DisableTrimWhiteSpace()] the decoder keeps the spaces of
    character data: a piece with no tab, carriage return, backspace or
    newline in it is the value of its element as it stands, spaces at its
    ends included, and also when it is nothing but spaces. *)
Theorem disable_trim_keeps_spaces {E : Externals} (c : Config) (r : bool) (l data : string)
  (fl : option string) :
  handleXMPPStreamTag c = false ->
  xmlEscapeCharsDecoder c = false ->
  decodeSimpleValuesAsMap c = false ->
  l <> "" -> data <> "" -> freeOf trimRunesNoSpace data = true ->
  xmlToMap (DisableTrimWhiteSpace [] c) (stream (tokens (Element l [] [Text data])) fl) r
  = Returns (Some [(normKey c l, cast (DisableTrimWhiteSpace [] c) data r (normKey c l))])
      None (stream [] fl).
Proof.
  intros Hx He Hd Hl Hdata Hfree.
  assert (Hcd : charData (DisableTrimWhiteSpace [] c) data = data).
  { unfold charData. cbn [DisableTrimWhiteSpace xmlEscapeCharsDecoder trimRunes].
    rewrite He. apply Trim_free, Hfree. }
  rewrite (xmlToMap_document (DisableTrimWhiteSpace [] c) Hx)
    by (apply named_element; [exact Hl|reflexivity]).
  rewrite (decodeElement_text (DisableTrimWhiteSpace [] c) r l [] [Text data] data Hl eq_refl).
  - cbn [negb orb DisableTrimWhiteSpace decodeSimpleValuesAsMap]. rewrite Hd. reflexivity.
  - unfold lastText, lastTextFrom. cbn [fold_left]. rewrite Hcd, (len_pos _ Hdata). reflexivity.
Qed.

Lemma disable_trim_keeps_spaces_witness :
  xmlToMap (DisableTrimWhiteSpace [] defaults) (stream (tokens (Element "e" [] [Text " x "])) None)
    false
  = Returns (Some [(normKey defaults "e",
                    cast (DisableTrimWhiteSpace [] defaults) " x " false (normKey defaults "e"))])
      None (stream [] None).
Proof.
  apply (disable_trim_keeps_spaces defaults false "e" " x " None);
    [reflexivity|reflexivity|reflexivity|discriminate|discriminate|reflexivity].
Defined.

(** ** The encoder and its buffer *)

Section Values.
Context {E : Externals}.

(** Induction on values, through maps and lists; a map of another type
    by its copy. *)
Lemma any_nested_ind (P : any -> Prop) :
  (forall vv, Forall (fun kv => P (snd kv)) vv -> P (VMap vv)) ->
  (forall l, Forall P l -> P (VList l)) ->
  (forall v, match v with VMap _ | VList _ | VMapOf _ => False | _ => True end -> P v) ->
  (forall vv, P (VMap vv) -> P (VMapOf vv)) ->
  forall v, P v.
Proof.
  intros Hmap Hlist Hleaf Hcopy. fix IH 1. intros v.
  destruct v as [| | | | | | | | |vv|l| | | | |vv]; try (apply Hleaf; exact I).
  - apply Hmap. induction vv as [|[k v] vv IHvv]; constructor; [apply IH|exact IHvv].
  - apply Hlist. induction l as [|v l IHl]; constructor; [apply IH|exact IHl].
  - apply Hcopy, Hmap.
    induction vv as [|[k v] vv IHvv]; constructor; [apply IH|exact IHvv].
Qed.

End Values.

Create HintDb appends.

Section Appends.
Context {E : Externals}.
Variable c : Config.

Lemma appends_skip : appends skip.
Proof. intros b. unfold skip. cbn. rewrite append_nil_r. reflexivity. Qed.

Lemma appends_write (s : string) : appends (write s).
Proof. intros b. reflexivity. Qed.

Lemma appends_fail (e : error) : appends (fail e).
Proof. intros b. unfold fail. cbn. rewrite append_nil_r. reflexivity. Qed.

Lemma appends_andThen (m k : Emit) : appends m -> appends k -> appends (m ;; k).
Proof.
  intros Hm Hk b. unfold andThen. rewrite (Hm b).
  destruct (m "") as [o [e|]]; cbn [fst snd]; [reflexivity|].
  rewrite (Hk (b ++ o)), (Hk o). cbn [fst snd]. rewrite append_assoc. reflexivity.
Qed.

Lemma appends_when (cond : bool) (m : Emit) : appends m -> appends (when cond m).
Proof. destruct cond; [auto|intros _; apply appends_skip]. Qed.

Lemma appends_if (cond : bool) (m k : Emit) :
  appends m -> appends k -> appends (if cond then m else k).
Proof. destruct cond; auto. Qed.

#[local] Hint Resolve appends_skip appends_write appends_fail appends_andThen appends_when
  appends_if : appends.

Lemma appends_closeTag doIndent key p endTag isSimple elen :
  appends (closeTag c doIndent key p endTag isSimple elen).
Proof. unfold closeTag. auto 10 with appends. Qed.

Lemma appends_openTag doIndent key v p : appends (openTag doIndent key v p).
Proof. unfold openTag. destruct v; auto 10 with appends. Qed.

Lemma appends_writeAttrs attrlist : appends (writeAttrs attrlist).
Proof.
  induction attrlist as [|v l IH]; cbn [writeAttrs fold_right]; auto with appends.
Qed.

#[local] Hint Resolve appends_closeTag appends_openTag appends_writeAttrs : appends.

Lemma appends_marshalSimple doIndent key v p : appends (marshalSimple c doIndent key v p).
Proof.
  unfold marshalSimple. destruct v; cbv zeta; auto 10 with appends.
  destruct (if doIndent then _ else _); auto 10 with appends.
Qed.

Lemma appends_emptyList doIndent key p : appends (emptyList c doIndent key p).
Proof. unfold emptyList. auto 10 with appends. Qed.

Lemma appends_eachMember doIndent (l : list (pretty -> Emit)) :
  Forall (fun m => forall p, appends (m p)) l -> forall p, appends (eachMember doIndent l p).
Proof.
  induction 1 as [|m l Hm _ IH]; intros p; cbn [eachMember]; auto with appends.
Qed.

Lemma appends_eachElem doIndent (l : list (string * (any * (string -> pretty -> Emit)))) :
  Forall (fun x => forall key p, appends (snd (snd x) key p)) l ->
  forall p, appends (eachElem doIndent l p).
Proof.
  induction 1 as [|[k [v m]] l Hm _ IH]; intros p; cbn [eachElem]; auto with appends.
Qed.

#[local] Hint Resolve appends_marshalSimple appends_emptyList : appends.

Lemma elemCalls_In doIndent (vv : gomap) x :
  In x (elemCalls c doIndent vv) ->
  exists k v, x = (k, (v, marshalMapToXmlIndent c doIndent v))
              /\ In (k, v) vv /\ isElemKey c k = true.
Proof.
  unfold elemCalls. intros H.
  apply (Permutation_in _ (sortBy_perm fst _)) in H.
  apply filter_In in H. destruct H as [H Hk]. apply in_map_iff in H.
  destruct H as ([k v] & <- & Hin). exists k, v. auto.
Qed.

Lemma appends_marshal (value : any) :
  forall doIndent key p, appends (marshalMapToXmlIndent c doIndent value key p).
Proof.
  induction value as [vv IH|l IH|v Hv|vv IH] using any_nested_ind; intros doIndent key p;
    [| | |exact (IH doIndent key p)].
  - rewrite marshal_map. apply appends_andThen; [auto with appends|].
    destruct (scanAttrs c vv) as [attrlist|e]; [|auto with appends].
    cbv zeta.
    assert (Hch : forall p', appends (eachElem doIndent (elemCalls c doIndent vv) p')).
    { apply appends_eachElem. apply Forall_forall. intros x Hx.
      apply elemCalls_In in Hx. destruct Hx as (k & v & -> & Hin & _).
      cbn [snd]. rewrite Forall_forall in IH. intros key' p'.
      apply (IH (k, v) Hin). }
    apply appends_andThen; [auto with appends|].
    destruct (length attrlist =? length vv)%nat; [auto 10 with appends|].
    destruct (mapGet (textK c) vv); [destruct (_ =? _)%nat|]; auto 10 with appends.
  - rewrite marshal_list. destruct l as [|v0 l]; [auto with appends|].
    apply appends_eachMember. apply Forall_forall. intros m Hm.
    apply in_map_iff in Hm. destruct Hm as (v & <- & Hin).
    rewrite Forall_forall in IH. intros p'. apply IH. exact Hin.
  - destruct v; try contradiction; cbn [marshalMapToXmlIndent settle];
      auto 10 with appends.
    + destruct l as [|s l]; [auto 10 with appends|].
      apply appends_andThen; [auto with appends|].
      apply appends_eachMember. apply Forall_forall. intros m Hm.
      apply in_map_iff in Hm. destruct Hm as (s' & <- & _). intros p'. auto 10 with appends.
    + destruct marshal; auto 10 with appends.
Qed.

End Appends.

(** X11.  The encoder only appends to its buffer: what
    [marshalMapToXmlIndent] writes for a value, and the error it returns,
    do not depend on what the buffer already holds, and what it held stays
    in front, also when the call fails. *)
Theorem encoder_appends {E : Externals} (c : Config) (doIndent : bool) (value : any)
  (key : string) (p : pretty) (b : string) :
  marshalMapToXmlIndent c doIndent value key p b
  = (b ++ fst (marshalMapToXmlIndent c doIndent value key p ""),
     snd (marshalMapToXmlIndent c doIndent value key p "")).
Proof.
  revert b. change (appends (marshalMapToXmlIndent c doIndent value key p)).
  apply appends_marshal.
Qed.

(** ** When the encoder fails *)

Create HintDb succeeds.

Section Succeeds.
Context {E : Externals}.
Variable c : Config.

Lemma succeeds_skip : succeeds skip.
Proof. intros b. reflexivity. Qed.

Lemma succeeds_write (s : string) : succeeds (write s).
Proof. intros b. reflexivity. Qed.

Lemma succeeds_andThen (m k : Emit) : succeeds m -> succeeds k -> succeeds (m ;; k).
Proof.
  intros Hm Hk b. unfold andThen. specialize (Hm b).
  destruct (m b) as [b' [e|]]; [discriminate|apply Hk].
Qed.

Lemma succeeds_when (cond : bool) (m : Emit) : succeeds m -> succeeds (when cond m).
Proof. destruct cond; [auto|intros _; apply succeeds_skip]. Qed.

Lemma succeeds_if (cond : bool) (m k : Emit) :
  succeeds m -> succeeds k -> succeeds (if cond then m else k).
Proof. destruct cond; auto. Qed.

#[local] Hint Resolve succeeds_skip succeeds_write succeeds_andThen succeeds_when
  succeeds_if : succeeds.

Lemma succeeds_closeTag doIndent key p endTag isSimple elen :
  succeeds (closeTag c doIndent key p endTag isSimple elen).
Proof. unfold closeTag. auto 10 with succeeds. Qed.

Lemma succeeds_openTag doIndent key v p : succeeds (openTag doIndent key v p).
Proof. unfold openTag. destruct v; auto 10 with succeeds. Qed.

Lemma succeeds_writeAttrs attrlist : succeeds (writeAttrs attrlist).
Proof.
  induction attrlist as [|v l IH]; cbn [writeAttrs fold_right]; auto with succeeds.
Qed.

#[local] Hint Resolve succeeds_closeTag succeeds_openTag succeeds_writeAttrs : succeeds.

Lemma succeeds_marshalSimple doIndent key v p : succeeds (marshalSimple c doIndent key v p).
Proof.
  unfold marshalSimple. destruct v; cbv zeta; auto 10 with succeeds.
  destruct (if doIndent then _ else _); auto 10 with succeeds.
Qed.

Lemma succeeds_emptyList doIndent key p : succeeds (emptyList c doIndent key p).
Proof. unfold emptyList. auto 10 with succeeds. Qed.

Lemma succeeds_eachMember doIndent (l : list (pretty -> Emit)) :
  Forall (fun m => forall p, succeeds (m p)) l -> forall p, succeeds (eachMember doIndent l p).
Proof.
  induction 1 as [|m l Hm _ IH]; intros p; cbn [eachMember]; auto with succeeds.
Qed.

Lemma succeeds_eachElem doIndent (l : list (string * (any * (string -> pretty -> Emit)))) :
  Forall (fun x => forall key p, succeeds (snd (snd x) key p)) l ->
  forall p, succeeds (eachElem doIndent l p).
Proof.
  induction 1 as [|[k [v m]] l Hm _ IH]; intros p; cbn [eachElem]; auto with succeeds.
Qed.

#[local] Hint Resolve succeeds_marshalSimple succeeds_emptyList : succeeds.

(** A list of strings encodes. *)
Lemma succeeds_strings doIndent (l : list string) (key : string) (p : pretty) :
  succeeds (marshalMapToXmlIndent c doIndent (VList (map VString l)) key p).
Proof.
  rewrite marshal_list. destruct (map VString l) as [|v0 l0] eqn:Hl; [auto with succeeds|].
  rewrite <- Hl. apply succeeds_eachMember. apply Forall_forall. intros m Hm.
  apply in_map_iff in Hm. destruct Hm as (v & <- & Hin).
  apply in_map_iff in Hin. destruct Hin as (s & <- & _).
  intros p'. cbn [marshalMapToXmlIndent settle]. auto with succeeds.
Qed.

Lemma attrValueOf_OK (k : string) (v : any) :
  attrValueOK v = true -> exists ss, attrValueOf c k v = inl ss.
Proof. destruct v; try discriminate; intros _; cbn [attrValueOf]; eauto. Qed.

Lemma attrValueOf_not_OK (k : string) (v : any) :
  attrValueOK v = false -> attrValueOf c k v = inr (InvalidAttribute k v).
Proof. destruct v; try discriminate; reflexivity. Qed.

(** The scan of the attributes fails exactly on an entry of a wrong type. *)
Lemma scanAttrs_inl (vv : gomap) :
  (forall k v, In (k, v) vv -> isAttrKey c k = true -> attrValueOK v = true) ->
  exists attrs, scanAttrs c vv = inl attrs.
Proof.
  induction vv as [|[k v] vv IH]; intros H; [cbn; eauto|]. cbn [scanAttrs].
  destruct IH as [attrs ->]; [intros k' v' Hin; apply H; right; exact Hin|].
  destruct (isAttrKey c k) eqn:Hk; [|eauto].
  destruct (attrValueOf_OK k v) as [ss ->]; [apply (H k v); [left; reflexivity|exact Hk]|].
  eauto.
Qed.

Lemma scanAttrs_inr (vv : gomap) (k : string) (v : any) :
  In (k, v) vv -> isAttrKey c k = true -> attrValueOK v = false ->
  exists e, scanAttrs c vv = inr e.
Proof.
  intros Hin Hk Hv. induction vv as [|[k0 v0] vv IH]; [destruct Hin|].
  cbn [scanAttrs]. destruct Hin as [Heq|Hin].
  - inversion Heq; subst. rewrite Hk, (attrValueOf_not_OK k v Hv). eauto.
  - destruct (IH Hin) as [e ->]. destruct (isAttrKey c k0); [|eauto].
    destruct (attrValueOf c k0 v0); eauto.
Qed.

Hypothesis textK_no_attr : isAttrKey c (textK c) = false.

(** A child that fails makes the map fail. *)
Lemma child_fails (vv : gomap) (k : string) (v : any) doIndent key p :
  In (k, v) vv -> isElemKey c k = true ->
  (forall key p, fails (marshalMapToXmlIndent c doIndent v key p)) ->
  fails (marshalMapToXmlIndent c doIndent (VMap vv) key p).
Proof.
  intros Hin Hk Hv. rewrite marshal_map. apply fails_then.
  destruct (scanAttrs c vv) as [attrs|e] eqn:Hs; [|apply fails_fail].
  cbv zeta. apply fails_then.
  assert (Hka : isAttrKey c k = false /\ k <> textK c).
  { unfold isElemKey in Hk. apply andb_prop in Hk. destruct Hk as [Ht Ha].
    split; [destruct (isAttrKey c k); [discriminate|reflexivity]|].
    intros ->. rewrite String.eqb_refl in Ht. discriminate. }
  destruct Hka as [Hka Hkt].
  assert (Hink : In k (keys vv)) by (change k with (fst (k, v)); apply in_map; exact Hin).
  rewrite (scanAttrs_length c vv attrs Hs).
  assert (Hlen : length (keys vv) = length vv) by apply length_map.
  assert (Hchildren : fails (eachElem doIndent (elemCalls c doIndent vv) (deeper 1 p))).
  { apply eachElem_fails with k v (marshalMapToXmlIndent c doIndent v); [|apply Hv].
    unfold elemCalls. apply (Permutation_in _ (Permutation_sym (sortBy_perm fst _))).
    apply filter_In. split; [|exact Hk].
    change (k, (v, marshalMapToXmlIndent c doIndent v))
      with ((fun kv : string * any =>
               (fst kv, (snd kv, marshalMapToXmlIndent c doIndent (snd kv)))) (k, v)).
    apply in_map. exact Hin. }
  pose proof (filter_length_one (isAttrKey c) (keys vv) k Hink Hka) as H1.
  destruct (Nat.eqb_spec (length (filter (isAttrKey c) (keys vv))) (length vv)); [lia|].
  destruct (mapGet (textK c) vv) as [tv|] eqn:Hg.
  - assert (Hint : In (textK c) (keys vv)).
    { apply mapGet_Some_In in Hg. change (textK c) with (fst (textK c, tv)).
      apply in_map. exact Hg. }
    pose proof (filter_length_two (isAttrKey c) (keys vv) k (textK c) Hink Hint Hkt Hka
                  textK_no_attr) as H2.
    destruct (Nat.eqb_spec (length (filter (isAttrKey c) (keys vv)) + 1) (length vv)); [lia|].
    apply fails_then. do 2 apply fails_then. apply fails_first. exact Hchildren.
  - do 2 apply fails_then. apply fails_first. exact Hchildren.
Qed.

Lemma encodable_marshal (value : any) :
  (encodable c value = true ->
   forall doIndent key p, succeeds (marshalMapToXmlIndent c doIndent value key p))
  /\ (encodable c value = false ->
      forall doIndent key p, fails (marshalMapToXmlIndent c doIndent value key p)).
Proof.
  induction value as [vv IH|l IH|v Hv|vv IH] using any_nested_ind; [| | |exact IH].
  - rewrite Forall_forall in IH. split.
    + cbn [encodable]. intros Hen doIndent key p. rewrite forallb_forall in Hen.
      rewrite marshal_map. apply succeeds_andThen; [auto with succeeds|].
      destruct (scanAttrs_inl vv) as [attrlist ->].
      { intros k v Hin Hk. specialize (Hen (k, v) Hin). cbn [fst snd] in Hen.
        rewrite Hk in Hen. exact Hen. }
      cbv zeta.
      assert (Hch : forall p', succeeds (eachElem doIndent (elemCalls c doIndent vv) p')).
      { apply succeeds_eachElem. apply Forall_forall. intros x Hx.
        apply elemCalls_In in Hx. destruct Hx as (k & v & -> & Hin & Hk).
        cbn [snd]. intros key' p'. apply (proj1 (IH (k, v) Hin)).
        specialize (Hen (k, v) Hin). cbn [fst snd] in Hen.
        unfold isElemKey in Hk. apply andb_prop in Hk. destruct Hk as [Ht Ha].
        apply negb_true_iff in Ht, Ha. rewrite Ha, Ht in Hen. exact Hen. }
      apply succeeds_andThen; [auto with succeeds|].
      destruct (length attrlist =? length vv)%nat; [auto 10 with succeeds|].
      destruct (mapGet (textK c) vv); [destruct (_ =? _)%nat|]; auto 10 with succeeds.
    + cbn [encodable]. intros Hen doIndent key p.
      assert (Hex : exists kv, In kv vv
                /\ (if isAttrKey c (fst kv) then attrValueOK (snd kv)
                    else (fst kv =? textK c) || encodable c (snd kv)) = false).
      { clear IH. induction vv as [|kv vv IHvv]; [discriminate|].
        cbn [forallb] in Hen. apply andb_false_iff in Hen. destruct Hen as [Hen|Hen].
        - exists kv. split; [left; reflexivity|exact Hen].
        - destruct (IHvv Hen) as (kv' & Hin & Hkv). exists kv'. split; [right|]; assumption. }
      destruct Hex as ([k v] & Hin & Hkv). cbn [fst snd] in Hkv.
      destruct (isAttrKey c k) eqn:Hk.
      * rewrite marshal_map. apply fails_then.
        destruct (scanAttrs_inr vv k v Hin Hk Hkv) as [e ->]. apply fails_fail.
      * apply orb_false_iff in Hkv. destruct Hkv as [Ht Hv].
        apply child_fails with k v; [exact Hin| |].
        -- unfold isElemKey. rewrite Ht, Hk. reflexivity.
        -- intros key' p'. apply (proj2 (IH (k, v) Hin)). exact Hv.
  - rewrite Forall_forall in IH. split.
    + cbn [encodable]. intros Hen doIndent key p. rewrite forallb_forall in Hen.
      rewrite marshal_list. destruct l as [|v0 l]; [auto with succeeds|].
      apply succeeds_eachMember. apply Forall_forall. intros m Hm.
      apply in_map_iff in Hm. destruct Hm as (v & <- & Hin).
      intros p'. apply (proj1 (IH v Hin)). apply Hen. exact Hin.
    + cbn [encodable]. intros Hen doIndent key p.
      assert (Hex : exists v, In v l /\ encodable c v = false).
      { clear IH. induction l as [|v l IHl]; [discriminate|].
        cbn [forallb] in Hen. apply andb_false_iff in Hen. destruct Hen as [Hen|Hen].
        - exists v. split; [left; reflexivity|exact Hen].
        - destruct (IHl Hen) as (v' & Hin & Hv'). exists v'. split; [right|]; assumption. }
      destruct Hex as (v & Hin & Hv).
      rewrite marshal_list. destruct l as [|v0 l]; [destruct Hin|].
      apply eachMember_fails with (fun p => marshalMapToXmlIndent c doIndent v key p).
      * change (fun p0 => marshalMapToXmlIndent c doIndent v key p0)
          with ((fun v1 => marshalMapToXmlIndent c doIndent v1 key) v).
        apply in_map. exact Hin.
      * intros p0. apply (proj2 (IH v Hin)). exact Hv.
  - assert (Hstruct : forall e, v = VStruct (inr e) ->
              forall doIndent key p, fails (marshalMapToXmlIndent c doIndent v key p)).
    { intros e -> doIndent key p. apply fails_fail. }
    destruct v as [|s|s|b0|z|z|z|f|t|vv|l|l|mar mi|[s|e]|s|vv]; try contradiction;
      (split; [|try discriminate; intros _; eapply Hstruct; reflexivity]);
      try discriminate; intros _ doIndent key p;
      cbn [marshalMapToXmlIndent settle]; auto 10 with succeeds.
    destruct l as [|s l]; [auto 10 with succeeds|].
    apply succeeds_andThen; [auto with succeeds|].
    apply succeeds_eachMember. apply Forall_forall. intros m Hm.
    apply in_map_iff in Hm. destruct Hm as (s' & <- & _). intros p'. auto 10 with succeeds.
Qed.

End Succeeds.

(** X12.  The encoder returns an error in two cases only, and in each of
    them always: an entry under an attribute key whose value is not a
    string, a byte slice, a boolean, an int, int32, int64, float32, float64
    or [json.Number], and a struct that [xml.Marshal] fails on, in the value
    itself, in the value of a child entry or in a member of a list, at any
    depth.  (The text key is not an attribute key.) *)
Theorem encode_error_iff {E : Externals} (c : Config) (doIndent : bool) (value : any)
  (key : string) (p : pretty) (b : string) :
  isAttrKey c (textK c) = false ->
  (snd (marshalMapToXmlIndent c doIndent value key p b) = None <-> encodable c value = true).
Proof.
  intros Ht. destruct (encodable_marshal c Ht value) as [Hyes Hno]. split.
  - intros Hnone. destruct (encodable c value) eqn:Hen; [reflexivity|].
    destruct (Hno eq_refl doIndent key p b) as [e He]. congruence.
  - intros Hen. apply (Hyes Hen).
Qed.

Lemma encode_error_iff_witness :
  snd (marshalMapToXmlIndent defaults true
         (@VMap (@float64 exampleExternals) [("-a", VUint64 1); ("b", VList [VNil])])
         "doc" (newPretty "" "  ") "") = None
  <-> encodable defaults
        (@VMap (@float64 exampleExternals) [("-a", VUint64 1); ("b", VList [VNil])]) = true.
Proof.
  apply (encode_error_iff defaults true
           (@VMap (@float64 exampleExternals) [("-a", VUint64 1); ("b", VList [VNil])])
           "doc" (newPretty "" "  ") "").
  reflexivity.
Defined.

(** ** Maps of attributes *)

Section AttributeMaps.
Context {E : Externals}.
Variable c : Config.

Lemma attribute_keys_count (vv : gomap) (attrs : list (string * string)) :
  forallb (fun kv => isAttrKey c (fst kv)) vv = true ->
  scanAttrs c vv = inl attrs -> length attrs = length vv.
Proof.
  intros Hall Hs. rewrite (scanAttrs_length c vv attrs Hs). unfold keys.
  rewrite <- (length_map fst vv). f_equal. clear Hs.
  induction vv as [|kv vv IH]; [reflexivity|]. cbn [forallb] in Hall.
  apply andb_prop in Hall. destruct Hall as [Hk Hall]. cbn [map filter].
  rewrite Hk, (IH Hall). reflexivity.
Qed.

Lemma marshal_attribute_map (doIndent : bool) (vv : gomap) (attrs : list (string * string))
  (key : string) (p : pretty) (b : string) :
  forallb (fun kv => isAttrKey c (fst kv)) vv = true ->
  scanAttrs c vv = inl attrs ->
  marshalMapToXmlIndent c doIndent (VMap vv) key p b
  = (b ++ (if doIndent then padding p else "") ++ "<" ++ key
       ++ attrsText (sortBy attrLess attrs)
       ++ (if useGoXmlEmptyElemSyntax c then "</" ++ key ++ ">" else "/>")
       ++ (if doIndent && (start p <? cnt p)%nat then newline else ""),
     None).
Proof.
  intros Hall Hs. pose proof (attribute_keys_count vv attrs Hall Hs) as Hlen.
  rewrite marshal_map, Hs. cbv zeta. rewrite Hlen, Nat.eqb_refl.
  unfold openTag, closeTag. cbn [when].
  assert (Hattrs : forall b0,
             when (0 <? length vv)%nat (writeAttrs (sortBy attrLess attrs)) b0
             = (b0 ++ attrsText (sortBy attrLess attrs), None)).
  { intros b0. destruct vv as [|kv vv].
    - destruct attrs; [|discriminate]. cbn. unfold skip. rewrite append_nil_r. reflexivity.
    - cbn [length Nat.ltb Nat.leb when]. apply writeAttrs_text. }
  unfold andThen at 1. unfold andThen at 1. rewrite when_write. unfold write at 1.
  unfold andThen at 1. rewrite Hattrs.
  unfold andThen at 1.
  replace ((if useGoXmlEmptyElemSyntax c then write ("</" ++ key ++ ">") else write "/>")
             (((b ++ (if doIndent then padding p else "")) ++ "<" ++ key)
                ++ attrsText (sortBy attrLess attrs)))
    with ((((b ++ (if doIndent then padding p else "")) ++ "<" ++ key)
             ++ attrsText (sortBy attrLess attrs))
            ++ (if useGoXmlEmptyElemSyntax c then "</" ++ key ++ ">" else "/>"), @None error)
    by (destruct (useGoXmlEmptyElemSyntax c); reflexivity).
  unfold andThen, skip. rewrite when_write. rewrite !append_assoc. reflexivity.
Qed.

End AttributeMaps.

(** X13.  A map whose entries are all attributes, the empty map included,
    is written as an empty element that carries them, in the order of
    their names: <key a="1" b="2"/>.  Under the syntax of Go the start tag
    is left open: <key a="1" b="2"</key>, and <doc</doc> for the empty
    [Map], which is not XML. *)
Theorem attribute_map_output {E : Externals} (c : Config) (doIndent : bool) (vv : gomap)
  (attrs : list (string * string)) (key : string) (p : pretty) (b : string) :
  forallb (fun kv => isAttrKey c (fst kv)) vv = true ->
  scanAttrs c vv = inl attrs ->
  marshalMapToXmlIndent c doIndent (VMap vv) key p b
  = (b ++ (if doIndent then padding p else "") ++ "<" ++ key
       ++ attrsText (sortBy attrLess attrs)
       ++ (if useGoXmlEmptyElemSyntax c then "</" ++ key ++ ">" else "/>")
       ++ (if doIndent && (start p <? cnt p)%nat then newline else ""),
     None)
  /\ (xmlCheckIsValid c = false ->
      Xml c vv [key]
      = (Some ("<" ++ key ++ attrsText (sortBy attrLess attrs)
                 ++ (if useGoXmlEmptyElemSyntax c then "</" ++ key ++ ">" else "/>")), None))
  /\ Xml (XmlGoEmptyElemSyntax defaults) [] [] = (Some "<doc</doc>", None).
Proof.
  intros Hall Hs. split; [apply marshal_attribute_map; assumption|]. split.
  - intros Hv. unfold Xml.
    assert (Hroot : xmlRoot vv [key] = (key, VMap vv))
      by (destruct vv as [|[k v] [|kv vv]]; reflexivity).
    rewrite Hroot, (marshal_attribute_map c false vv attrs key _ _ Hall Hs).
    unfold checkIsValid. rewrite Hv. cbn [andb]. rewrite append_nil_r. reflexivity.
  - reflexivity.
Qed.

Lemma attribute_map_output_witness :
  marshalMapToXmlIndent (XmlGoEmptyElemSyntax defaults) false
    (@VMap (@float64 exampleExternals) [("-b", VString "2"); ("-a", VString "1")])
    "e" (newPretty "" "") ""
  = ("<e a=" ++ dquote ++ "1" ++ dquote ++ " b=" ++ dquote ++ "2" ++ dquote ++ "</e>", None).
Proof.
  exact (proj1 (attribute_map_output (XmlGoEmptyElemSyntax defaults) false
                  [("-b", VString "2"); ("-a", VString "1")] [("b", "2"); ("a", "1")]
                  "e" (newPretty "" "") "" eq_refl eq_refl)).
Defined.

(** ** What the decoder stores *)

Section ShapeBasics.
Context {E : Externals}.
Variable leaf : string -> any -> bool.
Variable mapOK : string -> bool.

Lemma cast_leaf (c : Config) (r : bool) (s t : string) :
  match cast c s r t with
  | VString _ | VBool _ | VInt64 _ | VUint64 _ | VFloat64 _ => True
  | _ => False
  end.
Proof.
  unfold cast, castNumeric, castFloat, castBool.
  repeat match goal with
         | |- context [if ?b then _ else _] => destruct b
         | |- context [match ?x with Some _ => _ | None => _ end] => destruct x
         end; exact I.
Qed.

Lemma shaped_cast (c : Config) (r : bool) (k s t : string) :
  shaped leaf mapOK k (cast c s r t) = leaf k (cast c s r t).
Proof. pose proof (cast_leaf c r s t) as H. destruct (cast c s r t); try contradiction; reflexivity. Qed.

Lemma Forall_mapSet (P : string * any -> Prop) (k : string) (v : any) (m : gomap) :
  P (k, v) -> Forall P m -> Forall P (mapSet k v m).
Proof.
  intros Hv. induction 1 as [|[k0 v0] m H0 Hm IH]; cbn [mapSet];
    [constructor; [exact Hv|constructor]|].
  destruct (k0 =? k); constructor; assumption.
Qed.

End ShapeBasics.

Section ShapeOfDecoded.
Context {E : Externals}.
Variable c : Config.
Variable r : bool.
Variable leaf : string -> any -> bool.
Variable mapOK : string -> bool.
Variable nameOK : string -> bool.
Variable attrOK : Attr -> bool.

Hypothesis name_keys : forall l, nameOK l = true ->
  mapOK (normKey c l) = true
  /\ leaf (normKey c l) (VString "") = true
  /\ forall s t, leaf (normKey c l) (cast c s r t) = true.
Hypothesis attr_keys : forall v, attrOK v = true ->
  leaf (attrKey c v) (cast c (attrVal c v) r (attrKey c v)) = true.
Hypothesis text_key :
  leaf (textK c) (VString "") = true /\ forall s t, leaf (textK c) (cast c s r t) = true.
Hypothesis seq_key : includeTagSeqNum c = true -> forall z, leaf "_seq" (VInt z) = true.

Let entryOK (kv : string * any) : Prop := shaped leaf mapOK (fst kv) (snd kv) = true.

(** What a call returns as the value of its element. *)
Let valueOK (v : any) : Prop :=
  (exists s t, v = cast c s r t) \/ v = VString ""
  \/ exists m, v = VMap m /\ Forall entryOK m.

Lemma loadAttrs_shape (a : list Attr) :
  forallb attrOK a = true -> Forall entryOK (loadAttrs c a r []).
Proof.
  induction a as [|v a IH] using rev_ind; [constructor|].
  rewrite forallb_app. cbn [forallb]. rewrite andb_true_r. intros H.
  apply andb_prop in H. destruct H as [Ha Hv]. rewrite loadAttrs_snoc.
  apply Forall_mapSet; [|apply IH; exact Ha].
  unfold entryOK. cbn [fst snd]. rewrite shaped_cast. apply attr_keys, Hv.
Qed.

Lemma valueOK_shaped (k : string) (v : any) :
  mapOK k = true -> leaf k (VString "") = true ->
  (forall s t, leaf k (cast c s r t) = true) ->
  valueOK v -> shaped leaf mapOK k v = true /\ isList v = false.
Proof.
  intros Hm He Hc [(s & t & ->)|[->|(m & -> & Hall)]].
  - rewrite shaped_cast. split; [apply Hc|apply cast_not_list].
  - split; [exact He|reflexivity].
  - cbn [shaped isList]. rewrite Hm. split; [|reflexivity].
    apply forallb_forall. rewrite Forall_forall in Hall. exact Hall.
Qed.

(** The value that [tagSeq] makes of the value of a child. *)
Lemma tagSeq_shape (k : string) (v : any) (seq : Z) :
  mapOK k = true -> leaf k (VString "") = true ->
  (forall s t, leaf k (cast c s r t) = true) ->
  valueOK v ->
  shaped leaf mapOK k (fst (tagSeq c v seq)) = true /\ isList (fst (tagSeq c v seq)) = false.
Proof.
  intros Hm He Hc Hv. unfold tagSeq. destruct (includeTagSeqNum c) eqn:Hs;
    [|apply valueOK_shaped; assumption].
  assert (Hseq : entryOK ("_seq", VInt seq)) by (apply seq_key; reflexivity).
  assert (Hscalar : forall v0, shaped leaf mapOK (textK c) v0 = true ->
            shaped leaf mapOK k (VMap (mapSet "_seq" (VInt seq) [(textK c, v0)])) = true).
  { intros v0 H0. cbn [shaped]. rewrite Hm. apply forallb_forall.
    apply Forall_forall. apply Forall_mapSet; [exact Hseq|]. constructor; [exact H0|constructor]. }
  destruct Hv as [(s & t & ->)|[->|(m & -> & Hall)]].
  - pose proof (cast_leaf c r s t) as Hl. pose proof (Hscalar (cast c s r t)) as H.
    rewrite shaped_cast in H. specialize (H (proj2 text_key s t)).
    destruct (cast c s r t); try contradiction; cbn [fst isList]; auto.
  - cbn [fst isList]. split; [|reflexivity]. apply Hscalar. apply (proj1 text_key).
  - cbn [fst isList shaped]. rewrite Hm. split; [|reflexivity].
    apply forallb_forall. apply Forall_forall. apply Forall_mapSet; assumption.
Qed.

Lemma addChild_shape (l : gomap) (key : string) (val : any) :
  Forall entryOK l -> mapOK key = true ->
  shaped leaf mapOK key val = true ->
  exists l', addChild (Some l) key val = Some l' /\ Forall entryOK l'.
Proof.
  intros Hl Hm Hv. unfold addChild. cbn [mget].
  destruct (mapGet key l) as [v0|] eqn:Hg; cbn [assign option_map].
  - eexists. split; [reflexivity|]. apply Forall_mapSet; [|exact Hl].
    apply mapGet_Some_In in Hg. rewrite Forall_forall in Hl. specialize (Hl _ Hg).
    unfold entryOK in *. cbn [fst snd] in *.
    assert (Hpair : shaped leaf mapOK key (VList [v0; val]) = true).
    { cbn [shaped forallb]. rewrite Hm, Hl, Hv. reflexivity. }
    destruct v0; try exact Hpair.
    cbn [shaped] in Hl. apply andb_prop in Hl. destruct Hl as [_ Hl].
    cbn [shaped]. rewrite Hm, forallb_app, Hl. cbn [forallb]. rewrite Hv. reflexivity.
  - eexists. split; [reflexivity|]. apply Forall_mapSet; assumption.
Qed.

(** The variable [n] of a call. *)
Let ownOK (skey : string) (n : option gomap) : Prop :=
  n = Some [] \/ exists s, n = Some [(skey, cast c s r skey)].

Lemma endElement_shape_value (skey : string) (n : option gomap) (l : gomap) :
  ownOK skey n -> Forall entryOK l ->
  exists v, endElement c skey n (Some l) = Some [(skey, v)] /\ valueOK v.
Proof.
  unfold endElement. intros [->|(s & ->)] Hl; cbn [mlen length Nat.eqb andb].
  - destruct (Nat.ltb_spec 0 (length l)); cbn [assign option_map mapSet].
    + exists (VMap l). split; [reflexivity|]. right. right. eauto.
    + exists (VString ""). split; [reflexivity|]. right. left. reflexivity.
  - destruct (Nat.ltb_spec 0 (length l)); cbn [assign option_map mapSet firstEntry snd].
    + rewrite String.eqb_refl. eexists. split; [reflexivity|]. right. right.
      eexists. split; [reflexivity|]. apply Forall_mapSet; [|exact Hl].
      unfold entryOK. cbn [fst snd]. rewrite shaped_cast. apply (proj2 text_key).
    + eexists. split; [reflexivity|]. left. eauto.
Qed.

(** What holds of the child elements of [content]. *)
Let childShape (x : xml) : Prop :=
  match x with
  | Element l a inner =>
      nameOK l = true
      /\ exists v, decodeElement c r x = Some [(normKey c l, v)] /\ valueOK v
  | _ => True
  end.

Lemma decodeItems_shape (skey : string) (content : list xml) :
  skey <> "" -> Forall childShape content ->
  forall (n : option gomap) (l : gomap) seq, ownOK skey n -> Forall entryOK l ->
    exists v, decodeItems c r (decodeElement c r) skey content n (Some l) seq
              = Some [(skey, v)] /\ valueOK v.
Proof.
  intros Hk. induction 1 as [|x content Hx _ IH]; intros n l seq Hn Hl.
  - cbn [decodeItems]. apply endElement_shape_value; assumption.
  - destruct x as [l0 a inner|data|]; cbn [decodeItems].
    + destruct Hx as (Hname & v & -> & Hv). cbn [firstEntry].
      destruct (name_keys l0 Hname) as (Hm & He & Hc).
      destruct (tagSeq_shape (normKey c l0) v seq Hm He Hc Hv) as [Hs _].
      destruct (tagSeq c v seq) as [val' seq']. cbn [fst] in Hs.
      destruct (addChild_shape l (normKey c l0) val' Hl Hm Hs) as (l' & -> & Hl').
      apply IH; assumption.
    + cbv zeta. destruct (0 <? GoStrings.len (charData c data))%nat; [|apply IH; assumption].
      destruct ((0 <? mlen (Some l))%nat || decodeSimpleValuesAsMap c).
      * cbn [assign option_map]. apply IH; [exact Hn|].
        apply Forall_mapSet; [|exact Hl]. unfold entryOK. cbn [fst snd].
        rewrite shaped_cast. apply (proj2 text_key).
      * rewrite (stringEqb_false skey "" Hk). cbn [negb].
        assert (Hown : exists n', assign n skey (cast c (charData c data) r skey) = Some n'
                                  /\ ownOK skey (Some n')).
        { destruct Hn as [->|(s & ->)]; cbn [assign option_map mapSet];
            rewrite ?String.eqb_refl; eexists; (split; [reflexivity|]); right; eauto. }
        destruct Hown as (n' & -> & Hn'). apply IH; assumption.
    + apply IH; assumption.
Qed.

Lemma decodeElement_shape (x : xml) :
  named x = true -> everywhere nameOK attrOK x = true -> childShape x.
Proof.
  induction x as [l a content IH| |] using xml_nested_ind; [|exact (fun _ _ => I)..].
  cbn [named everywhere]. intros Hn He.
  apply andb_prop in Hn. destruct Hn as [Hl Hc].
  apply andb_prop in He. destruct He as [He Hec]. apply andb_prop in He.
  destruct He as [Hname Hattr].
  assert (Hne : normKey c l <> "").
  { intros H. apply normKey_empty in H. subst l. discriminate. }
  assert (Hall : Forall childShape content).
  { rewrite forallb_forall in Hc, Hec. rewrite Forall_forall in *. intros y Hy. auto. }
  split; [exact Hname|]. rewrite decodeElement_Element.
  apply decodeItems_shape; [exact Hne|exact Hall|left; reflexivity|].
  apply loadAttrs_shape. exact Hattr.
Qed.

(** The value decoded for a document is shaped. *)
Lemma decodeElement_shaped (l : string) (a : list Attr) (content : list xml) :
  named (Element l a content) = true ->
  everywhere nameOK attrOK (Element l a content) = true ->
  exists v, decodeElement c r (Element l a content) = Some [(normKey c l, v)]
            /\ shaped leaf mapOK (normKey c l) v = true.
Proof.
  intros Hn He. destruct (decodeElement_shape _ Hn He) as (Hname & v & Hv & Hok).
  exists v. split; [exact Hv|].
  destruct (name_keys l Hname) as (Hm & Hes & Hc).
  apply (valueOK_shaped (normKey c l) v Hm Hes Hc Hok).
Qed.

End ShapeOfDecoded.

(** X14.  [NewMapXml] casts when it is called with one [cast] argument
    and that is [true], not with two.  The values of the map it returns,
    at any depth, are maps, lists, strings and, when it casts, booleans,
    [int64], [uint64] and [float64] values; an [int] occurs under the key
    "_seq" only.  The decoder stores no nil, no byte slice and no value of
    another type. *)
Theorem decoded_value_types {E : Externals} (c : Config) (casts : list bool) (l : string)
  (a : list Attr) (content : list xml) (fl : option string) :
  handleXMPPStreamTag c = false ->
  named (Element l a content) = true ->
  exists v,
    NewMapXml c (stream (tokens (Element l a content)) fl) casts
    = Returns (Some [(normKey c l, v)]) None (stream [] fl)
    /\ shaped (decodedLeaf (castArg casts)) (fun _ => true) (normKey c l) v = true.
Proof.
  intros Hx Hn. unfold NewMapXml. generalize (castArg casts). intros r.
  assert (Hcast : forall k s t, decodedLeaf r k (cast c s r t) = true).
  { intros k s t. pose proof (cast_leaf c r s t) as Hl.
    destruct r; [destruct (cast c s true t); try contradiction; reflexivity|].
    rewrite cast_disabled. reflexivity. }
  assert (He : everywhere (fun _ => true) (fun _ => true) (Element l a content) = true).
  { generalize (Element l a content). clear.
    induction x as [l a content IH| |] using xml_nested_ind; try reflexivity.
    cbn [everywhere andb]. rewrite andb_true_iff. split.
    - apply forallb_forall. reflexivity.
    - apply forallb_forall. rewrite Forall_forall in IH. exact IH. }
  destruct (decodeElement_shaped c r (decodedLeaf r) (fun _ => true) (fun _ => true)
              (fun _ => true)) with (l := l) (a := a) (content := content)
    as (v & Hv & Hs); auto.
  exists v. split; [|exact Hs].
  rewrite (xmlToMap_document c Hx r l a content fl Hn), Hv. reflexivity.
Qed.

Lemma decoded_value_types_witness :
  exists v : @any exampleExternals,
    NewMapXml defaults
      (stream (tokens (Element "a" [{| attrLocal := "n"; attrValue := "1" |}]
                         [Element "b" [] [Text "true"]; Element "b" [] []])) None) [true]
    = Returns (Some [(normKey defaults "a", v)]) None (stream [] None)
    /\ shaped (decodedLeaf (castArg [true])) (fun _ => true) (normKey defaults "a") v = true.
Proof.
  apply (decoded_value_types defaults [true] "a" [{| attrLocal := "n"; attrValue := "1" |}]
           [Element "b" [] [Text "true"]; Element "b" [] []] None); reflexivity.
Defined.

(** ** IncludeTagSeqNum *)

Section TagSeq.
Context {E : Externals}.
Variable c : Config.
Variable r : bool.
Hypothesis seqOn : includeTagSeqNum c = true.

Lemma tagSeq_numbers (v : any) (s : Z) :
  (exists x y, v = cast c x r y) \/ v = VString "" \/ (exists m, v = VMap m) ->
  seqOf (fst (tagSeq c v s)) = Some (VInt s) /\ snd (tagSeq c v s) = (s + 1)%Z.
Proof.
  unfold tagSeq. rewrite seqOn. intros [(x & y & ->)|[->|(m & ->)]].
  - pose proof (cast_leaf c r x y) as Hl.
    destruct (cast c x r y); try contradiction; cbn [fst snd seqOf];
      rewrite mapGet_mapSet_same; auto.
  - cbn [fst snd seqOf]. rewrite mapGet_mapSet_same. auto.
  - cbn [fst snd seqOf]. rewrite mapGet_mapSet_same. auto.
Qed.

Lemma childEntries_seqs (k : string) (content : list xml) (s : Z) :
  forallb named content = true ->
  map seqOf (valuesFor k (childEntries c r content s)) = seqsAt k (childKeys c content) s.
Proof.
  revert s. induction content as [|x content IH]; intros s Hn; [reflexivity|].
  cbn [forallb] in Hn. apply andb_prop in Hn. destruct Hn as [Hx Hc].
  destruct x as [l a inner| |]; cbn [childEntries childKeys]; [|apply IH; exact Hc..].
  assert (He : everywhere (fun _ => true) (fun _ => true) (Element l a inner) = true).
  { generalize (Element l a inner). clear.
    induction x as [l a content IH| |] using xml_nested_ind; try reflexivity.
    cbn [everywhere andb]. rewrite andb_true_iff. split.
    - apply forallb_forall. reflexivity.
    - apply forallb_forall. rewrite Forall_forall in IH. exact IH. }
  destruct (decodeElement_shape c r (fun _ _ => true) (fun _ => true) (fun _ => true)
              (fun _ => true)) with (x := Element l a inner)
    as (_ & v & Hv & Hok); auto.
  rewrite Hv. cbn [firstEntry].
  assert (Hk : (exists x y, v = cast c x r y) \/ v = VString "" \/ (exists m, v = VMap m)).
  { destruct Hok as [H|[H|(m & H & _)]]; eauto. }
  destruct (tagSeq_numbers v s Hk) as [H1 H2].
  destruct (tagSeq c v s) as [val' seq']. cbn [fst snd] in H1, H2. subst seq'.
  rewrite valuesFor_cons. cbn [seqsAt].
  destruct (normKey c l =? k); cbn [map]; rewrite ?H1; f_equal; apply IH; exact Hc.
Qed.

End TagSeq.

Lemma seqsAt_In {E : Externals} (k : string) (ks : list string) (s : Z) :
  In k ks -> seqsAt k ks s <> [].
Proof.
  revert s. induction ks as [|k' ks IH]; intros s Hin; [destruct Hin|].
  cbn [seqsAt]. destruct (String.eqb_spec k' k) as [_|Hne]; [discriminate|].
  destruct Hin as [Heq|Hin]; [contradiction|]. apply IH. exact Hin.
Qed.

Lemma members_promoted {E : Externals} (vals : list any) :
  Forall (fun v => isList v = false) vals -> members (promoted vals) = vals.
Proof.
  intros H. destruct vals as [|v [|w vals]]; try reflexivity.
  inversion H as [|? ? Hv _]; subst. destruct v; try reflexivity. discriminate Hv.
Qed.

(** X15.  After [IncludeTagSeqNum(true)], the values that the map decoded
    for an element holds for its child elements are maps with an entry
    "_seq": under a key [k] of the children the map holds their values in
    the order of the document, and the "_seq" entries of these are the
    places of the children of that key among all the child elements,
    counted from 0.  The count is per parent, it runs over the children of
    every name, and attributes and character data do not advance it. *)
Theorem tag_seq_numbers_children {E : Externals} (c : Config) (r : bool) (l : string)
  (a : list Attr) (content : list xml) (fl : option string) (k : string) :
  let c' := IncludeTagSeqNum [true] c in
  handleXMPPStreamTag c = false ->
  named (Element l a content) = true ->
  k <> textK c ->
  mapGet k (loadAttrs c' a r []) = None ->
  In k (childKeys c' content) ->
  exists m,
    xmlToMap c' (stream (tokens (Element l a content)) fl) r
    = Returns (Some [(normKey c' l, VMap m)]) None (stream [] fl)
    /\ map seqOf (members (mapGet k m)) = seqsAt k (childKeys c' content) 0.
Proof.
  intros c' HnoXMPP Hnamed Hk Hattr Hin.
  assert (Hc : forallb named content = true).
  { cbn [named] in Hnamed. apply andb_prop in Hnamed. tauto. }
  pose proof (childEntries_seqs c' r eq_refl k content 0 Hc) as Hseqs.
  assert (Hvals : valuesFor k (childEntries c' r content 0) <> []).
  { intros He. rewrite He in Hseqs. cbn [map] in Hseqs.
    apply (seqsAt_In k _ 0%Z Hin). symmetry. exact Hseqs. }
  destruct (decodeElement_promotes c' r l a content k Hnamed Hk Hattr Hvals) as (m & Hd & Hm).
  exists m. split.
  - rewrite (xmlToMap_document c' HnoXMPP r l a content fl Hnamed), Hd. reflexivity.
  - rewrite Hm, members_promoted; [exact Hseqs|].
    assert (Hall : Forall (childOK c' r) content).
    { rewrite forallb_forall in Hc. apply Forall_forall. intros y Hy.
      apply decodeElement_ok. auto. }
    pose proof (childEntries_not_list c' r content Hall 0%Z) as Hnl.
    unfold valuesFor. rewrite Forall_forall in *. intros y Hy.
    apply in_map_iff in Hy. destruct Hy as (kv & <- & Hy).
    apply filter_In in Hy. apply Hnl. tauto.
Qed.

Lemma tag_seq_numbers_children_witness :
  exists m,
    xmlToMap (IncludeTagSeqNum [true] defaults)
      (stream (tokens (Element "p" [] [Element "b" [] [Text "x"]; Text "y"; Element "c" [] [];
                                       Element "b" [] []])) None) false
    = Returns (Some [("p", @VMap (@float64 exampleExternals) m)]) None (stream [] None)
    /\ map seqOf (members (mapGet "b" m)) = [Some (VInt 0); Some (VInt 2)].
Proof.
  apply (tag_seq_numbers_children defaults false "p" []
           [Element "b" [] [Text "x"]; Text "y"; Element "c" [] []; Element "b" [] []]
           None "b"); try reflexivity.
  - discriminate.
  - cbn. tauto.
Defined.

(** ** CoerceKeysToLower *)

Section LowerCase.
Context {E : Externals}.

Lemma isLower_lower_byte (ch : ascii) :
  negb ((65 <=? nat_of_ascii (GoStrings.lower_byte ch))%nat
        && (nat_of_ascii (GoStrings.lower_byte ch) <=? 90)%nat) = true.
Proof. destruct ch as [[] [] [] [] [] [] [] []]; reflexivity. Qed.

Lemma isLower_lowerASCII (s : string) : isLower (GoStrings.lowerASCII s) = true.
Proof.
  unfold isLower. induction s as [|ch s IH]; [reflexivity|].
  cbn [GoStrings.lowerASCII list_ascii_of_string forallb].
  rewrite isLower_lower_byte. exact IH.
Qed.

Lemma isLower_snake (s : string) :
  isLower s = true -> isLower (GoStrings.dash_to_underscore s) = true.
Proof.
  unfold isLower. induction s as [|ch s IH]; [reflexivity|].
  cbn [GoStrings.dash_to_underscore list_ascii_of_string forallb].
  intros H. apply andb_prop in H. destruct H as [Hc Hs]. rewrite (IH Hs), andb_true_r.
  destruct (Ascii.eqb ch "-"); [reflexivity|exact Hc].
Qed.

Lemma isASCII_snake (s : string) :
  GoStrings.isASCII (GoStrings.dash_to_underscore s) = GoStrings.isASCII s.
Proof.
  unfold GoStrings.isASCII. induction s as [|ch s IH]; [reflexivity|].
  cbn [GoStrings.dash_to_underscore list_ascii_of_string forallb]. rewrite IH. f_equal.
  destruct (Ascii.eqb_spec ch "-"); [subst ch|]; reflexivity.
Qed.

Lemma isASCII_append (a b : string) :
  GoStrings.isASCII (a ++ b) = GoStrings.isASCII a && GoStrings.isASCII b.
Proof.
  unfold GoStrings.isASCII. induction a as [|ch a IH]; [reflexivity|].
  cbn [append list_ascii_of_string forallb]. rewrite IH, andb_assoc. reflexivity.
Qed.

(** On a string of ASCII bytes [strings.ToLower] leaves no upper case
    letter. *)
Lemma isLower_ToLower (s : string) : GoStrings.isASCII s = true -> isLower (ToLower s) = true.
Proof. intros H. unfold ToLower. rewrite H. apply isLower_lowerASCII. Qed.

Lemma isLower_normKey (c : Config) (l : string) :
  lowerCase c = true -> GoStrings.isASCII l = true -> isLower (normKey c l) = true.
Proof.
  intros Hl Ha. unfold normKey. rewrite Hl. cbv zeta.
  destruct (snakeCaseKeys c); [apply isLower_snake|]; apply isLower_ToLower, Ha.
Qed.

Lemma isLower_attrKey (c : Config) (v : Attr) :
  lowerCase c = true -> GoStrings.isASCII (attrPrefix c) = true ->
  GoStrings.isASCII (attrLocal v) = true -> isLower (attrKey c v) = true.
Proof.
  intros Hl Hp Ha. unfold attrKey. rewrite Hl. cbv zeta. apply isLower_ToLower.
  rewrite isASCII_append, Hp. destruct (snakeCaseKeys c); [rewrite isASCII_snake|]; exact Ha.
Qed.

End LowerCase.

(** X16.  After [CoerceKeysToLower(true)], every key of the map decoded
    from a document whose names are ASCII, at any depth, is without upper
    case letters 'A' to 'Z': the names of the elements, the keys of the
    attributes with their prefix, and "_seq"; the text key is when it is set
    so.  (A name with other bytes goes through [mapToLower], the mapping of
    the runes by [unicode.ToLower], of which the bytes are not known here.) *)
Theorem lower_case_keys {E : Externals} (c : Config) (r : bool) (l : string)
  (a : list Attr) (content : list xml) (fl : option string) :
  isLower (textK c) = true ->
  GoStrings.isASCII (attrPrefix c) = true ->
  everywhere GoStrings.isASCII (fun v => GoStrings.isASCII (attrLocal v)) (Element l a content)
  = true ->
  handleXMPPStreamTag c = false ->
  named (Element l a content) = true ->
  exists v,
    xmlToMap (CoerceKeysToLower [true] c) (stream (tokens (Element l a content)) fl) r
    = Returns (Some [(normKey (CoerceKeysToLower [true] c) l, v)]) None (stream [] fl)
    /\ shaped (fun k _ => isLower k) isLower (normKey (CoerceKeysToLower [true] c) l) v = true.
Proof.
  intros Ht Hp He Hx Hn. set (c' := CoerceKeysToLower [true] c).
  assert (Hl : lowerCase c' = true) by reflexivity.
  destruct (decodeElement_shaped c' r (fun k _ => isLower k) isLower GoStrings.isASCII
              (fun v => GoStrings.isASCII (attrLocal v)))
    with (l := l) (a := a) (content := content) as (v & Hv & Hs); auto.
  - intros l0 H0. pose proof (isLower_normKey c' l0 Hl H0). auto.
  - intros v0 H0. apply isLower_attrKey; assumption.
  - exists v. split; [|exact Hs].
    rewrite (xmlToMap_document c' Hx r l a content fl Hn), Hv. reflexivity.
Qed.

Lemma lower_case_keys_witness :
  exists v : @any exampleExternals,
    xmlToMap (CoerceKeysToLower [true] defaults)
      (stream (tokens (Element "Doc" [{| attrLocal := "ID"; attrValue := "1" |}]
                         [Element "Item" [] [Text "x"]])) None) false
    = Returns (Some [(normKey (CoerceKeysToLower [true] defaults) "Doc", v)]) None
        (stream [] None)
    /\ shaped (fun k _ => isLower k) isLower
         (normKey (CoerceKeysToLower [true] defaults) "Doc") v = true.
Proof.
  apply (lower_case_keys defaults false "Doc"
           [{| attrLocal := "ID"; attrValue := "1" |}] [Element "Item" [] [Text "x"]] None);
    reflexivity.
Defined.

(** ** Encoding what was decoded *)

Section Reencode.
Context {E : Externals}.
Variable c : Config.

(** The check of [shaped] under which a decoded value is encodable. *)
Let attrLeaf (k : string) (v : any) : bool :=
  if isAttrKey c k then attrValueOK v else encodable c v.

Let elemKey (k : string) : bool := negb (isAttrKey c k).

Lemma shaped_encodable (v : any) :
  forall k, shaped attrLeaf elemKey k v = true ->
    if isAttrKey c k then attrValueOK v = true else encodable c v = true.
Proof.
  induction v as [vv IH|l IH|v Hv|vv IH] using any_nested_ind; intros k;
    [| | |cbn [shaped]; unfold attrLeaf; destruct (isAttrKey c k); auto].
  - cbn [shaped]. unfold elemKey at 1. intros H. apply andb_prop in H.
    destruct H as [Hk H]. apply negb_true_iff in Hk. rewrite Hk.
    cbn [encodable]. apply forallb_forall. intros [k' v'] Hin.
    rewrite forallb_forall in H. specialize (H _ Hin). cbn [fst snd] in *.
    rewrite Forall_forall in IH. specialize (IH _ Hin k' H). cbn [snd] in IH.
    destruct (isAttrKey c k'); [exact IH|]. rewrite IH. apply orb_true_r.
  - cbn [shaped]. unfold elemKey at 1. intros H. apply andb_prop in H.
    destruct H as [Hk H]. pose proof Hk as Hk'. apply negb_true_iff in Hk'. rewrite Hk'.
    cbn [encodable]. apply forallb_forall. intros v' Hin.
    rewrite forallb_forall in H. specialize (H _ Hin).
    rewrite Forall_forall in IH. specialize (IH _ Hin k H). rewrite Hk' in IH. exact IH.
  - destruct v; try contradiction; cbn [shaped]; unfold attrLeaf;
      destruct (isAttrKey c k); auto.
Qed.

Lemma cast_attrValueOK (s t : string) (r : bool) :
  r = false \/ castToInt c = false -> attrValueOK (cast c s r t) = true.
Proof.
  intros H. unfold cast. destruct (skipTag c t); [reflexivity|].
  destruct r; [|reflexivity]. destruct H as [H|H]; [discriminate|].
  destruct (negb (castNanInf c) && isNanInf s); [reflexivity|].
  unfold castNumeric, castFloat, castBool. rewrite H.
  repeat match goal with
         | |- context [if ?b then _ else _] => destruct b
         | |- context [match ?x with Some _ => _ | None => _ end] => destruct x
         end; reflexivity.
Qed.

Lemma cast_encodable (s t : string) (r : bool) : encodable c (cast c s r t) = true.
Proof.
  pose proof (cast_leaf c r s t) as H. destruct (cast c s r t); try contradiction; reflexivity.
Qed.

Lemma decodeElement_encodable (r : bool) (l : string) (a : list Attr) (content : list xml) :
  r = false \/ castToInt c = false ->
  named (Element l a content) = true ->
  everywhere (fun l => negb (isAttrKey c (normKey c l))) (fun _ => true) (Element l a content)
  = true ->
  exists v, decodeElement c r (Element l a content) = Some [(normKey c l, v)]
            /\ isList v = false /\ encodable c v = true.
Proof.
  intros Hr Hn He.
  assert (Hleaf : forall k s t, attrLeaf k (cast c s r t) = true).
  { intros k s t. unfold attrLeaf.
    destruct (isAttrKey c k); [apply cast_attrValueOK; exact Hr|apply cast_encodable]. }
  assert (Hempty : forall k, attrLeaf k (VString "") = true)
    by (intros k; unfold attrLeaf; destruct (isAttrKey c k); reflexivity).
  destruct (decodeElement_shaped c r attrLeaf elemKey
              (fun l => negb (isAttrKey c (normKey c l))) (fun _ => true))
    with (l := l) (a := a) (content := content) as (v & Hv & Hs); auto.
  { intros _ z. unfold attrLeaf. destruct (isAttrKey c "_seq"); reflexivity. }
  exists v. split; [exact Hv|].
  destruct (decodeElement_ok c r _ Hn) as (v' & Hv' & Hlist).
  rewrite Hv in Hv'. inversion Hv'; subst v'. split; [exact Hlist|].
  cbn [everywhere] in He. apply andb_prop in He. destruct He as [He _].
  apply andb_prop in He. destruct He as [Hk _]. apply negb_true_iff in Hk.
  pose proof (shaped_encodable v (normKey c l) Hs) as H. rewrite Hk in H. exact H.
Qed.

End Reencode.

(** X17.  What the decoder returns, the encoder takes.  When the values are
    not cast, or not to integers, the map decoded from a well-nested
    document in which no element has a name that reads as an attribute key
    encodes without an error, with or without indentation, under any tag,
    and [Xml] on it returns no error. *)
Theorem decoded_map_encodes {E : Externals} (c : Config) (r : bool) (l : string)
  (a : list Attr) (content : list xml) (fl : option string) :
  handleXMPPStreamTag c = false ->
  isAttrKey c (textK c) = false ->
  r = false \/ castToInt c = false ->
  named (Element l a content) = true ->
  everywhere (fun l => negb (isAttrKey c (normKey c l))) (fun _ => true) (Element l a content)
  = true ->
  exists k v,
    xmlToMap c (stream (tokens (Element l a content)) fl) r
    = Returns (Some [(k, v)]) None (stream [] fl)
    /\ (forall doIndent key p b,
           snd (marshalMapToXmlIndent c doIndent v key p b) = None)
    /\ (xmlCheckIsValid c = false -> snd (Xml c [(k, v)] []) = None).
Proof.
  intros Hx Ht Hr Hn He.
  destruct (decodeElement_encodable c r l a content Hr Hn He) as (v & Hv & Hlist & Hen).
  exists (normKey c l), v.
  assert (Henc : forall doIndent key p b,
             snd (marshalMapToXmlIndent c doIndent v key p b) = None).
  { intros doIndent key p b. apply (proj1 (encodable_marshal c Ht v) Hen). }
  split; [|split; [exact Henc|]].
  - rewrite (xmlToMap_document c Hx r l a content fl Hn), Hv. reflexivity.
  - intros Hc. unfold Xml.
    assert (Hroot : xmlRoot [(normKey c l, v)] [] = (normKey c l, v))
      by (destruct v; try reflexivity; discriminate).
    rewrite Hroot. unfold checkIsValid.
    specialize (Henc false (normKey c l) (newPretty "" "") "").
    destruct (marshalMapToXmlIndent c false v (normKey c l) (newPretty "" "") "") as [b e].
    rewrite Hc. cbn [snd] in *. exact Henc.
Qed.

Lemma decoded_map_encodes_witness :
  exists k (v : @any exampleExternals),
    xmlToMap defaults
      (stream (tokens (Element "a" [{| attrLocal := "n"; attrValue := "1" |}]
                         [Element "b" [] [Text "x"]; Element "b" [] []])) None) true
    = Returns (Some [(k, v)]) None (stream [] None)
    /\ (forall doIndent key p b,
           snd (marshalMapToXmlIndent defaults doIndent v key p b) = None)
    /\ (xmlCheckIsValid defaults = false -> snd (Xml defaults [(k, v)] []) = None).
Proof.
  apply (decoded_map_encodes defaults true "a" [{| attrLocal := "n"; attrValue := "1" |}]
           [Element "b" [] [Text "x"]; Element "b" [] []] None);
    [reflexivity|reflexivity|right; reflexivity|reflexivity|reflexivity].
Defined.

(** ** Attributes that do not encode *)

Section BadAttributes.
Context {E : Externals}.
Variable c : Config.

Lemma merged_not_attr (x : any) (vals : list any) :
  attrValueOK x = false ->
  exists y, merged (Some x) vals = Some y /\ attrValueOK y = false.
Proof.
  unfold merged. revert x. induction vals as [|val vals IH]; intros x Hx; cbn [fold_left].
  - eauto.
  - apply IH. destruct x; reflexivity.
Qed.

Lemma scanAttrs_invalid (vv : gomap) (k : string) (v : any) :
  In (k, v) vv -> isAttrKey c k = true -> attrValueOK v = false ->
  exists k' v', scanAttrs c vv = inr (InvalidAttribute k' v').
Proof.
  intros Hin Hk Hv. induction vv as [|[k0 v0] vv IH]; [destruct Hin|].
  cbn [scanAttrs]. destruct Hin as [Heq|Hin].
  - inversion Heq; subst. rewrite Hk, (attrValueOf_not_OK c k v Hv). eauto.
  - destruct (IH Hin) as (k' & v' & ->). destruct (isAttrKey c k0); [|eauto].
    destruct (attrValueOK v0) eqn:H0.
    + destruct (attrValueOf_OK c k0 v0 H0) as [ss ->]. eauto.
    + rewrite (attrValueOf_not_OK c k0 v0 H0). eauto.
Qed.

(** An attribute whose value is not of a type of attributes stays in the
    map of its element, as it is or in a list. *)
Lemma decodeElement_keeps_attr (r : bool) (l : string) (a : list Attr) (content : list xml)
  (k : string) (x : any) :
  named (Element l a content) = true ->
  k <> textK c ->
  mapGet k (loadAttrs c a r []) = Some x -> attrValueOK x = false ->
  exists m y, decodeElement c r (Element l a content) = Some [(normKey c l, VMap m)]
              /\ In (k, y) m /\ attrValueOK y = false.
Proof.
  cbn [named]. intros Hn Hk Hx Hbad. apply andb_prop in Hn. destruct Hn as [Hl Hc].
  assert (Hne : normKey c l <> "").
  { intros H. apply normKey_empty in H. subst l. discriminate. }
  assert (Hall : Forall (childOK c r) content).
  { rewrite forallb_forall in Hc. rewrite Forall_forall. intros y Hy.
    apply decodeElement_ok. auto. }
  destruct (decodeItems_merges c r (normKey c l) content Hne Hall (Some [])
              (loadAttrs c a r []) 0%Z (or_introl eq_refl))
    as (n' & l' & Heq & Hn' & Hlen & _ & Hget).
  assert (Hpos : (0 < length l')%nat).
  { destruct (loadAttrs c a r []); [discriminate|]. cbn [length] in Hlen. lia. }
  destruct (endElement_value c (normKey c l) n' l' Hn') as (v & Hv & _ & Hmap).
  destruct (Hmap Hpos) as (m & -> & Hm).
  destruct (merged_not_attr x (valuesFor k (childEntries c r content 0)) Hbad)
    as (y & Hy & Hybad).
  exists m, y. rewrite decodeElement_Element, Heq, Hv. split; [reflexivity|].
  split; [|exact Hybad]. apply mapGet_Some_In.
  rewrite (Hm k Hk), (Hget k Hk), Hx. exact Hy.
Qed.

End BadAttributes.

(** X18.  After [CastValuesToInt(true)] and with the cast asked for, an
    attribute whose value is read as a [uint64], a number above the largest
    [int64], decodes, and the map decoded does not encode: the encoder takes
    no [uint64] for the value of an attribute and returns its error for an
    invalid attribute value. *)
Theorem uint64_attribute_does_not_encode {E : Externals} (c : Config) (l : string)
  (a : list Attr) (content : list xml) (fl : option string) (k : string) (at' : Attr) (u : Z) :
  handleXMPPStreamTag c = false ->
  isAttrKey c (textK c) = false ->
  named (Element l a content) = true ->
  isAttrKey c k = true ->
  lastAttr c k a = Some at' ->
  cast (CastValuesToInt [true] c) (attrVal c at') true k = VUint64 u ->
  exists m,
    xmlToMap (CastValuesToInt [true] c) (stream (tokens (Element l a content)) fl) true
    = Returns (Some [(normKey c l, VMap m)]) None (stream [] fl)
    /\ forall doIndent key p b, exists k' v',
         snd (marshalMapToXmlIndent (CastValuesToInt [true] c) doIndent (VMap m) key p b)
         = Some (InvalidAttribute k' v').
Proof.
  intros Hx Ht Hn Hk Hlast Hcast. set (c' := CastValuesToInt [true] c) in *.
  assert (Hkt : k <> textK c') by (intros ->; unfold c' in Hk; cbn in Hk, Ht; congruence).
  assert (Hget : mapGet k (loadAttrs c' a true []) = Some (VUint64 u)).
  { rewrite loadAttrs_get. change (lastAttr c' k a) with (lastAttr c k a).
    rewrite Hlast. cbn [option_map]. change (attrVal c' at') with (attrVal c at').
    rewrite Hcast. reflexivity. }
  destruct (decodeElement_keeps_attr c' true l a content k (VUint64 u) Hn Hkt Hget eq_refl)
    as (m & y & Hdec & Hin & Hy).
  exists m. split.
  - rewrite (xmlToMap_document c' Hx true l a content fl Hn), Hdec. reflexivity.
  - intros doIndent key p b.
    destruct (scanAttrs_invalid c' m k y Hin Hk Hy) as (k' & v' & Hs).
    exists k', v'. rewrite marshal_map. unfold andThen at 1.
    destruct (openTag doIndent key (VMap m) p b) as [b' [e|]] eqn:Ho.
    + pose proof (succeeds_openTag doIndent key (VMap m) p b) as Hok.
      rewrite Ho in Hok. discriminate.
    + rewrite Hs. reflexivity.
Qed.

Lemma uint64_attribute_does_not_encode_witness :
  exists m : @gomap exampleExternals,
    xmlToMap (CastValuesToInt [true] defaults)
      (stream (tokens (Element "e" [{| attrLocal := "n"; attrValue := "18446744073709551615" |}]
                         [Text "x"])) None) true
    = Returns (Some [(normKey defaults "e", VMap m)]) None (stream [] None)
    /\ forall doIndent key p b, exists k' v',
         snd (marshalMapToXmlIndent (CastValuesToInt [true] defaults) doIndent (VMap m) key p b)
         = Some (InvalidAttribute k' v').
Proof.
  apply (uint64_attribute_does_not_encode defaults "e"
           [{| attrLocal := "n"; attrValue := "18446744073709551615" |}] [Text "x"] None
           "-n" {| attrLocal := "n"; attrValue := "18446744073709551615" |}
           18446744073709551615);
    reflexivity.
Defined.

(** ** Character data before the first child element *)

Section MixedContent.
Context {E : Externals}.
Variable c : Config.
Variable r : bool.

(** Character data ahead of the first child element of an element without
    attributes is kept in [n]. *)
Lemma decodeItems_text_ahead dec (skey : string) (pre tail : list xml) (cur : option string)
  (seq : Z) :
  skey <> "" -> decodeSimpleValuesAsMap c = false ->
  noElements pre = true ->
  decodeItems c r dec skey (pre ++ tail)
    (Some (match cur with Some txt => [(skey, cast c txt r skey)] | None => [] end))
    (Some []) seq
  = decodeItems c r dec skey tail
      (Some (match lastTextFrom c cur pre with
             | Some txt => [(skey, cast c txt r skey)]
             | None => []
             end))
      (Some []) seq.
Proof.
  intros Hk Hd. revert cur. induction pre as [|x pre IH]; intros cur Hc; [reflexivity|].
  cbn [noElements forallb] in Hc. apply andb_prop in Hc. destruct Hc as [Hx Hc].
  fold (noElements pre) in Hc.
  destruct x as [| data |]; [discriminate| |exact (IH cur Hc)].
  cbn [app decodeItems]. cbv zeta. unfold lastTextFrom. cbn [fold_left].
  fold (lastTextFrom c
          (if (0 <? GoStrings.len (charData c data))%nat then Some (charData c data) else cur)
          pre).
  destruct (0 <? GoStrings.len (charData c data))%nat; [|exact (IH cur Hc)].
  rewrite Hd. cbn [mlen length Nat.ltb Nat.leb orb].
  rewrite (stringEqb_false skey "" Hk). cbn [negb assign option_map].
  rewrite <- (IH (Some (charData c data)) Hc). f_equal.
  destruct cur; cbn [mapSet]; [rewrite String.eqb_refl|]; reflexivity.
Qed.

(** Once [na] holds an entry, the loop leaves [n] as it is. *)
Lemma decodeItems_keeps_own (skey : string) (content : list xml) :
  Forall (childOK c r) content ->
  forall (n : option gomap) (l : gomap) seq, (0 < length l)%nat ->
    exists l', decodeItems c r (decodeElement c r) skey content n (Some l) seq
               = endElement c skey n (Some l')
               /\ (0 < length l')%nat.
Proof.
  induction 1 as [|x content Hx _ IH]; intros n l seq Hl; [cbn [decodeItems]; eauto|].
  destruct x as [l0 a inner|data|]; cbn [decodeItems].
  - destruct Hx as (v & -> & _). cbn [firstEntry].
    destruct (tagSeq c v seq) as [val' seq'].
    unfold addChild. cbn [mget].
    destruct (mapGet (normKey c l0) l); cbn [assign option_map]; apply IH, mapSet_length.
  - cbv zeta. destruct (0 <? GoStrings.len (charData c data))%nat; [|apply IH; exact Hl].
    cbn [mlen]. rewrite (proj2 (Nat.ltb_lt _ _) Hl). cbn [orb assign option_map].
    apply IH, mapSet_length.
  - apply IH. exact Hl.
Qed.

Lemma decodeElement_text_ahead (l : string) (pre rest : list xml) (l1 : string)
  (a1 : list Attr) (c1 : list xml) (txt : string) :
  decodeSimpleValuesAsMap c = false ->
  named (Element l [] (pre ++ Element l1 a1 c1 :: rest)) = true ->
  noElements pre = true -> lastText c pre = Some txt ->
  exists m, decodeElement c r (Element l [] (pre ++ Element l1 a1 c1 :: rest))
            = Some [(normKey c l, VMap m)]
            /\ mapGet (textK c) m = Some (cast c txt r (normKey c l)).
Proof.
  intros Hd Hn Hpre Htxt. cbn [named] in Hn. apply andb_prop in Hn. destruct Hn as [Hl Hc].
  assert (Hne : normKey c l <> "").
  { intros H. apply normKey_empty in H. subst l. discriminate. }
  rewrite forallb_app in Hc. apply andb_prop in Hc. destruct Hc as [_ Hc].
  cbn [forallb] in Hc. apply andb_prop in Hc. destruct Hc as [H1 Hrest].
  assert (Hall : Forall (childOK c r) rest).
  { rewrite forallb_forall in Hrest. rewrite Forall_forall. intros y Hy.
    apply decodeElement_ok. auto. }
  rewrite decodeElement_Element. cbn [loadAttrs fold_left].
  rewrite (decodeItems_text_ahead _ (normKey c l) pre _ None 0 Hne Hd Hpre).
  fold (lastText c pre). rewrite Htxt. cbn [decodeItems].
  destruct (decodeElement_ok c r _ H1) as (v & -> & _). cbn [firstEntry].
  destruct (tagSeq c v 0) as [val' seq']. cbn [addChild mget mapGet assign option_map mapSet].
  destruct (decodeItems_keeps_own (normKey c l) rest Hall
              (Some [(normKey c l, cast c txt r (normKey c l))])
              [(normKey c l1, val')] seq') as (l' & -> & Hpos); [cbn; lia|].
  unfold endElement. cbn [mlen length Nat.eqb andb firstEntry snd].
  rewrite (proj2 (Nat.ltb_lt _ _) Hpos). cbn [assign option_map mapSet].
  rewrite String.eqb_refl. eexists. split; [reflexivity|]. apply mapGet_mapSet_same.
Qed.

End MixedContent.

(** X19.  In an element without attributes that has child elements,
    character data ahead of the first child is what the map keeps under the
    text key: the last piece there that does not trim to nothing.  It is
    cast under the tag of the element, not under the text key, and
    character data that follows a child element is dropped for it. *)
Theorem text_ahead_of_children_wins {E : Externals} (c : Config) (r : bool) (l : string)
  (pre rest : list xml) (l1 : string) (a1 : list Attr) (c1 : list xml) (txt : string)
  (fl : option string) :
  handleXMPPStreamTag c = false ->
  decodeSimpleValuesAsMap c = false ->
  named (Element l [] (pre ++ Element l1 a1 c1 :: rest)) = true ->
  noElements pre = true -> lastText c pre = Some txt ->
  exists m,
    xmlToMap c (stream (tokens (Element l [] (pre ++ Element l1 a1 c1 :: rest))) fl) r
    = Returns (Some [(normKey c l, VMap m)]) None (stream [] fl)
    /\ mapGet (textK c) m = Some (cast c txt r (normKey c l)).
Proof.
  intros Hx Hd Hn Hpre Htxt.
  destruct (decodeElement_text_ahead c r l pre rest l1 a1 c1 txt Hd Hn Hpre Htxt)
    as (m & Hdec & Hget).
  exists m. split; [|exact Hget].
  rewrite (xmlToMap_document c Hx r l [] _ fl Hn), Hdec. reflexivity.
Qed.

Lemma text_ahead_of_children_wins_witness :
  exists m : @gomap exampleExternals,
    xmlToMap defaults
      (stream (tokens (Element "p" [] ([Text "one "] ++ Element "b" [] [Text "two"]
                                         :: [Text " three"]))) None) false
    = Returns (Some [(normKey defaults "p", VMap m)]) None (stream [] None)
    /\ mapGet (textK defaults) m = Some (cast defaults "one" false (normKey defaults "p")).
Proof.
  apply (text_ahead_of_children_wins defaults false "p" [Text "one "] [Text " three"]
           "b" [] [Text "two"] "one" None); reflexivity.
Defined.

(** ** Attributes without a prefix *)

Section NoPrefix.
Context {E : Externals}.

Lemma isAttrKey_no_prefix (c : Config) (k : string) :
  attrPrefix c = "" -> isAttrKey c k = false.
Proof. intros H. unfold isAttrKey, lenAttrPrefix. rewrite H. reflexivity. Qed.

Lemma scanAttrs_no_prefix (c : Config) (vv : gomap) :
  attrPrefix c = "" -> scanAttrs c vv = inl [].
Proof.
  intros H. induction vv as [|[k v] vv IH]; [reflexivity|].
  cbn [scanAttrs]. rewrite (isAttrKey_no_prefix c k H). exact IH.
Qed.

Lemma encode_attribute_as_child (e a av : string) :
  a <> "$" -> av <> "" ->
  marshalMapToXmlIndent (PrependAttrWithHyphen false defaults) false
    (VMap [(a, VString av)]) e (newPretty "" "") ""
  = ("<" ++ e ++ "><" ++ a ++ ">" ++ av ++ "</" ++ a ++ "></" ++ e ++ ">", None).
Proof.
  intros Ha Hav. rewrite marshal_map, scanAttrs_no_prefix by reflexivity.
  assert (Hget : mapGet (textK (PrependAttrWithHyphen false defaults)) [(a, VString av)] = None).
  { cbn [mapGet textK PrependAttrWithHyphen defaults]. rewrite (stringEqb_false a "$" Ha).
    reflexivity. }
  rewrite Hget.
  assert (Hcalls : elemCalls (PrependAttrWithHyphen false defaults) false [(a, VString av)]
                   = [(a, (VString av,
                           marshalMapToXmlIndent (PrependAttrWithHyphen false defaults) false
                             (VString av)))]).
  { unfold elemCalls, scanElems. cbn [map filter fst snd]. unfold isElemKey.
    cbn [textK PrependAttrWithHyphen defaults]. rewrite (stringEqb_false a "$" Ha).
    rewrite isAttrKey_no_prefix by reflexivity. reflexivity. }
  cbv zeta. rewrite Hcalls. destruct av as [|ch av]; [contradiction|].
  cbn [eachElem isList negb andb marshalMapToXmlIndent settle marshalSimple].
  unfold escaped, openTag, closeTag, andThen, when, write, skip.
  cbn. repeat (progress (rewrite ?append_assoc; cbn)). reflexivity.
Qed.

End NoPrefix.

(** X20.  After [PrependAttrWithHyphen(false)], which is [SetAttrPrefix]
    with the empty string, decoding and encoding are not symmetric: an
    attribute decodes under its bare name, no key is an attribute key for
    the encoder, and the attribute is encoded as a child element:
    <e a="v"/> becomes the map e:{a:"v"}, and that <e><a>v</a></e>. *)
Theorem attribute_without_prefix_becomes_child {E : Externals} (e a av : string)
  (fl : option string) :
  e <> "" -> a <> "$" -> av <> "" ->
  xmlToMap (PrependAttrWithHyphen false defaults)
    (stream (tokens (Element e [{| attrLocal := a; attrValue := av |}] [])) fl) false
  = Returns (Some [(e, VMap [(a, VString av)])]) None (stream [] fl)
  /\ Xml (PrependAttrWithHyphen false defaults) [(e, VMap [(a, VString av)])] []
     = (Some ("<" ++ e ++ "><" ++ a ++ ">" ++ av ++ "</" ++ a ++ "></" ++ e ++ ">"), None)
  /\ (forall c k, isAttrKey (PrependAttrWithHyphen false c) k = false)
  /\ (forall c, SetAttrPrefix "" c = PrependAttrWithHyphen false c).
Proof.
  intros He Ha Hav. split; [|split; [|split]].
  - rewrite (xmlToMap_document (PrependAttrWithHyphen false defaults) eq_refl)
      by (apply named_element; [exact He|reflexivity]).
    rewrite decodeElement_Element. reflexivity.
  - unfold Xml. cbn [xmlRoot]. rewrite (encode_attribute_as_child e a av Ha Hav). reflexivity.
  - intros c k. apply isAttrKey_no_prefix. reflexivity.
  - reflexivity.
Qed.

Lemma attribute_without_prefix_becomes_child_witness :
  xmlToMap (PrependAttrWithHyphen false defaults)
    (stream (tokens (Element "e" [{| attrLocal := "a"; attrValue := "v" |}] [])) None) false
  = Returns (Some [("e", @VMap (@float64 exampleExternals) [("a", VString "v")])]) None
      (stream [] None)
  /\ Xml (PrependAttrWithHyphen false defaults)
       [("e", @VMap (@float64 exampleExternals) [("a", VString "v")])] []
     = (Some "<e><a>v</a></e>", None).
Proof.
  destruct (@attribute_without_prefix_becomes_child exampleExternals "e" "a" "v" None)
    as (H1 & H2 & _); [discriminate..|].
  exact (conj H1 H2).
Defined.

(** ** SetGlobalKeyMapPrefix *)

(** X21.  [SetGlobalKeyMapPrefix(s)], called on the keys as the package
    declares them, makes [s] the text key and puts [s] in the place of the
    "#" of the others.  Called with the empty string it leaves the text key
    empty, and every call after that panics, on the slice of the empty
    key: the prefix cannot be set again. *)
Theorem key_prefix_set_once (c : Config) (s : string) :
  textK c = "$" ->
  (exists c',
      SetGlobalKeyMapPrefix s (c, defaultKeys)
      = Some (c', {| seqK := s ++ "seq"; commentK := s ++ "comment"; attrK := s ++ "attr";
                     directiveK := s ++ "directive"; procinstK := s ++ "procinst";
                     targetK := s ++ "target"; instK := s ++ "inst" |})
      /\ textK c' = s /\ attrPrefix c' = attrPrefix c)
  /\ forall t,
      match SetGlobalKeyMapPrefix "" (c, defaultKeys) with
      | Some st => SetGlobalKeyMapPrefix t st
      | None => None
      end = None.
Proof.
  intros Ht. split.
  - eexists. unfold SetGlobalKeyMapPrefix. rewrite Ht. cbn [rePrefix defaultKeys seqK commentK
      attrK directiveK procinstK targetK instK replaceByte Ascii.eqb Bool.eqb].
    cbn [append]. rewrite append_nil_r. split; [reflexivity|]. split; reflexivity.
  - intros t. unfold SetGlobalKeyMapPrefix. rewrite Ht. reflexivity.
Qed.

Lemma key_prefix_set_once_witness :
  (exists c',
      SetGlobalKeyMapPrefix "_" (defaults, defaultKeys)
      = Some (c', {| seqK := "_" ++ "seq"; commentK := "_" ++ "comment";
                     attrK := "_" ++ "attr"; directiveK := "_" ++ "directive";
                     procinstK := "_" ++ "procinst"; targetK := "_" ++ "target";
                     instK := "_" ++ "inst" |})
      /\ textK c' = "_" /\ attrPrefix c' = attrPrefix defaults)
  /\ forall t,
      match SetGlobalKeyMapPrefix "" (defaults, defaultKeys) with
      | Some st => SetGlobalKeyMapPrefix t st
      | None => None
      end = None.
Proof.
  apply (key_prefix_set_once defaults "_"). reflexivity.
Defined.

(** ** Slices of other types *)

Section Slices.
Context {E : Externals}.
Variable c : Config.

Lemma map_string_members (doIndent : bool) (key : string) (l : list string) :
  map (fun v => marshalMapToXmlIndent c doIndent v key) (map VString l)
  = map (fun v p1 => openTag doIndent key (VString v) p1
                     ;; marshalSimple c doIndent key (VString v) p1) l.
Proof. rewrite map_map. reflexivity. Qed.

End Slices.

(** X22.  A [[]string] is encoded as the [[]interface{}] of its strings
    is, one element per member under the key of the slice, but behind a
    start tag that is never closed: the output begins with <key<key> and is
    not XML.  The encoder returns no error for it. *)
Theorem strings_slice_stray_tag {E : Externals} (c : Config) (doIndent : bool)
  (l : list string) (key : string) (p : pretty) (b : string) :
  marshalMapToXmlIndent c doIndent (VStrings l) key p b
  = marshalMapToXmlIndent c doIndent (VList (map VString l)) key p (b ++ "<" ++ key)
  /\ snd (marshalMapToXmlIndent c doIndent (VStrings l) key p b) = None.
Proof.
  assert (Heq : marshalMapToXmlIndent c doIndent (VStrings l) key p b
                = marshalMapToXmlIndent c doIndent (VList (map VString l)) key p
                    (b ++ "<" ++ key)).
  { rewrite marshal_list. cbn [marshalMapToXmlIndent settle].
    unfold openTag at 1. unfold andThen at 1.
    assert (Hopen : (when doIndent skip;; write ("<" ++ key)) b = (b ++ "<" ++ key, None))
      by (destruct doIndent; reflexivity).
    rewrite Hopen. destruct l as [|s l]; [reflexivity|].
    rewrite <- map_string_members. reflexivity. }
  split; [exact Heq|]. rewrite Heq. apply succeeds_strings.
Qed.

(** X23.  When [xml.Marshal] fails on a value of one of the other slice
    types, a [[]map[string]interface{}] for one, the encoder returns no
    error: it writes the placeholder, after a second ">" and as an empty
    element, <key>>UNKNOWN/>. *)
Theorem marshal_failure_writes_unknown {E : Externals} (c : Config)
  (mi : string -> string -> option string) (key : string) (p : pretty) (b : string) :
  marshalMapToXmlIndent c false (VSlice None mi) key p b
  = (b ++ "<" ++ key ++ ">>UNKNOWN"
       ++ (if useGoXmlEmptyElemSyntax c then "></" ++ key ++ ">" else "/>"), None)
  /\ Xml defaults [(key, VSlice None mi)] [] = (Some ("<" ++ key ++ ">>UNKNOWN/>"), None).
Proof.
  assert (H : forall c' b', marshalMapToXmlIndent c' false (VSlice None mi) key p b'
              = (b' ++ "<" ++ key ++ ">>UNKNOWN"
                   ++ (if useGoXmlEmptyElemSyntax c' then "></" ++ key ++ ">" else "/>"),
                 None)).
  { intros c' b'. cbn [marshalMapToXmlIndent settle marshalSimple].
    unfold openTag, closeTag, andThen, when, write, skip. cbn.
    destruct (useGoXmlEmptyElemSyntax c'); cbn; rewrite !append_assoc; reflexivity. }
  split; [apply H|]. unfold Xml. cbn [xmlRoot].
  cbn [marshalMapToXmlIndent settle marshalSimple].
  unfold openTag, closeTag, andThen, when, write, skip. cbn.
  rewrite !append_assoc. reflexivity.
Qed.

(** ** Encoding without indentation *)

Section NoIndent.
Context {E : Externals}.
Variable c : Config.

Lemma eachMember_flat (l : list (pretty -> Emit)) :
  Forall (fun m => forall p p', m p = m p') l ->
  forall p p', eachMember false l p = eachMember false l p'.
Proof.
  induction 1 as [|m l Hm _ IH]; intros p p'; [reflexivity|].
  cbn [eachMember]. rewrite (Hm p p'), (IH p p'). reflexivity.
Qed.

Lemma eachElem_flat (l : list (string * (any * (string -> pretty -> Emit)))) :
  Forall (fun x => forall key p p', snd (snd x) key p = snd (snd x) key p') l ->
  forall p p', eachElem false l p = eachElem false l p'.
Proof.
  induction 1 as [|[k [v m]] l Hm _ IH]; intros p p'; [reflexivity|].
  cbn [eachElem]. rewrite andb_false_r. cbn [snd] in Hm.
  rewrite (Hm k p p'), (IH p p'). reflexivity.
Qed.

Lemma marshal_flat (value : any) :
  forall key p p',
    marshalMapToXmlIndent c false value key p = marshalMapToXmlIndent c false value key p'.
Proof.
  induction value as [vv IH|l IH|v Hv|vv IH] using any_nested_ind; intros key p p';
    [| | |exact (IH key p p')].
  - rewrite !marshal_map.
    assert (Hch : eachElem false (elemCalls c false vv) (deeper 1 p)
                  = eachElem false (elemCalls c false vv) (deeper 1 p')).
    { apply eachElem_flat. apply Forall_forall. intros x Hx.
      apply elemCalls_In in Hx. destruct Hx as (k & v & -> & Hin & _).
      cbn [snd]. rewrite Forall_forall in IH. apply (IH (k, v) Hin). }
    cbv zeta. rewrite Hch. reflexivity.
  - rewrite !marshal_list. destruct l as [|v0 l]; [reflexivity|].
    apply eachMember_flat. apply Forall_forall. intros m Hm.
    apply in_map_iff in Hm. destruct Hm as (v & <- & Hin).
    rewrite Forall_forall in IH. apply IH. exact Hin.
  - destruct v as [|s|s|b0|z|z|z|f|t|vv|l|l|mar mi|[s|e]|s|vv]; try contradiction;
      try reflexivity.
    cbn [marshalMapToXmlIndent settle]. destruct l as [|s l]; [reflexivity|].
    f_equal. apply eachMember_flat. apply Forall_forall. intros m Hm.
    apply in_map_iff in Hm. destruct Hm as (s' & <- & _). reflexivity.
Qed.

End NoIndent.

(** X24.  Without indentation the encoder does not read the [pretty] it is
    given: [Xml] passes it a stub, and any other would give the same bytes
    and the same error. *)
Theorem encoding_without_indent_ignores_pretty {E : Externals} (c : Config) (value : any)
  (key : string) (p p' : pretty) (b : string) (mv : gomap) (rootTag : list string) :
  marshalMapToXmlIndent c false value key p b = marshalMapToXmlIndent c false value key p' b
  /\ Xml c mv rootTag
     = (let (k, v) := xmlRoot mv rootTag in
        checkIsValid c (marshalMapToXmlIndent c false v k p "")).
Proof.
  split; [rewrite (marshal_flat c value key p p'); reflexivity|].
  unfold Xml. destruct (xmlRoot mv rootTag) as [k v].
  rewrite (marshal_flat c v k (newPretty "" "") p). reflexivity.
Qed.

(** ** A map handler that stops the loop *)

(** X25.  [HandleXmlReader] stops at the first map that the map handler
    answers [false] to and returns nil: what the reader holds after that
    document is not decoded, and an error that the reader would have
    reported there is not returned. *)
Theorem handler_stops_at_rejected_map {E : Externals} (c : Config) (fuel : nat)
  (docs : list xml) (x : xml) (rest : list Token) (fl : option string)
  (mapHandler : gomap -> bool) (errHandler : error -> bool) :
  handleXMPPStreamTag c = false ->
  forallb document docs = true -> document x = true ->
  (forall y m, In y docs -> decodeElement c false y = Some m -> mapHandler m = true) ->
  (forall m, decodeElement c false x = Some m -> mapHandler m = false) ->
  (length docs < fuel)%nat ->
  HandleXmlReader c fuel (stream (flat_map tokens docs ++ tokens x ++ rest)%list fl)
    mapHandler errHandler
  = Some None.
Proof.
  intros Hx Hd Hdoc Hacc Hrej. unfold HandleXmlReader. generalize 0%Z.
  revert fuel. induction docs as [|y docs IH]; intros [|fuel] n Hf; cbn [length] in Hf;
    try lia.
  - cbn [flat_map app handleLoop NewDecoder behind readerOf ahead last].
    destruct (NewMapXmlReader_document c Hx fl x rest Hdoc) as (m & Hdec & Hne & ->).
    pose proof (Hrej m Hdec) as Hm. destruct m as [|e m]; [contradiction|].
    rewrite Hm. reflexivity.
  - cbn [forallb] in Hd. apply andb_prop in Hd. destruct Hd as [Hy Hd].
    cbn [flat_map handleLoop NewDecoder behind readerOf ahead last]. rewrite <- app_assoc.
    destruct (NewMapXmlReader_document c Hx fl y
                (flat_map tokens docs ++ tokens x ++ rest)%list Hy) as (m & Hdec & Hne & ->).
    pose proof (Hacc y m (or_introl eq_refl) Hdec) as Hm. destruct m as [|e m]; [contradiction|].
    rewrite Hm. apply IH; [exact Hd|intros z m' Hz; apply Hacc; right; exact Hz|lia].
Qed.

Lemma handler_stops_at_rejected_map_witness :
  HandleXmlReader defaults 1
    (stream (flat_map tokens [] ++ tokens (Element "a" [] []) ++ [CharData "<"])%list
       (Some "unexpected EOF"))
    (fun _ => false) (fun _ => false)
  = Some None.
Proof.
  apply (handler_stops_at_rejected_map defaults 1 [] (Element "a" [] []) [CharData "<"]
           (Some "unexpected EOF") (fun _ => false) (fun _ => false));
    [reflexivity|reflexivity|reflexivity|intros y m []|reflexivity|simpl; lia].
Defined.

(** ** Lists in lists *)

Section NestedLists.
Context {E : Externals}.
Variable c : Config.

Lemma eachMember_app (l1 l2 : list (pretty -> Emit)) (p : pretty) (b : string) :
  eachMember false (l1 ++ l2) p b = (eachMember false l1 p ;; eachMember false l2 p) b.
Proof.
  revert b. induction l1 as [|m l1 IH]; intros b; [reflexivity|].
  cbn [app eachMember]. unfold andThen.
  destruct (m p b) as [b' [e|]]; [reflexivity|]. rewrite IH. reflexivity.
Qed.

Lemma eachMember_cons (m : pretty -> Emit) (l : list (pretty -> Emit)) (p : pretty)
  (b : string) :
  eachMember false (m :: l) p b = (m p ;; eachMember false l p) b.
Proof. reflexivity. Qed.

End NestedLists.

(** X26.  Without indentation, a list that is a member of a list is
    encoded as its members are in its place: the encoder writes
    [[a, [b, c], d]] as it writes [[a, b, c, d]], every member under the key
    of the outer list, and the nesting is not in the output. *)
Theorem nested_list_is_flattened {E : Externals} (c : Config) (pre inner post : list any)
  (key : string) (p : pretty) (b : string) :
  inner <> [] ->
  marshalMapToXmlIndent c false (VList (pre ++ VList inner :: post)) key p b
  = marshalMapToXmlIndent c false (VList (pre ++ inner ++ post)) key p b.
Proof.
  intros Hne. rewrite !marshal_list.
  assert (Hin : marshalMapToXmlIndent c false (VList inner) key p
                = eachMember false (map (fun v => marshalMapToXmlIndent c false v key) inner) p)
    by (rewrite marshal_list; destruct inner; [contradiction|reflexivity]).
  destruct (pre ++ VList inner :: post)%list eqn:H1; [destruct pre; discriminate|].
  destruct (pre ++ inner ++ post)%list eqn:H2;
    [destruct pre; [destruct inner; [contradiction|discriminate]|discriminate]|].
  rewrite <- H1, <- H2, !map_app. cbn [map].
  rewrite !eachMember_app. unfold andThen at 1 2.
  destruct (eachMember false (map (fun v => marshalMapToXmlIndent c false v key) pre) p b)
    as [b' [e|]]; [reflexivity|].
  rewrite eachMember_cons, eachMember_app, Hin. unfold andThen.
  reflexivity.
Qed.

Lemma nested_list_is_flattened_witness :
  marshalMapToXmlIndent defaults false
    (@VList (@float64 exampleExternals)
       ([VString "a"] ++ VList [VString "b"; VString "c"] :: [VString "d"])) "k"
    (newPretty "" "") ""
  = marshalMapToXmlIndent defaults false
      (@VList (@float64 exampleExternals)
         ([VString "a"] ++ [VString "b"; VString "c"] ++ [VString "d"])) "k"
      (newPretty "" "") "".
Proof.
  apply (nested_list_is_flattened defaults [VString "a"] [VString "b"; VString "c"]
           [VString "d"] "k" (newPretty "" "") "").
  discriminate.
Defined.

(** ** The error of the tokenizer *)

Section CutDocuments.
Context {E : Externals}.
Variable c : Config.
Variable r : bool.
Variable fl : option string.
Hypothesis noXMPP : handleXMPPStreamTag c = false.




End CutDocuments.




(** ** The bytes written for a map *)

Section EncoderText.
Context {E : Externals}.
Variable c : Config.

#[local] Hint Resolve appends_skip appends_write appends_fail appends_andThen appends_when
  appends_if appends_closeTag appends_openTag appends_writeAttrs : appends.

(** The loop over the children, when no call fails, writes the texts of the
    calls one after the other. *)
Lemma eachElem_text (doIndent : bool)
  (l : list (string * (any * (string -> pretty -> Emit)))) :
  Forall (fun x => forall key p, appends (snd (snd x) key p) /\ succeeds (snd (snd x) key p))
    l ->
  forall p b, eachElem doIndent l p b = (b ++ childrenText doIndent l p, None).
Proof.
  induction 1 as [|[k [v m]] l Hm _ IH]; intros p b.
  - cbn [eachElem childrenText]. unfold skip. rewrite append_nil_r. reflexivity.
  - cbn [eachElem childrenText]. cbv zeta. cbn [snd] in Hm. unfold andThen.
    set (p1 := if negb (isList v) && doIndent then Indent p else p).
    destruct (Hm k p1) as [Ha Hs]. rewrite (Ha b). specialize (Hs "").
    destruct (m k p1 "") as [o e]. cbn [fst snd] in *. subst e.
    replace (if negb (isList v) && doIndent then Outdent p1 else p1) with p.
    + rewrite IH, append_assoc. reflexivity.
    + unfold p1. destruct (negb (isList v) && doIndent); [|reflexivity].
      symmetry. apply Outdent_Indent.
Qed.

Lemma elemCalls_appends (doIndent : bool) (vv : gomap) :
  Forall (fun x => forall key p, appends (snd (snd x) key p)) (elemCalls c doIndent vv).
Proof.
  apply Forall_forall. intros x Hx. apply elemCalls_In in Hx.
  destruct Hx as (k & v & -> & _ & _). cbn [snd]. intros key p. apply appends_marshal.
Qed.

Lemma andThen_run (m k : Emit) (b b' : string) :
  m b = (b', None) -> (m ;; k) b = k b'.
Proof. intros H. unfold andThen. rewrite H. reflexivity. Qed.

Lemma openTag_map_run (doIndent : bool) (key : string) (vv : gomap) (p : pretty) (b : string) :
  openTag doIndent key (VMap vv) p b
  = (b ++ (if doIndent then padding p else "") ++ "<" ++ key, None).
Proof.
  unfold openTag, when, andThen, write, skip. destruct doIndent; cbv iota beta.
  - rewrite append_assoc. reflexivity.
  - reflexivity.
Qed.

Lemma writeAttrs_run (attrs : list (string * string)) (R : Emit) (b : string) :
  (when (0 <? length attrs)%nat (writeAttrs (sortBy attrLess attrs)) ;; R) b
  = R (b ++ attrsText (sortBy attrLess attrs)).
Proof.
  apply andThen_run. unfold when. destruct attrs as [|a0 attrs0].
  - cbn. unfold skip. rewrite append_nil_r. reflexivity.
  - change (0 <? length (a0 :: attrs0))%nat with true. cbv iota. apply writeAttrs_text.
Qed.

(** The open tag and the attributes, in the order of their names, come
    first in what is written for a map, whatever follows and whether the
    call fails or not. *)
Lemma marshal_map_head (doIndent : bool) (vv : gomap) (key : string) (p : pretty)
  (attrs : list (string * string)) :
  scanAttrs c vv = inl attrs ->
  forall b, exists rest,
    fst (marshalMapToXmlIndent c doIndent (VMap vv) key p b)
    = b ++ (if doIndent then padding p else "") ++ "<" ++ key
        ++ attrsText (sortBy attrLess attrs) ++ rest.
Proof.
  intros Hscan b. rewrite marshal_map, Hscan. cbv zeta.
  set (R := if (length attrs =? length vv)%nat then _ else _).
  assert (HR : appends R).
  { unfold R. pose proof (appends_eachElem doIndent _ (elemCalls_appends doIndent vv)) as Hch.
    destruct (length attrs =? length vv)%nat; [auto 10 with appends|].
    destruct (mapGet (textK c) vv); [destruct (_ =? _)%nat|]; auto 10 with appends. }
  exists (fst (R "")).
  rewrite (andThen_run _ _ _ _ (openTag_map_run doIndent key vv p b)).
  rewrite writeAttrs_run, (HR _). cbn [fst]. rewrite !append_assoc. reflexivity.
Qed.

(** All that is written for a map that holds nothing the encoder rejects. *)
Lemma marshal_map_text (doIndent : bool) (vv : gomap) (key : string) (p : pretty)
  (attrs : list (string * string)) :
  scanAttrs c vv = inl attrs ->
  isAttrKey c (textK c) = false -> encodable c (VMap vv) = true ->
  forall b,
    marshalMapToXmlIndent c doIndent (VMap vv) key p b
    = (b ++ (if doIndent then padding p else "") ++ "<" ++ key
         ++ attrsText (sortBy attrLess attrs)
         ++ (if (length attrs =? length vv)%nat
             then (if useGoXmlEmptyElemSyntax c then "</" ++ key ++ ">" else "/>")
             else ">"
                  ++ match mapGet (textK c) vv with
                     | Some v => textOf c v
                     | None => ""
                     end
                  ++ (if match mapGet (textK c) vv with
                         | Some _ => (length attrs + 1 =? length vv)%nat
                         | None => false
                         end
                      then ""
                      else (if doIndent then newline else "")
                           ++ childrenText doIndent (elemCalls c doIndent vv) (deeper 1 p)
                           ++ (if doIndent then padding p else ""))
                  ++ "</" ++ key ++ ">")
         ++ (if doIndent && (start p <? cnt p)%nat then newline else ""),
       None).
Proof.
  intros Hscan Htext Henc b. rewrite marshal_map, Hscan. cbv zeta.
  assert (Hch : forall p' b', eachElem doIndent (elemCalls c doIndent vv) p' b'
                = (b' ++ childrenText doIndent (elemCalls c doIndent vv) p', None)).
  { apply eachElem_text. apply Forall_forall. intros x Hx. apply elemCalls_In in Hx.
    destruct Hx as (k & v & -> & Hin & Hk). cbn [snd]. intros key' p'.
    split; [apply appends_marshal|].
    apply (proj1 (encodable_marshal c Htext v)).
    cbn [encodable] in Henc. rewrite forallb_forall in Henc.
    specialize (Henc (k, v) Hin). cbn [fst snd] in Henc.
    unfold isElemKey in Hk. apply andb_prop in Hk. destruct Hk as [Ht Ha].
    apply negb_true_iff in Ht, Ha. rewrite Ha, Ht in Henc. exact Henc. }
  rewrite (andThen_run _ _ _ _ (openTag_map_run doIndent key vv p b)).
  rewrite writeAttrs_run.
  destruct doIndent;
    (destruct (length attrs =? length vv)%nat;
     [unfold closeTag, when, andThen, write, skip; cbn [andb];
      destruct (useGoXmlEmptyElemSyntax c); destruct (start p <? cnt p)%nat;
      cbv iota beta; rewrite ?append_assoc, ?append_nil_r; reflexivity|]);
    (destruct (mapGet (textK c) vv) as [v|];
     [destruct (length attrs + 1 =? length vv)%nat|]);
    unfold closeTag; destruct (start p <? cnt p)%nat;
    unfold when, andThen, write, skip; cbn [andb negb Nat.ltb Nat.leb Nat.eqb orb];
    cbv iota beta; rewrite ?Hch; cbv iota beta;
    rewrite ?append_assoc, ?append_nil_r; reflexivity.
Qed.

End EncoderText.

(** C6.  For a map with attributes of the allowed types: the attributes are
    written in the order of their names without the prefix, the children in
    the order of their keys, the text key and the attribute keys not among
    the children; and neither list, nor the bytes written, depends on the
    order in which the entries of the map come.  What [marshalMapToXmlIndent]
    writes begins with the open tag and the attributes in that order,
    whether the call fails or not; and when the map holds nothing that the
    encoder rejects, it is the open tag, the attributes in that order, the
    text if there is one, what the calls for the children write in the
    order of their keys, and the end tag. *)
Theorem canonical_encode_order {E : Externals} (c : Config) (doIndent : bool)
  (vv vv' : gomap) (key : string) (p : pretty) (attrs : list (string * string))
  (Hnd : NoDup (keys vv))
  (Hperm : Permutation vv vv')
  (Hscan : scanAttrs c vv = inl attrs) :
  StronglySorted (keyLe fst) (sortBy attrLess attrs)
  /\ NoDup (map fst (sortBy attrLess attrs))
  /\ Permutation (map fst (sortBy attrLess attrs))
       (map (attrName c) (filter (isAttrKey c) (keys vv)))
  /\ (forall b, writeAttrs (sortBy attrLess attrs) b
                = (b ++ attrsText (sortBy attrLess attrs), None))
  /\ StronglySorted (keyLe fst) (elemCalls c doIndent vv)
  /\ NoDup (map fst (elemCalls c doIndent vv))
  /\ (forall k, In k (map fst (elemCalls c doIndent vv))
                <-> In k (keys vv) /\ k <> textK c /\ isAttrKey c k = false)
  /\ (exists attrs', scanAttrs c vv' = inl attrs'
                     /\ sortBy attrLess attrs' = sortBy attrLess attrs)
  /\ elemCalls c doIndent vv' = elemCalls c doIndent vv
  /\ marshalMapToXmlIndent c doIndent (VMap vv') key p
     = marshalMapToXmlIndent c doIndent (VMap vv) key p
  /\ (forall b, exists rest,
        fst (marshalMapToXmlIndent c doIndent (VMap vv') key p b)
        = b ++ (if doIndent then padding p else "") ++ "<" ++ key
            ++ attrsText (sortBy attrLess attrs) ++ rest)
  /\ (forall x, In x (elemCalls c doIndent vv) ->
        exists k v, x = (k, (v, marshalMapToXmlIndent c doIndent v)) /\ In (k, v) vv)
  /\ (isAttrKey c (textK c) = false -> encodable c (VMap vv) = true ->
      forall b,
        marshalMapToXmlIndent c doIndent (VMap vv') key p b
        = (b ++ (if doIndent then padding p else "") ++ "<" ++ key
             ++ attrsText (sortBy attrLess attrs)
             ++ (if (length attrs =? length vv)%nat
                 then (if useGoXmlEmptyElemSyntax c then "</" ++ key ++ ">" else "/>")
                 else ">"
                      ++ match mapGet (textK c) vv with
                         | Some v => textOf c v
                         | None => ""
                         end
                      ++ (if match mapGet (textK c) vv with
                             | Some _ => (length attrs + 1 =? length vv)%nat
                             | None => false
                             end
                          then ""
                          else (if doIndent then newline else "")
                               ++ childrenText doIndent (elemCalls c doIndent vv) (deeper 1 p)
                               ++ (if doIndent then padding p else ""))
                      ++ "</" ++ key ++ ">")
             ++ (if doIndent && (start p <? cnt p)%nat then newline else ""),
           None)).
Proof.
  assert (Hnames : Permutation (map fst (sortBy attrLess attrs))
                     (map (attrName c) (filter (isAttrKey c) (keys vv)))).
  { rewrite <- (scanAttrs_names c vv attrs Hscan). apply Permutation_map.
    apply (sortBy_perm fst). }
  pose proof (marshal_map_perm c doIndent vv vv' key p attrs Hnd Hperm Hscan) as Hbytes.
  split; [apply (sortBy_sorted fst)|].
  split.
  { apply (Permutation_NoDup (Permutation_sym Hnames)). apply attr_names_NoDup. exact Hnd. }
  split; [exact Hnames|].
  split; [apply writeAttrs_text|].
  split; [apply (sortBy_sorted fst)|].
  split.
  { unfold elemCalls.
    apply (Permutation_NoDup (l := filter (isElemKey c) (keys vv))); [|apply NoDup_filter, Hnd].
    rewrite <- (scanElems_keys c (fun kv => (snd kv, marshalMapToXmlIndent c doIndent (snd kv)))).
    apply Permutation_map, Permutation_sym. apply (sortBy_perm fst). }
  split; [apply elemCalls_keys|].
  split.
  { destruct (sorted_attrs_perm c vv vv' attrs Hnd Hperm Hscan) as (attrs' & H1 & _ & H2).
    exists attrs'. auto. }
  split; [symmetry; apply elemCalls_perm; assumption|].
  split; [exact Hbytes|].
  split; [intros b; rewrite Hbytes; apply marshal_map_head; exact Hscan|].
  split.
  { intros x Hx. destruct (elemCalls_In c doIndent vv x Hx) as (k & v & Hxeq & Hin & _).
    exists k, v. split; assumption. }
  intros Htext Henc b. rewrite Hbytes. apply marshal_map_text; assumption.
Qed.

Lemma canonical_encode_order_witness :
  let vv : @gomap exampleExternals :=
    [("-b", VString "x"); ("z", VString "1"); ("-a", VString "1"); ("c", VNil)] in
  marshalMapToXmlIndent defaults false (VMap (rev vv)) "e" (newPretty "" "") ""
  = marshalMapToXmlIndent defaults false (VMap vv) "e" (newPretty "" "") ""
  /\ sortBy attrLess [("b", "x"); ("a", "1")] = [("a", "1"); ("b", "x")]
  /\ marshalMapToXmlIndent defaults false (VMap (rev vv)) "e" (newPretty "" "") ""
     = ("<e a=" ++ dquote ++ "1" ++ dquote ++ " b=" ++ dquote ++ "x" ++ dquote
          ++ "><c/><z>1</z></e>", None).
Proof.
  intros vv.
  assert (Hnd : NoDup (keys vv)).
  { unfold vv. simpl. repeat constructor; simpl; intuition discriminate. }
  destruct (@canonical_encode_order exampleExternals defaults false vv (rev vv) "e"
              (newPretty "" "") [("b", "x"); ("a", "1")] Hnd (Permutation_rev vv) eq_refl)
    as (_ & _ & _ & _ & _ & _ & _ & _ & _ & H & _ & _ & Htext).
  split; [rewrite H; reflexivity|]. split; [reflexivity|].
  rewrite (Htext eq_refl eq_refl ""). reflexivity.
Defined.

(** ** Maps of another type *)

(** X27.  A map of another type than [map[string]interface{}] is encoded
    as the copy that the encoder makes of it, like a map; but in the list
    that is the value of the one entry of the map given to [Xml] it is a
    member that is no map, and the whole map is encoded under "doc", where
    the same list with the copy in its place, all other members being maps,
    is encoded under the key. *)
Theorem other_map_type_forces_doc {E : Externals} (c : Config) (doIndent : bool)
  (key k : string) (p : pretty) (copy : gomap) (l1 l2 : list any) :
  marshalMapToXmlIndent c doIndent (VMapOf copy) k p
  = marshalMapToXmlIndent c doIndent (VMap copy) k p
  /\ xmlRoot [(key, VList (l1 ++ VMapOf copy :: l2))] []
     = (DefaultRootTag, VMap [(key, VList (l1 ++ VMapOf copy :: l2))])
  /\ (hasNonMap (l1 ++ l2) = false ->
      xmlRoot [(key, VList (l1 ++ VMap copy :: l2))] []
      = (key, VList (l1 ++ VMap copy :: l2))).
Proof.
  split; [reflexivity|]. split.
  - unfold xmlRoot, hasNonMap. rewrite existsb_app. cbn [existsb].
    rewrite orb_true_r. reflexivity.
  - unfold xmlRoot, hasNonMap. rewrite !existsb_app. cbn [existsb orb].
    intros ->. reflexivity.
Qed.
